(** * EWI breath trainer: the visualizer of [main.py]

    A shallow embedding of [LongToneVisualizer]: the MIDI event dispatch and
    the rolling history of [process_midi], the gap-bridging smoother of
    [update_graph], the per-note statistics and the consistency score of
    [render]; and around this core the choice of the input device, the note
    names, the debug log, the event loop of [run], the plotted segments, the
    legend and the debug panel.

    The numpy arrays of the program hold float64 values.  The arithmetic the
    program performs on them is collected in the interface [Scalar], which has
    two instances: [binary64] (Rocq's primitive IEEE 754 binary64 numbers, the
    values the program really computes) and [exact_real] (the real numbers,
    the values those computations approximate).

    Part 1 is the embedding, part 2 the vocabulary of the properties and the
    concrete runs they are tried on, part 3 the lemmas and theorems. *)

From Stdlib Require Import ZArith List Bool Lia Reals Lra.
From Stdlib Require Import Floats.
From Stdlib Require Import String Ascii DecimalString DecimalZ HexadecimalString HexadecimalZ.
From stdpp Require Import base option list gmap sorting.

(** * Part 1: the embedding *)

(** ** Scalars *)

Class Scalar (num : Type) := {
  of_Z : Z -> num;                 (* int -> float64 *)
  add : num -> num -> num;
  sub : num -> num -> num;
  mul : num -> num -> num;
  div : num -> num -> num;
  sqrt : num -> num;
  ltb : num -> num -> bool
}.

Module Binary64.

(** Conversion of a Python int; every int the program converts is small and
    non-negative, hence exactly representable. *)
Definition of_Z (z : Z) : float :=
  if (z <? 0)%Z then PrimFloat.opp (PrimFloat.of_uint63 (Uint63.of_Z (- z)))
  else PrimFloat.of_uint63 (Uint63.of_Z z).

End Binary64.

#[export] Instance binary64 : Scalar float := {|
  of_Z := Binary64.of_Z;
  add := PrimFloat.add;
  sub := PrimFloat.sub;
  mul := PrimFloat.mul;
  div := PrimFloat.div;
  sqrt := PrimFloat.sqrt;
  ltb := PrimFloat.ltb
|}.

Module ExactReal.

Definition ltb (x y : R) : bool := if Rlt_dec x y then true else false.

End ExactReal.

#[export] Instance exact_real : Scalar R := {|
  of_Z := IZR;
  add := Rplus;
  sub := Rminus;
  mul := Rmult;
  div := Rdiv;
  sqrt := R_sqrt.sqrt;
  ltb := ExactReal.ltb
|}.

(** ** Constants of [main.py] *)

Definition HISTORY_LENGTH : nat := 300.

Definition color : Type := Z * Z * Z.

Definition NOTE_COLORS : list color :=
  [ (65, 156, 255); (255, 100, 100); (100, 255, 100); (255, 255, 100);
    (255, 100, 255); (100, 255, 255); (255, 150, 100); (150, 100, 255);
    (255, 200, 150); (150, 255, 150); (200, 150, 255); (255, 150, 200) ]%Z.

(** [NOTE_COLORS[i]]; the program only indexes it modulo its length. *)
Definition palette (i : nat) : color := nth i NOTE_COLORS (65, 156, 255)%Z.

(** One MIDI message as [pygame.midi] delivers it: [data[0]], [data[1]],
    [data[2]]. *)
Record midi_event := { data0 : Z; data1 : Z; data2 : Z }.

Section Core.

Context {num : Type} `{Scalar num}.

Definition zero : num := of_Z 0.
Definition of_nat (n : nat) : num := of_Z (Z.of_nat n).

(** The literal [0.7]: the binary64 nearest to 7/10, which is what the
    correctly rounded quotient 7/10 gives (see [seven_tenths_literal]). *)
Definition seven_tenths : num := div (of_Z 7) (of_Z 10).

(** [x > 0] on an array element. *)
Definition gt0 (x : num) : bool := ltb zero x.

(** Python's builtin [min(a, b)] and [max(a, b)]: the second argument wins
    only when it is strictly smaller (larger). *)
Definition py_min (a b : num) : num := if ltb b a then b else a.
Definition py_max (a b : num) : num := if ltb a b then b else a.

(** [l[i]] for an index in range (the program never reads out of range). *)
Definition item (l : list num) (i : nat) : num := default zero (l !! i).
Definition item_note (l : list Z) (i : nat) : Z := default (-1)%Z (l !! i).

(** *** numpy helpers *)

(** [np.roll(a, -1)] *)
Definition np_roll_left {A} (l : list A) : list A :=
  match l with
  | [] => []
  | x :: t => t ++ [x]
  end.

(** [a[-1] = v] (an array of the program is never empty) *)
Definition set_last {A} (l : list A) (v : A) : list A := <[pred (length l) := v]> l.

(** [np.where(v > 0)[0]], counting indices from [i] *)
Fixpoint np_where_pos (i : nat) (v : list num) : list nat :=
  match v with
  | [] => []
  | x :: t => if gt0 x then i :: np_where_pos (S i) t else np_where_pos (S i) t
  end.

(** [a[mask]] *)
Fixpoint mask_select (mask : list bool) (a : list num) : list num :=
  match mask, a with
  | m :: mask', x :: a' => if m then x :: mask_select mask' a' else mask_select mask' a'
  | _, _ => []
  end.

(** [np.sum], [np.mean], [np.std], [np.min], [np.max] as numpy documents them;
    the order in which numpy adds the terms of a sum is not modelled (on the
    integer-valued samples of the history the sum is exact in any order). *)
Definition np_sum (l : list num) : num := foldl add zero l.
Definition np_mean (l : list num) : num := div (np_sum l) (of_nat (length l)).
(** [np.std]: the square root of the mean of the squared deviations from the
    mean (population standard deviation, [ddof = 0]). *)
Definition np_std (l : list num) : num :=
  let m := np_mean l in
  sqrt (np_mean (map (fun x => mul (sub x m) (sub x m)) l)).
Definition np_min (l : list num) : num :=
  match l with
  | [] => zero
  | x :: t => foldl (fun a b => if ltb b a then b else a) x t
  end.
Definition np_max (l : list num) : num :=
  match l with
  | [] => zero
  | x :: t => foldl (fun a b => if ltb a b then b else a) x t
  end.

(** ** State of [LongToneVisualizer] *)

Record Stats := { mean : num; std_dev : num; stats_min : num; stats_max : num }.

(** The fields the telemetry core reads and writes; the display-only fields
    ([note_name], [time_held], [start_time], the debug log, the widgets) are
    left out. *)
Record State := {
  current_note : option Z;          (* None until the first note-on *)
  current_velocity : Z;
  velocity_history : list num;
  note_history : list Z;
  note_colors : gmap Z color;
  color_index : nat;
  is_note_active : bool;
  current_note_start_idx : nat;
  stats : Stats;
  cc_values : gmap Z Z;
  selected_cc : Z
}.

(** [__init__] *)
Definition init : State := {|
  current_note := None;
  current_velocity := 0;
  velocity_history := replicate HISTORY_LENGTH zero;
  note_history := replicate HISTORY_LENGTH (-1)%Z;
  note_colors := ∅;
  color_index := 0;
  is_note_active := false;
  current_note_start_idx := 0;
  stats := {| mean := zero; std_dev := zero; stats_min := zero; stats_max := zero |};
  cc_values := ∅;
  selected_cc := 7
|}.

(** ** [process_midi]: event dispatch *)

Definition note_on (st : State) (note velocity : Z) : State := {|
  current_note := Some note;
  current_velocity := velocity;
  velocity_history := velocity_history st;
  note_history := note_history st;
  note_colors :=
    match note_colors st !! note with
    | None => <[note := palette (color_index st mod length NOTE_COLORS)]> (note_colors st)
    | Some _ => note_colors st
    end;
  color_index :=
    match note_colors st !! note with
    | None => color_index st + 1
    | Some _ => color_index st
    end;
  is_note_active := true;
  current_note_start_idx := length (np_where_pos 0 (velocity_history st));
  stats := stats st;
  cc_values := cc_values st;
  selected_cc := selected_cc st
|}.

Definition note_off (st : State) (note : Z) : State := {|
  current_note := current_note st;
  current_velocity := current_velocity st;
  velocity_history := velocity_history st;
  note_history := note_history st;
  note_colors := note_colors st;
  color_index := color_index st;
  is_note_active :=
    if decide (current_note st = Some note) then false else is_note_active st;
  current_note_start_idx := current_note_start_idx st;
  stats := stats st;
  cc_values := cc_values st;
  selected_cc := selected_cc st
|}.

Definition control_change (st : State) (cc_num cc_value : Z) : State := {|
  current_note := current_note st;
  current_velocity :=
    if (cc_num =? selected_cc st)%Z then cc_value else current_velocity st;
  velocity_history := velocity_history st;
  note_history := note_history st;
  note_colors := note_colors st;
  color_index := color_index st;
  is_note_active := is_note_active st;
  current_note_start_idx := current_note_start_idx st;
  stats := stats st;
  cc_values := <[cc_num := cc_value]> (cc_values st);
  selected_cc := selected_cc st
|}.

(** The body of [for event in events]. *)
Definition process_event (st : State) (ev : midi_event) : State :=
  let status := Z.land (data0 ev) 0xF0 in
  if (status =? 0x90)%Z && (0 <? data2 ev)%Z then note_on st (data1 ev) (data2 ev)
  else if (status =? 0x80)%Z || ((status =? 0x90)%Z && (data2 ev =? 0)%Z)
       then note_off st (data1 ev)
  else if (status =? 0xB0)%Z then control_change st (data1 ev) (data2 ev)
  else st.

(** ** [process_midi]: the history update and the statistics *)

(** The samples the statistics range over: [velocity_history[note_history ==
    current_note]], then those [> 0]. *)
Definition current_note_velocities (vh : list num) (nh : list Z) (note : Z) : list num :=
  List.filter gt0 (mask_select (map (fun n => (n =? note)%Z) nh) vh).

Definition compute_stats (old : Stats) (sel : list num) : Stats :=
  if (0 <? length sel)%nat then
    {| mean := np_mean sel; std_dev := np_std sel;
       stats_min := np_min sel; stats_max := np_max sel |}
  else old.

(** Lines 198-213: roll both arrays, store the current sample, recompute the
    statistics of the current note. *)
Definition push_sample (st : State) (note : Z) : State :=
  let vh := set_last (np_roll_left (velocity_history st)) (of_Z (current_velocity st)) in
  let nh := set_last (np_roll_left (note_history st)) note in
  {| current_note := current_note st;
     current_velocity := current_velocity st;
     velocity_history := vh;
     note_history := nh;
     note_colors := note_colors st;
     color_index := color_index st;
     is_note_active := is_note_active st;
     current_note_start_idx := current_note_start_idx st;
     stats := compute_stats (stats st) (current_note_velocities vh nh note);
     cc_values := cc_values st;
     selected_cc := selected_cc st |}.

(** The block under [if self.is_note_active].  Storing [None] into the integer
    array [note_history] would raise; [None] models that exception. *)
Definition update_history (st : State) : option State :=
  if is_note_active st then
    match current_note st with
    | None => None
    | Some note => Some (push_sample st note)
    end
  else Some st.

(** One call of [process_midi] with the events [midi_input.read] returned
    (none when [poll] is false): one sampling tick. *)
Definition process_midi (st : State) (events : list midi_event) : option State :=
  update_history (foldl process_event st events).

(** Several ticks in a row, each with its events. *)
Fixpoint run_ticks (st : State) (ticks : list (list midi_event)) : option State :=
  match ticks with
  | [] => Some st
  | events :: rest =>
      match process_midi st events with
      | Some st' => run_ticks st' rest
      | None => None
      end
  end.

(** The [K_c] branch of [run]: clear history. *)
Definition clear (st : State) : State := {|
  current_note := current_note st;
  current_velocity := current_velocity st;
  velocity_history := replicate HISTORY_LENGTH zero;
  note_history := replicate HISTORY_LENGTH (-1)%Z;
  note_colors := ∅;
  color_index := 0;
  is_note_active := is_note_active st;
  current_note_start_idx := current_note_start_idx st;
  stats := stats st;
  cc_values := cc_values st;
  selected_cc := selected_cc st
|}.

(** ** [update_graph]: the smoother *)

Definition gap_threshold : nat := 20.

(** [(nz[i], nz[i+1])] for [i in range(len(nz) - 1)] *)
Definition adjacent_pairs (nz : list nat) : list (nat * nat) := zip nz (tail nz).

Definition interp_vel (start_vel end_vel : num) (gap_size j : nat) : num :=
  let alpha := div (of_nat j) (of_nat (gap_size + 1)) in
  add (mul start_vel (sub (of_Z 1) alpha)) (mul end_vel alpha).

Definition min_transition_velocity (start_vel end_vel : num) : num :=
  mul (py_min start_vel end_vel) seven_tenths.

(** The value written at [start_idx + j]. *)
Definition bridged_value (start_vel end_vel : num) (gap_size j : nat) : num :=
  py_max (interp_vel start_vel end_vel gap_size j)
         (min_transition_velocity start_vel end_vel).

(** The note written at [start_idx + j], if any. *)
Definition bridged_note (start_note end_note : Z) : option Z :=
  if (0 <=? end_note)%Z then Some end_note
  else if (0 <=? start_note)%Z then Some start_note
  else None.

(** Body of [for j in range(1, gap_size + 1)]; [sm] is the pair
    [(velocity_smoothed, note_history_smoothed)]. *)
Definition bridge_step (start_idx gap_size : nat) (start_vel end_vel : num)
    (start_note end_note : Z) (sm : list num * list Z) (j : nat) : list num * list Z :=
  let interp_idx := start_idx + j in
  (<[interp_idx := bridged_value start_vel end_vel gap_size j]> sm.1,
   match bridged_note start_note end_note with
   | Some n => <[interp_idx := n]> sm.2
   | None => sm.2
   end).

(** Body of [for i in range(len(non_zero_indices) - 1)].  The indices come from
    [np.where] in increasing order, so [end_idx - start_idx - 1] never goes
    below zero. *)
Definition bridge_pair (vh : list num) (nh : list Z)
    (sm : list num * list Z) (p : nat * nat) : list num * list Z :=
  let start_idx := p.1 in
  let end_idx := p.2 in
  let gap_size := end_idx - start_idx - 1 in
  if (gap_size <=? gap_threshold)%nat && (0 <? gap_size)%nat then
    foldl (bridge_step start_idx gap_size (item vh start_idx) (item vh end_idx)
                       (item_note nh start_idx) (item_note nh end_idx))
          sm (seq 1 gap_size)
  else sm.

(** Lines 228-264: [(velocity_smoothed, note_history_smoothed)]. *)
Definition bridge_gaps (vh : list num) (nh : list Z) : list num * list Z :=
  let non_zero_indices := np_where_pos 0 vh in
  if (1 <? length non_zero_indices)%nat then
    foldl (bridge_pair vh nh) (vh, nh) (adjacent_pairs non_zero_indices)
  else (vh, nh).

(** [(v[i-1] + v[i] + v[i+1]) / 3] *)
Definition mean3 (v : list num) (i : nat) : num :=
  div (add (add (item v (i - 1)) (item v i)) (item v (i + 1))) (of_Z 3).

(** Body of [for i in range(1, len(velocity_final) - 1)]. *)
Definition smooth_step (velocity_smoothed velocity_final : list num) (i : nat) : list num :=
  if gt0 (item velocity_smoothed i) then <[i := mean3 velocity_smoothed i]> velocity_final
  else velocity_final.

(** Lines 266-271: [velocity_final]. *)
Definition moving_average (velocity_smoothed : list num) : list num :=
  foldl (smooth_step velocity_smoothed) velocity_smoothed
        (seq 1 (length velocity_smoothed - 2)).

(** The series [update_graph] plots: [(velocity_final, note_history_smoothed)]. *)
Definition smoothed_series (vh : list num) (nh : list Z) : list num * list Z :=
  let sm := bridge_gaps vh nh in
  (moving_average sm.1, sm.2).

Definition update_graph (st : State) : list num * list Z :=
  smoothed_series (velocity_history st) (note_history st).

(** ** [render]: the consistency score (line 530) *)

Definition consistency_score (s : Stats) : num :=
  if gt0 (mean s) then sub (of_Z 100) (py_min (of_Z 100) (mul (std_dev s) (of_Z 5)))
  else zero.

End Core.

(** * Part 1, continued: the display, the debug log and the event loop *)

(** ** Constants of [main.py], continued *)

Definition WINDOW_WIDTH : Z := 1200.
Definition WINDOW_HEIGHT : Z := 700.
Definition MIDI_POLL_RATE : Z := 10.
Definition MAX_DEBUG_MESSAGES : nat := 20.

Definition TEXT_COLOR : color := (230, 230, 230)%Z.
Definition DEBUG_COLOR : color := (255, 255, 100)%Z.

(** ** Strings *)

(** [str(z)] and [f"{z}"] of a Python int. *)
Definition str_int (z : Z) : string := DecimalString.NilZero.string_of_int (Z.to_int z).

(** [f"{z:02X}"]: upper-case hexadecimal, padded with zeros to two
    characters. *)
Definition upper_hex (c : ascii) : ascii :=
  if Ascii.eqb c "a" then "A"%char else if Ascii.eqb c "b" then "B"%char
  else if Ascii.eqb c "c" then "C"%char else if Ascii.eqb c "d" then "D"%char
  else if Ascii.eqb c "e" then "E"%char else if Ascii.eqb c "f" then "F"%char
  else c.

Fixpoint map_string (f : ascii -> ascii) (s : string) : string :=
  match s with
  | EmptyString => EmptyString
  | String c t => String (f c) (map_string f t)
  end.

Definition format_02X (z : Z) : string :=
  let digits := map_string upper_hex
                  (HexadecimalString.NilZero.string_of_int (Z.to_hex_int z)) in
  if (String.length digits <? 2)%nat then String "0" digits else digits.

(** ** [get_note_name] *)

Definition notes : list string :=
  ["C"; "C#"; "D"; "D#"; "E"; "F"; "F#"; "G"; "G#"; "A"; "A#"; "B"]%string.

Definition get_note_name (note_num : Z) : string :=
  let note_name := nth (Z.to_nat (note_num mod 12)) notes EmptyString in
  let octave := (note_num / 12 - 1)%Z in
  (note_name ++ str_int octave)%string.

(** ** [add_debug_message] *)

(** [timestamp] is what [time.strftime("%H:%M:%S")] returns at the call. *)
Definition add_debug_message (timestamp message : string)
    (debug_messages : list string) : list string :=
  let appended := debug_messages ++ [("[" ++ timestamp ++ "] " ++ message)%string] in
  if (MAX_DEBUG_MESSAGES <? length appended)%nat then drop 1 appended else appended.

(** ** [setup_midi] *)

(** What [pygame.midi.get_device_info(i)] returns:
    [(interf, name, input, output, opened)]. *)
Record device_info := {
  interf : string;
  device_name : string;
  is_input : Z;
  is_output : Z;
  opened : Z
}.

(** [[i for i in range(device_count) if get_device_info(i)[2]]], counting
    from [i]. *)
Fixpoint input_device_ids (i : nat) (devices : list device_info) : list nat :=
  match devices with
  | [] => []
  | d :: rest =>
      if (is_input d =? 0)%Z then input_device_ids (S i) rest
      else i :: input_device_ids (S i) rest
  end.

(** The device [setup_midi] opens; [None] when it leaves through
    [sys.exit()]. *)
Definition setup_midi (devices : list device_info) : option nat :=
  if (length devices =? 0)%nat then None
  else match input_device_ids 0 devices with
       | [] => None
       | first :: _ => Some first
       end.

(** ** The display state of [LongToneVisualizer] *)

(** The fields beside the telemetry core that the event loop reads and
    writes; [time_held] and [start_time], which hold readings of the wall
    clock, and the pygame and matplotlib objects are left out. *)
Record Display := {
  note_name : string;
  debug_mode : bool;
  debug_messages : list string;
  cc_dropdown_open : bool
}.

Definition init_display : Display := {|
  note_name := "No note";
  debug_mode := false;
  debug_messages := [];
  cc_dropdown_open := false
|}.

Definition set_note_name (d : Display) (name : string) : Display := {|
  note_name := name;
  debug_mode := debug_mode d;
  debug_messages := debug_messages d;
  cc_dropdown_open := cc_dropdown_open d
|}.

Definition set_debug_messages (d : Display) (log : list string) : Display := {|
  note_name := note_name d;
  debug_mode := debug_mode d;
  debug_messages := log;
  cc_dropdown_open := cc_dropdown_open d
|}.

Definition set_cc_dropdown_open (d : Display) (b : bool) : Display := {|
  note_name := note_name d;
  debug_mode := debug_mode d;
  debug_messages := debug_messages d;
  cc_dropdown_open := b
|}.

(** [if self.debug_mode: self.add_debug_message(message)] *)
Definition debug_log (d : Display) (timestamp message : string) : Display :=
  if debug_mode d
  then set_debug_messages d (add_debug_message timestamp message (debug_messages d))
  else d.

(** The [K_d] branch of [run]. *)
Definition toggle_debug (d : Display) (timestamp : string) : Display :=
  if negb (debug_mode d) then
    {| note_name := note_name d;
       debug_mode := true;
       debug_messages :=
         add_debug_message timestamp "Debug mode enabled" (debug_messages d);
       cc_dropdown_open := cc_dropdown_open d |}
  else
    {| note_name := note_name d;
       debug_mode := false;
       debug_messages := [];
       cc_dropdown_open := cc_dropdown_open d |}.

(** The names [process_midi] logs controllers under. *)
Definition cc_names_debug : gmap Z string :=
  list_to_map [(1, "Modulation"); (2, "Breath"); (7, "Volume"); (11, "Expression");
               (64, "Sustain"); (74, "Filter Cutoff")]%Z%string.

(** The names [render_cc_button] shows controllers under. *)
Definition cc_names_button : gmap Z string :=
  list_to_map [(1, "Modulation (CC1)"); (2, "Breath (CC2)"); (7, "Volume (CC7)");
               (11, "Expression (CC11)"); (74, "Filter (CC74)")]%Z%string.

(** [cc_names.get(cc_num, f"CC{cc_num}")] *)
Definition cc_name (cc_names : gmap Z string) (cc_num : Z) : string :=
  default ("CC" ++ str_int cc_num)%string (cc_names !! cc_num).

(** ** Rectangles *)

(** [pygame.Rect(left, top, width, height)] *)
Record Rect := { left : Z; top : Z; width : Z; height : Z }.

(** [rect.collidepoint(pos)]: a point on the right or the bottom edge is
    outside. *)
Definition collidepoint (r : Rect) (pos : Z * Z) : bool :=
  (left r <=? pos.1)%Z && (pos.1 <? left r + width r)%Z &&
  (top r <=? pos.2)%Z && (pos.2 <? top r + height r)%Z.

Definition cc_button_rect : Rect :=
  {| left := 50; top := WINDOW_HEIGHT - 100; width := 200; height := 40 |}.

Definition common_ccs : list Z := [1; 2; 7; 11; 74]%Z.

(** The rectangle of a dropdown option, as [run] and [render_cc_button] both
    build it. *)
Definition option_rect (y_offset : Z) : Rect :=
  {| left := left cc_button_rect; top := y_offset;
     width := width cc_button_rect; height := 28 |}.

(** [y_offset] before the loop over the options: above the button. *)
Definition dropdown_top : Z := (top cc_button_rect - Z.of_nat (length common_ccs) * 30 - 5)%Z.

(** The loop [for cc_num in common_ccs] of [run], left through [break] at
    the first option that contains the mouse position. *)
Fixpoint clicked_option (mouse_pos : Z * Z) (y_offset : Z) (ccs : list Z) : option Z :=
  match ccs with
  | [] => None
  | cc_num :: rest =>
      if collidepoint (option_rect y_offset) mouse_pos then Some cc_num
      else clicked_option mouse_pos (y_offset + 30)%Z rest
  end.

(** The option rectangles [render_cc_button] draws, with their controllers. *)
Fixpoint drawn_options (y_offset : Z) (ccs : list Z) : list (Z * Rect) :=
  match ccs with
  | [] => []
  | cc_num :: rest => (cc_num, option_rect y_offset) :: drawn_options (y_offset + 30)%Z rest
  end.

(** ** pygame events *)

(** The key codes of pygame: the ASCII codes of the characters. *)
Definition K_ESCAPE : Z := 27.
Definition K_0 : Z := 48.
Definition K_1 : Z := 49.
Definition K_9 : Z := 57.
Definition K_c : Z := 99.
Definition K_d : Z := 100.

(** An event of [pygame.event.get()], as far as [run] looks at it.
    [mouse_pos] is what [pygame.mouse.get_pos()] returns while the click is
    handled. *)
Inductive pygame_event :=
  | QUIT
  | KEYDOWN (key : Z)
  | MOUSEBUTTONDOWN (button : Z) (mouse_pos : Z * Z)
  | OTHER_EVENT.

Section Application.

Context {num : Type} `{Scalar num}.

Definition set_selected_cc (st : State (num := num)) (n : Z) : State (num := num) := {|
  current_note := current_note st;
  current_velocity := current_velocity st;
  velocity_history := velocity_history st;
  note_history := note_history st;
  note_colors := note_colors st;
  color_index := color_index st;
  is_note_active := is_note_active st;
  current_note_start_idx := current_note_start_idx st;
  stats := stats st;
  cc_values := cc_values st;
  selected_cc := n
|}.

(** The visualizer: the telemetry core and the display state. *)
Record Visualizer := { core : State (num := num); display : Display }.

(** [__init__] *)
Definition init_visualizer : Visualizer := {| core := init; display := init_display |}.

(** ** [process_midi] with its debug log *)

(** The body of [for event in events], on the whole visualizer.  Each event
    comes with the time stamp a debug message about it would carry. *)
Definition dispatch (v : Visualizer) (timed : string * midi_event) : Visualizer :=
  let timestamp := timed.1 in
  let ev := timed.2 in
  let status := Z.land (data0 ev) 0xF0 in
  let channel := Z.land (data0 ev) 0x0F in
  if (status =? 0x90)%Z && (0 <? data2 ev)%Z then
    let name := get_note_name (data1 ev) in
    {| core := note_on (core v) (data1 ev) (data2 ev);
       display :=
         debug_log (set_note_name (display v) name) timestamp
           ("Note ON: " ++ name ++ " (#" ++ str_int (data1 ev) ++ ") Vel:"
              ++ str_int (data2 ev) ++ " Ch:" ++ str_int channel)%string |}
  else if (status =? 0x80)%Z || ((status =? 0x90)%Z && (data2 ev =? 0)%Z) then
    {| core := note_off (core v) (data1 ev);
       display :=
         debug_log (display v) timestamp
           ("Note OFF: " ++ get_note_name (data1 ev) ++ " (#" ++ str_int (data1 ev)
              ++ ") Ch:" ++ str_int channel)%string |}
  else if (status =? 0xB0)%Z then
    {| core := control_change (core v) (data1 ev) (data2 ev);
       display :=
         debug_log (display v) timestamp
           ("CC: " ++ cc_name cc_names_debug (data1 ev) ++ " (" ++ str_int (data1 ev)
              ++ ") = " ++ str_int (data2 ev) ++ " Ch:" ++ str_int channel)%string |}
  else
    {| core := core v;
       display :=
         debug_log (display v) timestamp
           ("MIDI: Status:" ++ format_02X status ++ " Data:" ++ str_int (data1 ev)
              ++ "," ++ str_int (data2 ev) ++ " Ch:" ++ str_int channel)%string |}.

(** One call of [process_midi] on the whole visualizer. *)
Definition process_midi_logged (v : Visualizer) (events : list (string * midi_event))
    : option Visualizer :=
  let v' := foldl dispatch v events in
  match update_history (core v') with
  | Some st => Some {| core := st; display := display v' |}
  | None => None
  end.

(** ** [run]: the event loop *)

(** The [MOUSEBUTTONDOWN] branch for the left button. *)
Definition left_click (v : Visualizer) (timestamp : string) (mouse_pos : Z * Z)
    : Visualizer :=
  if collidepoint cc_button_rect mouse_pos then
    {| core := core v;
       display := set_cc_dropdown_open (display v) (negb (cc_dropdown_open (display v))) |}
  else if cc_dropdown_open (display v) then
    match clicked_option mouse_pos dropdown_top common_ccs with
    | Some cc_num =>
        {| core := set_selected_cc (core v) cc_num;
           display :=
             debug_log (set_cc_dropdown_open (display v) false) timestamp
               ("Selected CC" ++ str_int cc_num)%string |}
    | None => {| core := core v; display := set_cc_dropdown_open (display v) false |}
    end
  else v.

(** The [KEYDOWN] branch. *)
Definition key_down (s : Visualizer * bool) (timestamp : string) (key : Z)
    : Visualizer * bool :=
  let v := s.1 in
  if (key =? K_ESCAPE)%Z then (v, false)
  else if (key =? K_d)%Z then
    ({| core := core v; display := toggle_debug (display v) timestamp |}, s.2)
  else if (key =? K_c)%Z then
    ({| core := clear (core v);
        display := debug_log (display v) timestamp "History cleared" |}, s.2)
  else if (K_1 <=? key)%Z && (key <=? K_9)%Z then
    ({| core := set_selected_cc (core v) (key - K_0);
        display :=
          debug_log (display v) timestamp
            ("Selected CC" ++ str_int (key - K_0) ++ " for velocity")%string |}, s.2)
  else s.

(** The body of [for event in pygame.event.get()]; the second component is
    the local variable [running]. *)
Definition handle_event (s : Visualizer * bool) (timed : string * pygame_event)
    : Visualizer * bool :=
  match timed.2 with
  | QUIT => (s.1, false)
  | KEYDOWN key => key_down s timed.1 key
  | MOUSEBUTTONDOWN button mouse_pos =>
      if (button =? 1)%Z then (left_click s.1 timed.1 mouse_pos, s.2) else s
  | OTHER_EVENT => s
  end.

(** What one pass of the [while running] loop takes from its environment:
    the clock, the pending pygame events, and the MIDI events
    [midi_input.read] returns if this pass polls (none when [poll()] is
    false). *)
Record Frame := {
  current_time : Z;
  pygame_events : list (string * pygame_event);
  midi_events : list (string * midi_event)
}.

(** The loop state: the visualizer and the locals [running] and
    [last_midi_check]. *)
Record Loop := { visualizer : Visualizer; running : bool; last_midi_check : Z }.

Definition init_loop : Loop :=
  {| visualizer := init_visualizer; running := true; last_midi_check := 0 |}.

(** The test before [self.process_midi()]. *)
Definition polls (l : Loop) (f : Frame) : bool :=
  (MIDI_POLL_RATE <? current_time f - last_midi_check l)%Z.

(** One pass of the loop body; [None] when [process_midi] raises. *)
Definition frame_step (l : Loop) (f : Frame) : option Loop :=
  let s := foldl handle_event (visualizer l, running l) (pygame_events f) in
  if polls l f then
    match process_midi_logged s.1 (midi_events f) with
    | Some v => Some {| visualizer := v; running := s.2; last_midi_check := current_time f |}
    | None => None
    end
  else Some {| visualizer := s.1; running := s.2; last_midi_check := last_midi_check l |}.

(** [run], on the frames the environment supplies. *)
Fixpoint run (l : Loop) (frames : list Frame) : option Loop :=
  match frames with
  | [] => Some l
  | f :: rest =>
      if running l then
        match frame_step l f with
        | Some l' => run l' rest
        | None => None
        end
      else Some l
  end.

(** ** [update_graph]: the plotted segments *)

(** One call of [self.ax.plot(x_vals, y_vals, color=normalized_color, ...)]. *)
Record segment := {
  x_vals : nat * nat;
  y_vals : num * num;
  normalized_color : num * num * num
}.

(** [tuple(c/255 for c in color)] *)
Definition normalize (c : color) : num * num * num :=
  (div (of_Z c.1.1) (of_Z 255), div (of_Z c.1.2) (of_Z 255), div (of_Z c.2) (of_Z 255)).

(** [self.note_colors.get(note, NOTE_COLORS[0])] *)
Definition color_of (note_colors : gmap Z color) (note : Z) : color :=
  default (palette 0) (note_colors !! note).

(** Body of the loop of lines 278-293: the segment plotted for a pair of
    neighbouring indices, if any. *)
Definition plot_segment (velocity_final : list num) (note_history_smoothed : list Z)
    (note_colors : gmap Z color) (p : nat * nat) : option segment :=
  let start_idx := p.1 in
  let end_idx := p.2 in
  let start_note := item_note note_history_smoothed start_idx in
  if (0 <=? start_note)%Z then
    Some {| x_vals := (start_idx, end_idx);
            y_vals := (item velocity_final start_idx, item velocity_final end_idx);
            normalized_color := normalize (color_of note_colors start_note) |}
  else None.

(** Lines 274-293: the segments plotted, in order. *)
Definition plot_segments (velocity_final : list num) (note_history_smoothed : list Z)
    (note_colors : gmap Z color) : list segment :=
  let smoothed_non_zero_indices := np_where_pos 0 velocity_final in
  if (1 <? length smoothed_non_zero_indices)%nat then
    omap (plot_segment velocity_final note_history_smoothed note_colors)
         (adjacent_pairs smoothed_non_zero_indices)
  else [].

(** The segments [update_graph] plots in a state. *)
Definition plotted (st : State (num := num)) : list segment :=
  let sm := update_graph st in
  plot_segments sm.1 sm.2 (note_colors st).

(** Lines 296-297: the height of the dashed mean line, if it is drawn. *)
Definition mean_line (st : State (num := num)) : option num :=
  if is_note_active st && gt0 (mean (stats st)) then Some (mean (stats st)) else None.

(** ** [render_notes_legend] *)

(** [np.unique]: the sorted distinct elements. *)
Definition np_unique (l : list Z) : list Z := merge_sort Z.le (remove_dups l).

(** One legend entry: where its coloured square is drawn, its colour and its
    text. *)
Record legend_entry := {
  legend_x : Z;
  legend_y : Z;
  legend_color : color;
  legend_text : string
}.

(** The loop [for i, note in enumerate(unique_notes)], from index [i] on. *)
Fixpoint legend_loop (note_colors : gmap Z color) (i : nat) (x y : Z)
    (unique_notes : list Z) : list legend_entry :=
  match unique_notes with
  | [] => []
  | note :: rest =>
      if (WINDOW_HEIGHT - 30 <? y)%Z then []
      else
        {| legend_x := x; legend_y := y;
           legend_color := color_of note_colors note;
           legend_text := (" " ++ get_note_name note)%string |}
        :: (if (i mod 8 =? 7)%nat
            then legend_loop note_colors (S i) (x + 80)%Z 80%Z rest
            else legend_loop note_colors (S i) x (y + 18)%Z rest)
  end.

(** The notes of the legend: [np.unique(note_history[note_history >= 0])]. *)
Definition legend_notes (st : State (num := num)) : list Z :=
  np_unique (List.filter (Z.leb 0) (note_history st)).

(** The entries [render_notes_legend] draws. *)
Definition render_notes_legend (st : State (num := num)) : list legend_entry :=
  legend_loop (note_colors st) 0 (WINDOW_WIDTH - 200)%Z (50 + 30)%Z (legend_notes st).

(** ** [render_debug_panel] *)

(** One line of text of the panel: its height on the screen, its colour and
    the text. *)
Record panel_line := { line_y : Z; line_color : color; line_text : string }.

(** The loop over the controllers, left through [break] when the next line
    would overflow; returns the lines drawn and [y_offset] after the loop. *)
Fixpoint cc_lines (cc_values : gmap Z Z) (selected_cc : Z) (y_offset : Z)
    (cc_nums : list Z) : list panel_line * Z :=
  match cc_nums with
  | [] => ([], y_offset)
  | cc_num :: rest =>
      if (WINDOW_HEIGHT - 200 <? y_offset)%Z then ([], y_offset)
      else
        let drawn := cc_lines cc_values selected_cc (y_offset + 20)%Z rest in
        ({| line_y := y_offset;
            line_color := if (cc_num =? selected_cc)%Z then DEBUG_COLOR else TEXT_COLOR;
            line_text := ("CC" ++ str_int cc_num ++ ": "
                            ++ str_int (default 0%Z (cc_values !! cc_num)))%string |}
         :: drawn.1, drawn.2)
  end.

(** The loop over the messages. *)
Fixpoint message_lines (y_offset : Z) (messages : list string) : list panel_line :=
  match messages with
  | [] => []
  | message :: rest =>
      if (WINDOW_HEIGHT - 30 <? y_offset)%Z then []
      else {| line_y := y_offset; line_color := TEXT_COLOR; line_text := message |}
           :: message_lines (y_offset + 18)%Z rest
  end.

(** [l[-10:]] *)
Definition last_ten {A} (l : list A) : list A := drop (length l - 10) l.

(** [sorted(self.cc_values.keys())] *)
Definition sorted_keys (cc_values : gmap Z Z) : list Z :=
  merge_sort Z.le (elements (dom cc_values)).

(** The controller lines and the message lines [render_debug_panel] draws. *)
Definition render_debug_panel (v : Visualizer) : list panel_line * list panel_line :=
  let debug_y := 50%Z in
  let ccs := cc_lines (cc_values (core v)) (selected_cc (core v))
               (debug_y + 70 + 25)%Z (sorted_keys (cc_values (core v))) in
  (ccs.1, message_lines (ccs.2 + 20 + 25)%Z (last_ten (debug_messages (display v)))).

(** ** [render_cc_button] *)

(** The two lines of text on the button. *)
Definition button_text (st : State (num := num)) : string * string :=
  (("Breath Control: " ++ cc_name cc_names_button (selected_cc st))%string,
   ("Value: " ++ str_int (default 0%Z (cc_values st !! selected_cc st)))%string).

End Application.

(** * Part 2: vocabulary of the properties *)

(** The one law of a scalar instance the proofs rely on: a data byte is
    "[> 0]" as a scalar exactly when it is as an integer. *)
Class ByteOrder (num : Type) {SN : Scalar num} : Prop :=
  ltb_zero_byte : forall b, (0 <= b <= 255)%Z -> ltb (of_Z 0) (of_Z b) = (0 <? b)%Z.

(** A MIDI data byte. *)
Definition midi_data (b : Z) : Prop := (0 <= b <= 127)%Z.

(** The data bytes of a channel message are 7-bit. *)
Definition valid_event (ev : midi_event) : Prop :=
  midi_data (data1 ev) /\ midi_data (data2 ev).

(** The test of the note-on branch of [process_midi]. *)
Definition is_note_on (ev : midi_event) : bool :=
  (Z.land (data0 ev) 0xF0 =? 0x90)%Z && (0 <? data2 ev)%Z.

(** The distinct notes of the note-on events of [evs], in the order in which
    they are first seen, after the notes [seen] already seen. *)
Fixpoint first_seen (seen : list Z) (evs : list midi_event) : list Z :=
  match evs with
  | [] => seen
  | ev :: rest =>
      if is_note_on ev && negb (bool_decide (data1 ev ∈ seen))
      then first_seen (seen ++ [data1 ev]) rest
      else first_seen seen rest
  end.

(** The gap between a pair of indices, and the test of line 243. *)
Definition gap_size_of (p : nat * nat) : nat := p.2 - p.1 - 1.

Definition bridgeable (p : nat * nat) : bool :=
  (gap_size_of p <=? gap_threshold)%nat && (0 <? gap_size_of p)%nat.

Section Vocabulary.

Context {num : Type} {SN : Scalar num}.

(** A history sample: a data byte stored into the float array. *)
Definition sample (v : num) : Prop := exists b, midi_data b /\ v = of_Z b.

(** Well-formed states: what [__init__] establishes and every tick keeps. *)
Record wf (st : State (num := num)) : Prop := {
  wf_vlen : length (velocity_history st) = HISTORY_LENGTH;
  wf_nlen : length (note_history st) = HISTORY_LENGTH;
  wf_active : is_note_active st = true -> is_Some (current_note st);
  wf_velocity : midi_data (current_velocity st);
  wf_samples : Forall sample (velocity_history st)
}.


(** The colour table after the notes [seen] were first seen in that order. *)
Record coloured (seen : list Z) (st : State (num := num)) : Prop := {
  coloured_nodup : NoDup seen;
  coloured_index : color_index st = length seen;
  coloured_seen : forall k n, seen !! k = Some n ->
      note_colors st !! n = Some (palette (k mod length NOTE_COLORS));
  coloured_unseen : forall n, n ∉ seen -> note_colors st !! n = None
}.

(** [a < b] are consecutive anchors with velocities [x] and [y]: both samples
    are non-zero and every sample strictly between them is zero. *)
Definition consecutive_anchors (vh : list num) (a b : nat) (x y : num) : Prop :=
  (a < b)%nat /\ vh !! a = Some x /\ vh !! b = Some y /\ x <> zero /\ y <> zero /\
  forall k, (a < k < b)%nat -> vh !! k = Some zero.

(** The consistency score in the spec's words: [max(0, 100 - 5 * std_dev)]
    when [mean > 0], else 0. *)
Definition spec_consistency_score (std_dev mean : num) : num :=
  if gt0 mean then py_max zero (sub (of_Z 100) (mul (of_Z 5) std_dev)) else zero.

End Vocabulary.

(** ** Exact arithmetic *)


(** ** The specification of binary64 *)

Definition emin64 : Z := SpecFloat.emin prec emax.

(** A value [> 0] in the specification. *)
Definition SFpos (x : spec_float) : bool := SFltb (S754_zero false) x.

(** 100 in the specification: 7036874417766400 * 2^-46. *)
Definition SF100 : spec_float := S754_finite false 7036874417766400 (-46).

(** The integers [n], ..., 0. *)
Fixpoint bytes_upto (n : nat) : list Z :=
  match n with
  | O => [0%Z]
  | S k => Z.of_nat n :: bytes_upto k
  end.

(** The non-zero MIDI velocities, as binary64 values. *)
Definition midi_velocities : list float := map of_Z (map Z.of_nat (seq 1 127)).

(** For one position [j] of a gap of [G]: no pair of velocities in [vels] has
    an interpolated value below its floor, and every interpolated value is
    [> 0]. *)
Definition floor_inactive_at (vels : list float) (G j : nat) : bool :=
  let alpha := div (of_nat j) (of_nat (G + 1)) in
  let beta := sub (of_Z 1) alpha in
  let c := seven_tenths in
  forallb (fun sv =>
    forallb (fun ev =>
      negb (ltb (add (mul sv beta) (mul ev alpha)) (mul (py_min sv ev) c))
      && ltb zero (add (mul sv beta) (mul ev alpha)))
      vels) vels.

Definition strictly_increasing (l : list float) : bool :=
  forallb (fun p => PrimFloat.ltb p.1 p.2) (zip l (tail l)).

(** ** Concrete runs in binary64 *)

Definition msg_note_on (note velocity : Z) : midi_event :=
  {| data0 := 0x90; data1 := note; data2 := velocity |}.
Definition msg_note_off (note : Z) : midi_event :=
  {| data0 := 0x80; data1 := note; data2 := 0 |}.
Definition msg_cc (cc_num cc_value : Z) : midi_event :=
  {| data0 := 0xB0; data1 := cc_num; data2 := cc_value |}.

(** The state the program is in after the given ticks, from start-up. *)
Definition after_ticks (ticks : list (list midi_event)) : State (num := float) :=
  default init (run_ticks init ticks).

(** A note held for one tick: note-on 60 with velocity 64. *)
Definition held_note : State (num := float) := after_ticks [[msg_note_on 60 64]].

(** Three samples 60, 70, 80 of one held note (note 60). *)
Definition three_samples_ticks : list (list midi_event) :=
  [[msg_note_on 60 60]; [msg_cc 7 70]; [msg_cc 7 80]].
Definition three_samples : State (num := float) := after_ticks three_samples_ticks.



(** Thirteen distinct notes, 60 to 72, one per tick, then note 60 again. *)
Definition thirteen_notes : list (list midi_event) :=
  map (fun n => [msg_note_on n 64]) [60; 61; 62; 63; 64; 65; 66; 67; 68; 69; 70; 71; 72; 60]%Z.

(** Velocity 80, five silent ticks, velocity 100: the history ends in
    80, 0, 0, 0, 0, 0, 100 (indices 293 to 299), all of note 60. *)
Definition gap_of_five : State (num := float) :=
  after_ticks ([[msg_note_on 60 80]; [msg_cc 7 0]] ++ replicate 4 [] ++ [[msg_cc 7 100]]).

(** Velocity 80, 25 silent ticks, velocity 100 (indices 273 to 299). *)
Definition gap_of_25 : State (num := float) :=
  after_ticks ([[msg_note_on 60 80]; [msg_cc 7 0]] ++ replicate 24 [] ++ [[msg_cc 7 100]]).

(** Velocity 3, nine silent ticks, velocity 3 (indices 289 to 299). *)
Definition gap_of_nine : State (num := float) :=
  after_ticks ([[msg_note_on 60 3]; [msg_cc 7 0]] ++ replicate 8 [] ++ [[msg_cc 7 3]]).

(** The bridged array [velocity_smoothed] and the final array
    [velocity_final] of a state. *)
Definition bridged_of (st : State (num := float)) : list float :=
  (bridge_gaps (velocity_history st) (note_history st)).1.
Definition final_of (st : State (num := float)) : list float := (update_graph st).1.

(** * Part 2, continued: vocabulary for the display and the event loop *)

(** A line of the debug log. *)
Definition log_line (timed : string * string) : string :=
  ("[" ++ timed.1 ++ "] " ++ timed.2)%string.

(** The controllers the keys 1-9 and the dropdown can select. *)
Definition selectable_cc (n : Z) : Prop := (1 <= n <= 9)%Z \/ n = 11%Z \/ n = 74%Z.

(** The text [note_name] holds for a current note. *)
Definition shown_note (current_note : option Z) : string :=
  match current_note with
  | None => "No note"%string
  | Some n => get_note_name n
  end.

Section ApplicationVocabulary.

Context {num : Type} {SN : Scalar num}.

(** The MIDI events of a frame carry 7-bit data bytes. *)
Definition valid_frame (f : Frame) : Prop :=
  Forall (fun timed : string * midi_event => valid_event timed.2) (midi_events f).

(** A slot of the two histories: the sentinel (0, -1), or a pushed sample,
    whose note is a MIDI note. *)
Definition slot (x : num) (n : Z) : Prop :=
  (x = zero /\ n = (-1)%Z) \/ midi_data n.

(** What holds of the visualizer between any two passes of the loop. *)
Record consistent (v : Visualizer (num := num)) : Prop := {
  consistent_wf : wf (core v);
  consistent_note : forall n, current_note (core v) = Some n -> midi_data n;
  consistent_slots : Forall2 slot (velocity_history (core v)) (note_history (core v));
  consistent_selected : selectable_cc (selected_cc (core v));
  consistent_index : color_index (core v) = size (note_colors (core v));
  consistent_name : note_name (display v) = shown_note (current_note (core v));
  consistent_log : (length (debug_messages (display v)) <= MAX_DEBUG_MESSAGES)%nat;
  consistent_quiet : debug_mode (display v) = false -> debug_messages (display v) = []
}.

End ApplicationVocabulary.

(** The test of the control-change branch of [process_midi]. *)
Definition is_control_change (ev : midi_event) : bool :=
  (Z.land (data0 ev) 0xF0 =? 0xB0)%Z.

(** The value an event gives controller [cc_num], if it is a control change
    of that controller. *)
Definition value_for (cc_num : Z) (ev : midi_event) : option Z :=
  if is_control_change ev && (data1 ev =? cc_num)%Z then Some (data2 ev) else None.

(** The velocity an event sets when [selected] is the selected controller:
    the velocity of a note-on, the value of a control change of the selected
    controller. *)
Definition velocity_from (selected : Z) (ev : midi_event) : option Z :=
  if is_note_on ev then Some (data2 ev) else value_for selected ev.

(** Where the legend draws its [k]-th entry: columns of eight, 80 pixels
    apart, rows 18 pixels apart. *)
Definition legend_entry_at (note_colors : gmap Z color) (k : nat) (note : Z) : legend_entry :=
  {| legend_x := WINDOW_WIDTH - 200 + 80 * Z.of_nat (k / 8);
     legend_y := 80 + 18 * Z.of_nat (k mod 8);
     legend_color := color_of note_colors note;
     legend_text := (" " ++ get_note_name note)%string |}.

(** How many lines [step] apart fit from [y] down to [limit]. *)
Definition lines_that_fit (limit y step : Z) : nat :=
  if (limit <? y)%Z then 0%nat else Z.to_nat ((limit - y) / step + 1).

(** The line of the debug panel for a controller. *)
Definition cc_line (cc_values : gmap Z Z) (selected_cc : Z) (y : Z) (k : nat) (cc_num : Z)
    : panel_line :=
  {| line_y := y + 20 * Z.of_nat k;
     line_color := if (cc_num =? selected_cc)%Z then DEBUG_COLOR else TEXT_COLOR;
     line_text := ("CC" ++ str_int cc_num ++ ": "
                     ++ str_int (default 0%Z (cc_values !! cc_num)))%string |}.

(** The line of the debug panel for a message. *)
Definition message_line (y : Z) (k : nat) (message : string) : panel_line :=
  {| line_y := y + 18 * Z.of_nat k; line_color := TEXT_COLOR; line_text := message |}.

Section CoreVocabulary.

Context {num : Type} {SN : Scalar num}.

(** The samples a run of ticks pushes, in order: for each tick on which a
    note is active once its events are processed, the pair (current velocity,
    current note) of that moment. *)
Fixpoint pushed_samples (st : State (num := num)) (ticks : list (list midi_event))
    : list (Z * Z) :=
  match ticks with
  | [] => []
  | events :: rest =>
      let mid := foldl process_event st events in
      match process_midi st events with
      | Some st' =>
          (if is_note_active mid then
             match current_note mid with
             | Some note => [(current_velocity mid, note)]
             | None => []
             end
           else []) ++ pushed_samples st' rest
      | None => []
      end
  end.

(** [a < b] are neighbouring points of a series: both are [> 0] and no
    sample between them is. *)
Definition neighbours (v : list num) (a b : nat) : Prop :=
  (a < b < length v)%nat /\ gt0 (item v a) = true /\ gt0 (item v b) = true /\
  forall k, (a < k < b)%nat -> gt0 (item v k) = false.

End CoreVocabulary.

(** The colour table has an entry for every note the graph can show: the
    current note and every note of the history. *)
Definition colour_complete {num : Type} {SN : Scalar num} (st : State (num := num))
    : Prop :=
  (forall n, current_note st = Some n -> is_Some (note_colors st !! n)) /\
  Forall (fun n => n = (-1)%Z \/ is_Some (note_colors st !! n)) (note_history st).

(** The clock readings [ts] of successive passes, each more than
    [MIDI_POLL_RATE] after the one before, the first after [t0]. *)
Fixpoint well_spaced (t0 : Z) (ts : list Z) : Prop :=
  match ts with
  | [] => True
  | t :: rest => (MIDI_POLL_RATE < t - t0)%Z /\ well_spaced t rest
  end.

(** The MIDI events of the frames, tick by tick. *)
Definition ticks_of (frames : list Frame) : list (list midi_event) :=
  map (fun f => map snd (midi_events f)) frames.

(** No pass of [frames] sees the key C. *)
Definition never_cleared (frames : list Frame) : Prop :=
  Forall (fun f => Forall (fun timed : string * pygame_event => timed.2 <> KEYDOWN K_c)
                          (pygame_events f)) frames.

(** ** The specification of binary64, continued *)

(** A value that is not small: plus infinity, or a positive finite number
    whose exponent is at least [L]. *)
Definition SFlarge (L : Z) (x : spec_float) : bool :=
  match x with
  | S754_infinity false => true
  | S754_finite false _ e => (L <=? e)%Z
  | _ => false
  end.

(** 3 in the specification: 6755399441055744 * 2^-51. *)
Definition SF3 : spec_float := S754_finite false 6755399441055744 (-51).

(** A binary64 value of at least 1/2. *)
Definition large (x : float) : bool := SFlarge (-53) (Prim2SF x).

(** The integers [start], [start + 1], ..., [n] of them, as machine
    integers. *)
Fixpoint ints_from (start : PrimInt63.int) (n : nat) : list PrimInt63.int :=
  match n with
  | O => []
  | S k => start :: ints_from (Uint63.succ start) k
  end.

(** The sum of a list of integers. *)
Definition sum_Z (l : list Z) : Z := fold_right Z.add 0%Z l.

(** The largest sum a history of data bytes can reach. *)
Definition max_sum : Z := Z.of_nat HISTORY_LENGTH * 127.

(** ** A concrete session in binary64 *)

(** Debug mode on, controller 2 selected, a note played with breath on
    controller 2, the history cleared while the note sounds, the note
    released. *)
Definition session : list Frame := [
  {| current_time := 33;
     pygame_events := [("12:00:00", KEYDOWN K_d); ("12:00:00", KEYDOWN (K_0 + 2))]%string;
     midi_events := [("12:00:00", msg_note_on 60 64)]%string |};
  {| current_time := 66;
     pygame_events := [];
     midi_events := [("12:00:01", msg_cc 2 70); ("12:00:01", msg_cc 7 90)]%string |};
  {| current_time := 99;
     pygame_events := [("12:00:01", KEYDOWN K_c)]%string;
     midi_events := [("12:00:01", msg_cc 2 80)]%string |};
  {| current_time := 132;
     pygame_events := [("12:00:02", MOUSEBUTTONDOWN 1 (100, 620))]%string%Z;
     midi_events := [("12:00:02", msg_note_off 60)]%string |}
].

Definition after_session : Loop (num := float) := default init_loop (run init_loop session).

(** Ticks as frames 33 ms apart, with no pygame events. *)
Definition frames_of (ticks : list (list midi_event)) : list Frame :=
  imap (fun k events =>
          {| current_time := 33 * (Z.of_nat k + 1);
             pygame_events := [];
             midi_events := map (fun ev => (""%string, ev)) events |}) ticks.

(** Note 60 at velocity 80, the breath at zero for five ticks, then note 62
    at velocity 100: the history ends in 80, 0, 0, 0, 0, 0, 100. *)
Definition legato : list Frame :=
  frames_of ([[msg_note_on 60 80]; [msg_cc 7 0]] ++ replicate 4 []
             ++ [[msg_note_on 62 100]]).
Definition after_legato : Loop (num := float) := default init_loop (run init_loop legato).

(** The same with the breath at zero for 25 ticks. *)
Definition long_pause : list Frame :=
  frames_of ([[msg_note_on 60 80]; [msg_cc 7 0]] ++ replicate 24 []
             ++ [[msg_note_on 62 100]]).
Definition after_long_pause : Loop (num := float) :=
  default init_loop (run init_loop long_pause).

(** ** The statistics on display, in binary64 *)

(** Statistics that were computed from a selection of samples: the minimum
    and the maximum are data bytes [lo <= hi] above zero, and the mean lies
    between them. *)
Definition ordered_stats (s : Stats (num := float)) : Prop :=
  exists lo hi : Z,
    (1 <= lo <= hi)%Z /\ (hi <= 127)%Z /\
    stats_min s = of_Z lo /\ stats_max s = of_Z hi /\
    PrimFloat.leb (of_Z lo) (mean s) = true /\ PrimFloat.leb (mean s) (of_Z hi) = true.

(** The statistics as [__init__] sets them, or computed ones. *)
Definition unset_or_ordered (s : Stats (num := float)) : Prop :=
  s = stats init \/ ordered_stats s.

(** * Part 3: lemmas and theorems *)

(** ** The scalar instances *)

Lemma bytes_upto_complete (n : nat) (b : Z) :
  (0 <= b <= Z.of_nat n)%Z -> In b (bytes_upto n).
Proof.
  induction n as [|k IH]; intros Hb.
  - left. simpl in Hb. lia.
  - destruct (Z.eq_dec b (Z.of_nat (S k))) as [->|Hne].
    + now left.
    + right. apply IH. lia.
Qed.

#[export] Instance binary64_bytes : ByteOrder float.
Proof.
  intros b Hb.
  assert (Hall : forallb (fun b => Bool.eqb (ltb (num := float) (of_Z 0) (of_Z b)) (0 <? b)%Z)
                   (bytes_upto 255) = true) by (vm_compute; reflexivity).
  rewrite forallb_forall in Hall.
  apply Bool.eqb_prop, Hall, bytes_upto_complete. simpl. lia.
Qed.

Lemma exact_ltb_lt (x y : R) : ExactReal.ltb x y = true <-> (x < y)%R.
Proof.
  unfold ExactReal.ltb. destruct (Rlt_dec x y); split; intros; auto; discriminate.
Qed.

Lemma exact_ltb_ge (x y : R) : ExactReal.ltb x y = false <-> (y <= x)%R.
Proof.
  unfold ExactReal.ltb.
  destruct (Rlt_dec x y); split; intros; auto; try discriminate; lra.
Qed.

#[export] Instance exact_real_bytes : ByteOrder R.
Proof.
  intros b _. simpl. destruct (Z.ltb_spec 0 b) as [Hb|Hb].
  - apply exact_ltb_lt. now apply IZR_lt.
  - apply exact_ltb_ge. now apply IZR_le.
Qed.

(** The quotient 7/10 is the literal [0.7] of the program. *)
Lemma seven_tenths_literal : seven_tenths (num := float) = 0x1.6666666666666p-1%float.
Proof. vm_compute. reflexivity. Qed.

(** ** Well-formed states *)

Section Invariant.

Context {num : Type} {SN : Scalar num} {B : ByteOrder num}.

Lemma gt0_zero : gt0 zero = false.
Proof. unfold gt0, zero. rewrite ltb_zero_byte; [reflexivity | lia]. Qed.

Lemma gt0_byte (b : Z) : midi_data b -> gt0 (of_Z b) = (0 <? b)%Z.
Proof. intros Hb. unfold gt0, zero, midi_data in *. apply ltb_zero_byte. lia. Qed.

Lemma sample_zero : sample zero.
Proof. exists 0%Z. split; [unfold midi_data; lia | reflexivity]. Qed.

(** On a sample, "non-zero" and "> 0" are the same test. *)
Lemma sample_gt0_iff (v : num) : sample v -> (gt0 v = true <-> v <> zero).
Proof.
  intros (b & Hb & ->). rewrite gt0_byte by assumption. split.
  - intros Hpos Hz. pose proof gt0_zero as Hgz. rewrite <- Hz in Hgz.
    rewrite gt0_byte in Hgz by assumption. congruence.
  - intros Hnz. apply Z.ltb_lt. unfold midi_data in Hb.
    destruct (Z.eq_dec b 0%Z) as [->|Hne]; [now elim Hnz | lia].
Qed.

Lemma sample_not_gt0 (v : num) : sample v -> gt0 v = false -> v = zero.
Proof.
  intros (b & Hb & ->) Hg. rewrite gt0_byte in Hg by assumption.
  apply Z.ltb_ge in Hg. unfold midi_data in Hb.
  replace b with 0%Z by lia. reflexivity.
Qed.

(** *** The push *)

Lemma length_np_roll_left {A} (l : list A) : length (np_roll_left l) = length l.
Proof. destruct l as [|x t]; simpl; [reflexivity|]. rewrite length_app. simpl. lia. Qed.

Lemma length_set_last {A} (l : list A) (v : A) : length (set_last l v) = length l.
Proof. unfold set_last. apply length_insert. Qed.

(** Rolling left and overwriting the last slot drops the oldest sample and
    appends the new one. *)
Lemma push_shape {A} (l : list A) (v : A) :
  l <> [] -> set_last (np_roll_left l) v = drop 1 l ++ [v].
Proof.
  destruct l as [|x t]; [congruence | intros _].
  unfold set_last. simpl. rewrite drop_0, length_app. simpl.
  replace (pred (length t + 1)) with (length t + 0) by lia.
  rewrite insert_app_r. reflexivity.
Qed.

Lemma history_nonempty {A} (l : list A) : length l = HISTORY_LENGTH -> l <> [].
Proof. intros Hl ->. discriminate. Qed.

(** *** Event dispatch keeps the histories and the statistics *)

Lemma process_event_histories (st : State (num := num)) (ev : midi_event) :
  velocity_history (process_event st ev) = velocity_history st /\
  note_history (process_event st ev) = note_history st /\
  stats (process_event st ev) = stats st.
Proof.
  unfold process_event.
  repeat match goal with |- context [if ?b then _ else _] => destruct b end;
    simpl; auto.
Qed.

Lemma process_events_histories (evs : list midi_event) (st : State (num := num)) :
  velocity_history (foldl process_event st evs) = velocity_history st /\
  note_history (foldl process_event st evs) = note_history st /\
  stats (foldl process_event st evs) = stats st.
Proof.
  revert st. induction evs as [|ev evs IH]; intros st; simpl; [auto|].
  destruct (IH (process_event st ev)) as (-> & -> & ->).
  apply process_event_histories.
Qed.

Lemma note_on_wf (st : State (num := num)) (note velocity : Z) :
  midi_data velocity -> wf st -> wf (note_on st note velocity).
Proof.
  intros Hvel [Hv Hn Ha Hc Hs]. constructor; simpl; auto.
Qed.

Lemma note_off_wf (st : State (num := num)) (note : Z) : wf st -> wf (note_off st note).
Proof.
  intros [Hv Hn Ha Hc Hs]. constructor; simpl; auto.
  case_decide; [discriminate | assumption].
Qed.

Lemma control_change_wf (st : State (num := num)) (cc_num cc_value : Z) :
  midi_data cc_value -> wf st -> wf (control_change st cc_num cc_value).
Proof.
  intros Hval [Hv Hn Ha Hc Hs]. constructor; simpl; auto.
  destruct (_ =? _)%Z; assumption.
Qed.

Lemma process_event_wf (st : State (num := num)) (ev : midi_event) :
  valid_event ev -> wf st -> wf (process_event st ev).
Proof.
  intros [Hd1 Hd2] Hwf. unfold process_event.
  destruct (_ && _); [now apply note_on_wf|].
  destruct (_ || _); [now apply note_off_wf|].
  destruct (_ =? _)%Z; [now apply control_change_wf | assumption].
Qed.

Lemma process_events_wf (evs : list midi_event) (st : State (num := num)) :
  Forall valid_event evs -> wf st -> wf (foldl process_event st evs).
Proof.
  revert st. induction evs as [|ev evs IH]; intros st Hev Hwf; simpl; [assumption|].
  inversion Hev; subst. apply IH; [assumption|]. now apply process_event_wf.
Qed.

Lemma init_wf : wf init.
Proof.
  constructor.
  - exact (length_replicate _ _).
  - exact (length_replicate _ _).
  - discriminate.
  - unfold midi_data. simpl. lia.
  - exact (Forall_replicate _ _ _ sample_zero).
Qed.

End Invariant.

(** ** The sampling tick *)

Section Tick.

Context {num : Type} {SN : Scalar num} {B : ByteOrder num}.

Lemma update_history_inactive (st : State (num := num)) :
  is_note_active st = false -> update_history st = Some st.
Proof. intros Hi. unfold update_history. now rewrite Hi. Qed.

Lemma update_history_active (st : State (num := num)) :
  wf st -> is_note_active st = true ->
  exists note, current_note st = Some note /\ update_history st = Some (push_sample st note).
Proof.
  intros Hwf Ha. destruct (wf_active st Hwf Ha) as [note Hnote].
  exists note. split; [assumption|]. unfold update_history. now rewrite Ha, Hnote.
Qed.

Lemma push_sample_histories (st : State (num := num)) (note : Z) :
  wf st ->
  velocity_history (push_sample st note)
    = drop 1 (velocity_history st) ++ [of_Z (current_velocity st)] /\
  note_history (push_sample st note) = drop 1 (note_history st) ++ [note].
Proof.
  intros Hwf. simpl. split; apply push_shape, history_nonempty; apply Hwf.
Qed.

Lemma push_sample_wf (st : State (num := num)) (note : Z) : wf st -> wf (push_sample st note).
Proof.
  intros Hwf. pose proof Hwf as [Hv Hn Ha Hc Hs].
  destruct (push_sample_histories st note Hwf) as [Hvh Hnh].
  constructor.
  - simpl. now rewrite length_set_last, length_np_roll_left.
  - simpl. now rewrite length_set_last, length_np_roll_left.
  - exact Ha.
  - exact Hc.
  - rewrite Hvh. apply Forall_app. split.
    + now apply Forall_drop.
    + constructor; [|constructor]. exists (current_velocity st). now split.
Qed.

(** On well-formed input a tick never raises, and leaves a well-formed state. *)
Lemma process_midi_total (st : State (num := num)) (events : list midi_event) :
  wf st -> Forall valid_event events ->
  exists st', process_midi st events = Some st' /\ wf st'.
Proof.
  intros Hwf Hev. unfold process_midi.
  pose proof (process_events_wf events st Hev Hwf) as Hmid.
  destruct (is_note_active (foldl process_event st events)) eqn:Ha.
  - destruct (update_history_active _ Hmid Ha) as (note & _ & ->).
    eexists; split; [reflexivity | now apply push_sample_wf].
  - rewrite update_history_inactive by assumption. eauto.
Qed.

Lemma clear_wf (st : State (num := num)) : wf st -> wf (clear st).
Proof.
  intros [Hv Hn Ha Hc Hs]. constructor; try assumption.
  - exact (length_replicate _ _).
  - exact (length_replicate _ _).
  - exact (Forall_replicate _ _ _ sample_zero).
Qed.

End Tick.

(** The two outcomes of a tick on the histories. *)
Lemma process_midi_histories {num : Type} {SN : Scalar num}
    (st : State (num := num)) (events : list midi_event) :
  wf st -> Forall valid_event events ->
  let mid := foldl process_event st events in
  exists st',
    process_midi st events = Some st' /\
    (is_note_active mid = true ->
       exists note, current_note mid = Some note /\
         velocity_history st'
           = drop 1 (velocity_history st) ++ [of_Z (current_velocity mid)] /\
         note_history st' = drop 1 (note_history st) ++ [note]) /\
    (is_note_active mid = false ->
       velocity_history st' = velocity_history st /\
       note_history st' = note_history st).
Proof.
  intros Hwf Hev mid.
  pose proof (process_events_wf events st Hev Hwf) as Hmid. fold mid in Hmid.
  destruct (process_events_histories events st) as (Hvh & Hnh & _).
  fold mid in Hvh, Hnh. unfold process_midi. fold mid.
  destruct (is_note_active mid) eqn:Ha.
  - destruct (update_history_active _ Hmid Ha) as (note & Hnote & ->).
    eexists; split; [reflexivity|]. split; [|discriminate].
    intros _. exists note. split; [assumption|].
    destruct (push_sample_histories mid note Hmid) as [-> ->].
    now rewrite Hvh, Hnh.
  - rewrite update_history_inactive by assumption.
    eexists; split; [reflexivity|]. split; [discriminate|]. auto.
Qed.

Lemma run_ticks_total {num : Type} {SN : Scalar num}
    (ticks : list (list midi_event)) (st : State (num := num)) :
  wf st -> Forall (Forall valid_event) ticks ->
  exists st', run_ticks st ticks = Some st' /\ wf st'.
Proof.
  revert st. induction ticks as [|events rest IH]; intros st Hwf Hev; simpl.
  - eauto.
  - inversion Hev; subst.
    destruct (process_midi_total st events Hwf) as (st1 & -> & Hwf1); [assumption|].
    now apply IH.
Qed.

Lemma after_ticks_wf (ticks : list (list midi_event)) :
  Forall (Forall valid_event) ticks -> wf (after_ticks ticks).
Proof.
  intros Hev. unfold after_ticks.
  destruct (run_ticks_total (num := float) ticks init init_wf Hev) as (st' & Heq & Hwf).
  now rewrite Heq.
Qed.

Lemma float_distinct (a b : float) :
  PrimFloat.eqb a a = true -> PrimFloat.eqb a b = false -> a <> b.
Proof. intros Ha Hab ->. congruence. Qed.

Ltac valid_events :=
  repeat first [ constructor | unfold midi_data; simpl; lia ].

Lemma held_note_wf : wf held_note.
Proof. apply after_ticks_wf. valid_events. Qed.

(** ** C2: the tick pushes only while a note is active *)

(** C2, as stated, fails: the tick that carries the note-off of the held note
    leaves the history as it was, where a push would have evicted the oldest
    sample and appended (64, 60). *)
Lemma tick_without_push :
  exists st',
    process_midi held_note [msg_note_off 60] = Some st' /\
    wf held_note /\
    current_velocity st' = 64%Z /\ current_note st' = Some 60%Z /\
    velocity_history st' = velocity_history held_note /\
    note_history st' = note_history held_note /\
    velocity_history st' <> drop 1 (velocity_history held_note) ++ [of_Z 64].
Proof.
  exists (default init (process_midi held_note [msg_note_off 60])).
  split; [vm_compute; reflexivity|].
  split; [exact held_note_wf|].
  repeat (split; [vm_compute; reflexivity|]).
  intros Heq. apply (f_equal (fun l => item l 298)) in Heq.
  vm_compute in Heq. revert Heq.
  apply float_distinct; vm_compute; reflexivity.
Qed.

(** C2 (amended): a sampling tick on which a note is active once its events
    are processed advances both histories by exactly one sample, (current
    velocity, current note): the oldest is evicted, the new one appended.  A
    tick on which no note is active leaves both histories unchanged. *)
Theorem tick_pushes_iff_note_active {num : Type} {SN : Scalar num}
    (st : State (num := num)) (events : list midi_event) :
  wf st -> Forall valid_event events ->
  let mid := foldl process_event st events in
  exists st',
    process_midi st events = Some st' /\
    (is_note_active mid = true ->
       exists note, current_note mid = Some note /\
         velocity_history st'
           = drop 1 (velocity_history st) ++ [of_Z (current_velocity mid)] /\
         note_history st' = drop 1 (note_history st) ++ [note]) /\
    (is_note_active mid = false ->
       velocity_history st' = velocity_history st /\
       note_history st' = note_history st).
Proof. exact (process_midi_histories st events). Qed.

Lemma tick_pushes_iff_note_active_witness :
  exists st',
    process_midi held_note [msg_cc 7 70] = Some st' /\
    (is_note_active (foldl process_event held_note [msg_cc 7 70]) = true ->
       exists note,
         current_note (foldl process_event held_note [msg_cc 7 70]) = Some note /\
         velocity_history st'
           = drop 1 (velocity_history held_note)
             ++ [of_Z (current_velocity (foldl process_event held_note [msg_cc 7 70]))] /\
         note_history st' = drop 1 (note_history held_note) ++ [note]) /\
    (is_note_active (foldl process_event held_note [msg_cc 7 70]) = false ->
       velocity_history st' = velocity_history held_note /\
       note_history st' = note_history held_note).
Proof.
  apply (tick_pushes_iff_note_active held_note [msg_cc 7 70]).
  - exact held_note_wf.
  - valid_events.
Defined.

(** ** C6: the history keeps its length; [clear] resets it *)




(** ** C3, C7: the statistics of the current note *)

Section Statistics.

Context {num : Type} {SN : Scalar num} {B : ByteOrder num}.



Lemma compute_stats_nonempty (old : Stats) (sel : list num) :
  sel <> [] ->
  compute_stats old sel =
    {| mean := np_mean sel; std_dev := np_std sel;
       stats_min := np_min sel; stats_max := np_max sel |}.
Proof. destruct sel; [congruence | reflexivity]. Qed.


End Statistics.

(** *** The statistics in exact arithmetic *)









Lemma three_samples_wf : wf three_samples.
Proof. apply after_ticks_wf. valid_events. Qed.









(** ** C9: round-robin colour assignment *)

Lemma palette_distinct (j k : nat) :
  (j < 12)%nat -> (k < 12)%nat -> palette j = palette k -> j = k.
Proof.
  intros Hj Hk.
  do 12 (destruct j as [|j];
         [do 12 (destruct k as [|k]; [first [reflexivity | discriminate]|]); lia|]).
  lia.
Qed.

Section Colours.

Context {num : Type} {SN : Scalar num}.

Lemma coloured_reset (st : State (num := num)) :
  note_colors st = ∅ -> color_index st = 0%nat -> coloured [] st.
Proof.
  intros Hc Hi. constructor.
  - constructor.
  - exact Hi.
  - intros k n Hk. rewrite lookup_nil in Hk. discriminate.
  - intros n _. rewrite Hc. apply lookup_empty.
Qed.

Lemma coloured_none (seen : list Z) (st : State (num := num)) (n : Z) :
  coloured seen st -> (note_colors st !! n = None <-> n ∉ seen).
Proof.
  intros Hc. split.
  - intros Hnone Hin. apply list_elem_of_lookup in Hin as [k Hk].
    rewrite (coloured_seen _ _ Hc k n Hk) in Hnone. discriminate.
  - apply Hc.
Qed.

(** A note-on for a note that has a colour changes neither table nor index. *)
Lemma note_on_seen (st : State (num := num)) (note velocity : Z) :
  is_Some (note_colors st !! note) ->
  note_colors (note_on st note velocity) = note_colors st /\
  color_index (note_on st note velocity) = color_index st.
Proof. intros [c Hc]. simpl. now rewrite Hc. Qed.

Lemma note_on_coloured (seen : list Z) (st : State (num := num)) (note velocity : Z) :
  coloured seen st ->
  coloured (if bool_decide (note ∈ seen) then seen else seen ++ [note])
           (note_on st note velocity).
Proof.
  intros Hc. case_bool_decide as Hin.
  - apply list_elem_of_lookup in Hin as [k Hk].
    pose proof (coloured_seen _ _ Hc k note Hk) as Hcol.
    destruct (note_on_seen st note velocity) as [Hnc Hci]; [eauto|].
    destruct Hc as [Hnd Hidx Hseen Hunseen].
    constructor; rewrite ?Hnc, ?Hci; assumption.
  - pose proof (proj2 (coloured_none _ _ note Hc) Hin) as Hnone.
    destruct Hc as [Hnd Hidx Hseen Hunseen]. constructor; simpl; rewrite ?Hnone.
    + apply NoDup_app. split; [assumption|]. split.
      * intros x Hx Hx'. apply list_elem_of_singleton in Hx'. now subst.
      * apply NoDup_singleton.
    + rewrite length_app. simpl. lia.
    + intros k n Hk. apply lookup_app_Some in Hk as [Hk|[Hlen Hk]].
      * rewrite lookup_insert_ne; [now apply Hseen|].
        intros ->. apply Hin. apply list_elem_of_lookup. eauto.
      * apply list_lookup_singleton_Some in Hk as [Hk ->].
        rewrite lookup_insert_eq. replace k with (color_index st) by lia. reflexivity.
    + intros n Hn. rewrite not_elem_of_app in Hn. destruct Hn as [Hn Hn'].
      rewrite lookup_insert_ne; [now apply Hunseen|].
      intros ->. apply Hn'. now apply list_elem_of_singleton.
Qed.

Lemma process_event_colours (st : State (num := num)) (ev : midi_event) :
  is_note_on ev = false ->
  note_colors (process_event st ev) = note_colors st /\
  color_index (process_event st ev) = color_index st.
Proof.
  unfold process_event, is_note_on. intros ->.
  destruct (_ || _); [now simpl|]. destruct (_ =? _)%Z; now simpl.
Qed.

Lemma process_events_coloured (evs : list midi_event) (seen : list Z) (st : State (num := num)) :
  coloured seen st -> coloured (first_seen seen evs) (foldl process_event st evs).
Proof.
  revert seen st. induction evs as [|ev evs IH]; intros seen st Hc; simpl; [assumption|].
  destruct (is_note_on ev) eqn:Hon; simpl.
  - pose proof (note_on_coloured seen st (data1 ev) (data2 ev) Hc) as Hstep.
    assert (process_event st ev = note_on st (data1 ev) (data2 ev)) as ->.
    { unfold process_event. unfold is_note_on in Hon. now rewrite Hon. }
    destruct (bool_decide (data1 ev ∈ seen)); simpl; now apply IH.
  - apply IH. destruct (process_event_colours st ev Hon) as [Hnc Hci].
    destruct Hc as [Hnd Hidx Hseen Hunseen].
    constructor; rewrite ?Hnc, ?Hci; assumption.
Qed.

(** The history update touches neither the colour table nor the index. *)
Lemma process_midi_colours (st st' : State (num := num)) (events : list midi_event) :
  process_midi st events = Some st' ->
  note_colors st' = note_colors (foldl process_event st events) /\
  color_index st' = color_index (foldl process_event st events).
Proof.
  unfold process_midi, update_history.
  destruct (is_note_active _); [destruct (current_note _); [|discriminate]|];
    intros [= <-]; now simpl.
Qed.

Lemma run_ticks_coloured (ticks : list (list midi_event)) (seen : list Z)
    (st st' : State (num := num)) :
  coloured seen st -> run_ticks st ticks = Some st' ->
  coloured (first_seen seen (concat ticks)) st'.
Proof.
  revert seen st. induction ticks as [|events rest IH]; intros seen st Hc Hrun; simpl in *.
  - now injection Hrun as <-.
  - destruct (process_midi st events) as [st1|] eqn:Hst1; [|discriminate].
    assert (Hfs : forall evs2 evs1 s,
               first_seen s (evs1 ++ evs2) = first_seen (first_seen s evs1) evs2).
    { intros evs2 evs1. induction evs1 as [|e evs1 IH1]; intros s; simpl; [reflexivity|].
      destruct (_ && _); apply IH1. }
    rewrite Hfs. apply (IH _ st1); [|assumption].
    pose proof (process_events_coloured events seen st Hc) as Hmid.
    destruct (process_midi_colours st st1 events Hst1) as [Hnc Hci].
    destruct Hmid as [Hnd Hidx Hseen Hunseen].
    constructor; rewrite ?Hnc, ?Hci; assumption.
Qed.

End Colours.

(** C9: after a reset (empty colour table, index 0) the k-th distinct note
    seen gets palette entry [k mod 12]: the first 12 distinct notes get 12
    pairwise distinct colours, the 13th reuses palette index 0; a note-on for
    a note that already has a colour changes neither its colour nor the
    index, and no other event touches the table. *)
Theorem colours_round_robin {num : Type} {SN : Scalar num}
    (st0 : State (num := num)) (ticks : list (list midi_event)) :
  wf st0 -> Forall (Forall valid_event) ticks ->
  note_colors st0 = ∅ -> color_index st0 = 0%nat ->
  let seen := first_seen [] (concat ticks) in
  exists st,
    run_ticks st0 ticks = Some st /\
    (forall k n, seen !! k = Some n ->
       note_colors st !! n = Some (palette (k mod 12))) /\
    (forall j k nj nk, (j < 12)%nat -> (k < 12)%nat -> j <> k ->
       seen !! j = Some nj -> seen !! k = Some nk ->
       note_colors st !! nj <> note_colors st !! nk) /\
    (forall n, seen !! 12%nat = Some n -> note_colors st !! n = Some (palette 0)) /\
    (forall ev, is_note_on ev = true -> is_Some (note_colors st !! data1 ev) ->
       note_colors (process_event st ev) = note_colors st /\
       color_index (process_event st ev) = color_index st) /\
    (forall ev, is_note_on ev = false ->
       note_colors (process_event st ev) = note_colors st /\
       color_index (process_event st ev) = color_index st).
Proof.
  intros Hwf Hev Hnc Hci seen.
  destruct (run_ticks_total ticks st0 Hwf Hev) as (st & Hrun & _).
  exists st. split; [assumption|].
  pose proof (run_ticks_coloured ticks [] st0 st (coloured_reset st0 Hnc Hci) Hrun) as Hc.
  fold seen in Hc.
  assert (Hk : forall k n, seen !! k = Some n ->
             note_colors st !! n = Some (palette (k mod 12))).
  { intros k n Hkn. exact (coloured_seen _ _ Hc k n Hkn). }
  split; [exact Hk|]. split; [|split; [|split]].
  - intros j k nj nk Hj Hk12 Hjk Hsj Hsk.
    rewrite (Hk j nj Hsj), (Hk k nk Hsk).
    rewrite !Nat.mod_small by assumption.
    intros [= Heq]. apply Hjk. now apply palette_distinct.
  - intros n Hn. exact (Hk 12%nat n Hn).
  - intros ev Hon Hsome. unfold process_event. unfold is_note_on in Hon. rewrite Hon.
    now apply note_on_seen.
  - intros ev Hoff. now apply process_event_colours.
Qed.

Lemma colours_round_robin_witness :
  exists st,
    run_ticks (init (num := float)) thirteen_notes = Some st /\
    note_colors st !! 60%Z = Some (palette 0) /\
    note_colors st !! 71%Z = Some (palette 11) /\
    note_colors st !! 72%Z = Some (palette 0).
Proof.
  destruct (colours_round_robin (num := float) init thirteen_notes)
    as (st & Hrun & Hk & _).
  - exact init_wf.
  - unfold thirteen_notes. valid_events.
  - reflexivity.
  - reflexivity.
  - exists st. split; [exact Hrun|].
    split; [exact (Hk 0%nat 60%Z eq_refl)|].
    split; [exact (Hk 11%nat 71%Z eq_refl) | exact (Hk 12%nat 72%Z eq_refl)].
Defined.

(** ** C8: the consistency score *)

(** *** Signs of binary64 results, from the specification of the operations *)

Section Binary64Spec.

Local Open Scope Z_scope.

Lemma pow2_succ (d : Z) : 0 <= d -> 2 ^ (d + 1) = 2 * 2 ^ d.
Proof. intros Hd. rewrite Z.pow_add_r by lia. lia. Qed.

Lemma digits2_pos_bounds (m : positive) :
  2 ^ (Zpos (digits2_pos m) - 1) <= Zpos m < 2 ^ Zpos (digits2_pos m).
Proof.
  induction m as [m IH|m IH|]; simpl digits2_pos.
  - rewrite Pos2Z.inj_succ, Pos2Z.inj_xI.
    replace (Z.succ (Zpos (digits2_pos m)) - 1) with (Zpos (digits2_pos m) - 1 + 1) by lia.
    replace (Z.succ (Zpos (digits2_pos m))) with (Zpos (digits2_pos m) - 1 + 1 + 1) by lia.
    replace (Zpos (digits2_pos m)) with (Zpos (digits2_pos m) - 1 + 1) in IH at 2 by lia.
    rewrite !pow2_succ in * by lia. lia.
  - rewrite Pos2Z.inj_succ, Pos2Z.inj_xO.
    replace (Z.succ (Zpos (digits2_pos m)) - 1) with (Zpos (digits2_pos m) - 1 + 1) by lia.
    replace (Z.succ (Zpos (digits2_pos m))) with (Zpos (digits2_pos m) - 1 + 1 + 1) by lia.
    replace (Zpos (digits2_pos m)) with (Zpos (digits2_pos m) - 1 + 1) in IH at 2 by lia.
    rewrite !pow2_succ in * by lia. lia.
  - simpl. lia.
Qed.

Lemma shr_1_m (mrs : shr_record) :
  0 <= shr_m mrs -> shr_m (shr_1 mrs) = shr_m mrs / 2.
Proof.
  destruct mrs as [m r s]. cbn [shr_m]. intros Hm. rewrite <- Z.div2_div.
  destruct m as [|[p|p|]|p]; try lia; reflexivity.
Qed.

Lemma shr_m_iter_pos (p : positive) (mrs : shr_record) :
  0 <= shr_m mrs -> shr_m (SpecFloat.iter_pos shr_1 p mrs) = shr_m mrs / 2 ^ Zpos p.
Proof.
  revert mrs. induction p as [p IH|p IH|]; intros mrs Hm; cbn [SpecFloat.iter_pos].
  - assert (Hp : 0 < 2 ^ Zpos p) by (apply Z.pow_pos_nonneg; lia).
    assert (H1 : 0 <= shr_m (shr_1 mrs)) by (rewrite shr_1_m by lia; apply Z.div_pos; lia).
    assert (H2 : 0 <= shr_m (SpecFloat.iter_pos shr_1 p (shr_1 mrs)))
      by (rewrite IH by lia; apply Z.div_pos; lia).
    rewrite IH, IH, shr_1_m by assumption.
    rewrite !Z.div_div by lia. f_equal.
    replace (Zpos p~1) with (Zpos p + Zpos p + 1) by lia.
    rewrite !Z.pow_add_r by lia. lia.
  - assert (Hp : 0 < 2 ^ Zpos p) by (apply Z.pow_pos_nonneg; lia).
    assert (H2 : 0 <= shr_m (SpecFloat.iter_pos shr_1 p mrs))
      by (rewrite IH by lia; apply Z.div_pos; lia).
    rewrite IH, IH by assumption.
    rewrite !Z.div_div by lia. f_equal.
    replace (Zpos p~0) with (Zpos p + Zpos p) by lia.
    rewrite !Z.pow_add_r by lia. lia.
  - rewrite shr_1_m by assumption. reflexivity.
Qed.

Lemma fexp_ge_emin (e : Z) : emin64 <= fexp prec emax e.
Proof. unfold fexp, emin64. lia. Qed.

(** Shifting a positive mantissa whose exponent is not below [emin] keeps it
    positive. *)
Lemma shr_fexp_pos (m e : Z) (l : location) :
  0 < m -> emin64 <= e ->
  0 < shr_m (fst (shr_fexp prec emax m e l)) /\ emin64 <= snd (shr_fexp prec emax m e l).
Proof.
  unfold emin64. intros Hm He. unfold shr_fexp, shr.
  assert (Hrec : shr_m (shr_record_of_loc m l) = m) by (destruct l as [|[]]; reflexivity).
  destruct m as [|m|m]; try lia. cbn [Zdigits2].
  destruct (fexp prec emax (Zpos (digits2_pos m) + e) - e) as [|p|p] eqn:Hn;
    cbn [fst snd]; try (rewrite Hrec; lia).
  rewrite shr_m_iter_pos by (rewrite Hrec; lia). rewrite Hrec.
  pose proof (digits2_pos_bounds m) as [Hlo Hhi].
  unfold fexp, SpecFloat.emin in *. unfold prec, emax in *.
  assert (Hp : Zpos p = Zpos (digits2_pos m) - 53) by lia.
  split; [|lia].
  apply Z.div_str_pos. split; [apply Z.pow_pos_nonneg; lia|].
  eapply Z.le_trans; [|exact Hlo]. apply Z.pow_le_mono_r; lia.
Qed.

Lemma round_nearest_even_pos (m : Z) (l : location) :
  0 < m -> 0 < round_nearest_even m l.
Proof.
  intros Hm. unfold round_nearest_even.
  destruct l as [|[]]; try lia. destruct (Z.even m); lia.
Qed.

Lemma binary_round_aux_pos (m e : Z) (l : location) :
  0 < m -> emin64 <= e -> SFpos (binary_round_aux prec emax false m e l) = true.
Proof.
  intros Hm He. unfold binary_round_aux.
  destruct (shr_fexp_pos m e l Hm He) as [Hm1 He1].
  destruct (shr_fexp prec emax m e l) as [mrs1 e1]. cbn [fst snd] in Hm1, He1.
  pose proof (round_nearest_even_pos (shr_m mrs1) (loc_of_shr_record mrs1) Hm1) as Hm2.
  destruct (shr_fexp_pos _ e1 loc_Exact Hm2 He1) as [Hm3 _].
  destruct (shr_fexp prec emax _ e1 loc_Exact) as [mrs2 e2]. cbn [fst] in Hm3.
  destruct (shr_m mrs2); try lia.
  destruct (Z.leb e2 (emax - prec)); reflexivity.
Qed.

Lemma binary_round_aux_neg (m e : Z) (l : location) :
  SFpos (binary_round_aux prec emax true m e l) = false.
Proof.
  unfold binary_round_aux.
  destruct (shr_fexp prec emax m e l) as [mrs1 e1].
  destruct (shr_fexp prec emax _ e1 loc_Exact) as [mrs2 e2].
  destruct (shr_m mrs2); try reflexivity.
  destruct (Z.leb e2 (emax - prec)); reflexivity.
Qed.

Lemma binary_round_pos (m : positive) (e : Z) :
  emin64 <= e -> SFpos (binary_round prec emax false m e) = true.
Proof.
  intros He. unfold binary_round, shl_align.
  pose proof (fexp_ge_emin (Zpos (digits2_pos m) + e)) as Hf.
  destruct (fexp prec emax (Zpos (digits2_pos m) + e) - e);
    apply binary_round_aux_pos; lia.
Qed.

Lemma binary_round_neg (m : positive) (e : Z) :
  SFpos (binary_round prec emax true m e) = false.
Proof.
  unfold binary_round. destruct (shl_align _ _ _). apply binary_round_aux_neg.
Qed.

Lemma shl_align_value (m : positive) (e ez : Z) :
  ez <= e -> Zpos (fst (shl_align m e ez)) = Zpos m * 2 ^ (e - ez).
Proof.
  intros Hez. unfold shl_align. destruct (ez - e) as [|d|d] eqn:Hd; cbn [fst]; try lia.
  - replace (e - ez) with 0 by lia. lia.
  - replace (e - ez) with (Zpos d) by lia. clear.
    revert m. induction d as [|d IH] using Pos.peano_ind; intros m.
    + rewrite Pos.iter_succ_r || idtac. simpl. lia.
    + rewrite Pos.iter_succ, Pos2Z.inj_succ, Z.pow_succ_r by lia.
      rewrite Pos2Z.inj_xO, IH. lia.
Qed.

(** A valid finite number: exponent and mantissa ranges. *)
Lemma bounded_ranges (m : positive) (e : Z) :
  bounded prec emax m e = true ->
  emin64 <= e /\ Zpos m < 2 ^ 53 /\ (emin64 < e -> 2 ^ 52 <= Zpos m).
Proof.
  unfold bounded, canonical_mantissa, fexp, emin64, SpecFloat.emin. unfold prec, emax.
  intros Hb. apply andb_true_iff in Hb as [Hc _]. apply Z.eqb_eq in Hc.
  pose proof (digits2_pos_bounds m) as [Hlo Hhi].
  split; [lia|]. split.
  - eapply Z.lt_le_trans; [exact Hhi|]. apply Z.pow_le_mono_r; lia.
  - intros He. replace (Zpos (digits2_pos m)) with 53 in Hlo by lia. exact Hlo.
Qed.

Lemma Prim2SF_100 : Prim2SF 100%float = SF100.
Proof. vm_compute. reflexivity. Qed.

Lemma Prim2SF_0 : Prim2SF 0%float = S754_zero false.
Proof. vm_compute. reflexivity. Qed.

(** [100 - y > 0] exactly when [y < 100], for every binary64 value [y]
    (both are false on NaN). *)
Lemma SFltb_pos_finite (m : positive) (e : Z) (mc : positive) (ec : Z) :
  SFltb (S754_finite false m e) (S754_finite false mc ec)
  = match e ?= ec with
    | Lt => true
    | Gt => false
    | Eq => match (m ?= mc)%positive with Lt => true | _ => false end
    end.
Proof. unfold SFltb, SFcompare, Pos.compare. destruct (e ?= ec); reflexivity. Qed.

Lemma binary_normalize_pos (d e : Z) :
  emin64 <= e -> SFpos (binary_normalize prec emax d e false) = (0 <? d).
Proof.
  intros He. destruct d as [|d|d]; cbn [binary_normalize].
  - reflexivity.
  - now apply binary_round_pos.
  - apply binary_round_neg.
Qed.

Lemma SFsub_100_pos (y : spec_float) :
  valid_binary y = true -> SFpos (SFsub prec emax SF100 y) = SFltb y SF100.
Proof.
  intros Hv. destruct y as [s|s| |s m e].
  - reflexivity.
  - destruct s; reflexivity.
  - reflexivity.
  - cbn [valid_binary] in Hv.
    destruct (bounded_ranges m e Hv) as (He & Hhi & Hlo).
    unfold emin64, SpecFloat.emin in He, Hlo. unfold prec, emax in He, Hlo.
    assert (H53 : 2 ^ 53 = 9007199254740992) by reflexivity.
    assert (H52 : 2 ^ 52 = 4503599627370496) by reflexivity.
    rewrite H53 in Hhi. rewrite H52 in Hlo. clear H52 H53.
    unfold SF100, SFsub.
    assert (Hez1 : Z.min (-46) e <= -46) by lia.
    assert (Hez2 : Z.min (-46) e <= e) by lia.
    pose proof (shl_align_value 7036874417766400 (-46) _ Hez1) as Ha.
    pose proof (shl_align_value m e _ Hez2) as Hb.
    assert (Hmin : emin64 <= Z.min (-46) e).
    { unfold emin64, SpecFloat.emin, prec, emax. lia. }
    rewrite binary_normalize_pos by exact Hmin.
    set (a := Zpos (fst (shl_align 7036874417766400 (-46) (Z.min (-46) e)))) in *.
    set (b := Zpos (fst (shl_align m e (Z.min (-46) e)))) in *.
    clearbody a b. clear Hmin Hv.
    destruct s; cbn [cond_Zopp].
    + (* y < 0 *)
      assert (0 < 2 ^ (-46 - Z.min (-46) e)) by (apply Z.pow_pos_nonneg; lia).
      assert (0 < 2 ^ (e - Z.min (-46) e)) by (apply Z.pow_pos_nonneg; lia).
      transitivity true; [apply Z.ltb_lt; nia | reflexivity].
    + (* y > 0 *)
      rewrite SFltb_pos_finite.
      destruct (Z.compare_spec e (-46)) as [Heq|Hlt|Hgt].
      * subst e. rewrite Z.min_id, Z.sub_diag, Z.pow_0_r, Z.mul_1_r in Ha, Hb.
        subst a b.
        destruct (Pos.compare_spec m 7036874417766400) as [Hm|Hm|Hm].
        -- apply Z.ltb_ge. rewrite Hm. lia.
        -- assert (Hm' : Zpos m < 7036874417766400) by exact Hm. clear Hm.
           apply Z.ltb_lt. lia.
        -- assert (Hm' : 7036874417766400 < Zpos m) by exact Hm. clear Hm.
           apply Z.ltb_ge. lia.
      * replace (Z.min (-46) e) with e in * by lia.
        rewrite Z.sub_diag, Z.pow_0_r, Z.mul_1_r in Hb.
        assert (Hpow : 2 <= 2 ^ (-46 - e)).
        { change 2 with (2 ^ 1) at 1. apply Z.pow_le_mono_r; lia. }
        apply Z.ltb_lt. nia.
      * replace (Z.min (-46) e) with (-46) in * by lia.
        rewrite Z.sub_diag, Z.pow_0_r, Z.mul_1_r in Ha.
        assert (Hpow : 2 <= 2 ^ (e - -46)).
        { change 2 with (2 ^ 1) at 1. apply Z.pow_le_mono_r; lia. }
        assert (Hm : 4503599627370496 <= Zpos m) by (apply Hlo; lia).
        apply Z.ltb_ge. nia.
Qed.

Lemma b64_sub_100_pos (y : float) : (0 <? 100 - y)%float = (y <? 100)%float.
Proof.
  rewrite !ltb_spec, sub_spec, Prim2SF_100, Prim2SF_0.
  apply SFsub_100_pos, Prim2SF_valid.
Qed.

Lemma b64_mul_comm (x y : float) : (x * y = y * x)%float.
Proof.
  apply Prim2SF_inj. rewrite !mul_spec. unfold SF64mul, SFmul.
  destruct (Prim2SF x) as [sx|sx| |sx mx ex], (Prim2SF y) as [sy|sy| |sy my ey];
    try reflexivity; try (now rewrite xorb_comm).
  now rewrite xorb_comm, Pos.mul_comm, Z.add_comm.
Qed.

End Binary64Spec.

(** Line 530 against the spec's formula, on the binary64 operations. *)
Lemma b64_consistency_score (sd m : float) :
  (if 0 <? m then 100 - (if sd * 5 <? 100 then sd * 5 else 100) else 0)%float
  = (if 0 <? m then (if 0 <? 100 - 5 * sd then 100 - 5 * sd else 0) else 0)%float.
Proof.
  destruct (0 <? m)%float; [|reflexivity].
  rewrite (b64_mul_comm 5 sd), b64_sub_100_pos.
  destruct (sd * 5 <? 100)%float; reflexivity.
Qed.

(** C8: the score the code computes, [100 - min(100, std_dev * 5)] when
    [mean > 0] else 0, equals the spec's [max(0, 100 - 5 * std_dev)] when
    [mean > 0] else 0: in binary64, for every std_dev and mean (also negative
    ones, infinities and NaN), and in exact arithmetic, where the spec's
    formula is [Rmax 0 (100 - 5 * std_dev)]. *)
Theorem consistency_score_refines_spec :
  (forall s : Stats (num := float),
     consistency_score s = spec_consistency_score (std_dev s) (mean s)) /\
  (forall s : Stats (num := R),
     consistency_score s = spec_consistency_score (std_dev s) (mean s)) /\
  (forall sd m : R,
     spec_consistency_score sd m
       = if Rlt_dec 0 m then Rmax 0 (100 - 5 * sd) else 0%R).
Proof.
  split; [|split].
  - intros [m sd mn mx]. exact (b64_consistency_score sd m).
  - intros [m sd mn mx]. unfold consistency_score, spec_consistency_score. simpl.
    unfold gt0, zero, py_min, py_max. simpl. unfold ExactReal.ltb.
    repeat match goal with |- context [Rlt_dec ?a ?b] => destruct (Rlt_dec a b) end;
      lra.
  - intros sd m. unfold spec_consistency_score, gt0, zero, py_max. simpl.
    unfold ExactReal.ltb, Rmax.
    repeat match goal with
           | |- context [Rlt_dec ?a ?b] => destruct (Rlt_dec a b)
           | |- context [Rle_dec ?a ?b] => destruct (Rle_dec a b)
           end; lra.
Qed.

(** ** The smoother *)

Section Smoother.

Context {num : Type} {SN : Scalar num}.

(** *** The moving average *)

Lemma smooth_step_length (vs vf : list num) (i : nat) :
  length (smooth_step vs vf i) = length vf.
Proof. unfold smooth_step. destruct (gt0 _); [apply length_insert | reflexivity]. Qed.

Lemma foldl_smooth_step_length (vs : list num) (idx : list nat) (vf : list num) :
  length (foldl (smooth_step vs) vf idx) = length vf.
Proof.
  revert vf. induction idx as [|a idx IH]; intros vf; simpl; [reflexivity|].
  now rewrite IH, smooth_step_length.
Qed.

Lemma foldl_smooth_step_skip (vs : list num) (idx : list nat) (vf : list num) (i : nat) :
  i ∉ idx \/ gt0 (item vs i) = false ->
  foldl (smooth_step vs) vf idx !! i = vf !! i.
Proof.
  revert vf. induction idx as [|a idx IH]; intros vf Hi; simpl; [reflexivity|].
  rewrite IH.
  - unfold smooth_step. destruct (gt0 (item vs a)) eqn:Ha; [|reflexivity].
    apply list_lookup_insert_ne. intros ->.
    destruct Hi as [Hi|Hi]; [apply Hi; left | congruence].
  - destruct Hi as [Hi|Hi]; [left | now right].
    intros Hin. apply Hi. now right.
Qed.

Lemma foldl_smooth_step_hit (vs : list num) (idx : list nat) (vf : list num) (i : nat) :
  i ∈ idx -> gt0 (item vs i) = true -> (i < length vf)%nat ->
  foldl (smooth_step vs) vf idx !! i = Some (mean3 vs i).
Proof.
  revert vf. induction idx as [|a idx IH]; intros vf Hin Hg Hlen; simpl.
  - now apply elem_of_nil in Hin.
  - destruct (decide (i ∈ idx)) as [Hi|Hi].
    + apply IH; [assumption | assumption | now rewrite smooth_step_length].
    + apply elem_of_cons in Hin as [->|Hin]; [|contradiction].
      rewrite foldl_smooth_step_skip by now left.
      unfold smooth_step. rewrite Hg. now apply list_lookup_insert_eq.
Qed.

Lemma moving_average_length (vs : list num) : length (moving_average vs) = length vs.
Proof. apply foldl_smooth_step_length. Qed.

(** An interior sample whose value in [vs] is [> 0] becomes the mean of its
    three neighbours in [vs]. *)
Lemma moving_average_interior_pos (vs : list num) (i : nat) :
  (0 < i)%nat -> (i + 1 < length vs)%nat -> gt0 (item vs i) = true ->
  moving_average vs !! i = Some (mean3 vs i).
Proof.
  intros H0 HN Hg. apply foldl_smooth_step_hit; [|assumption|lia].
  apply elem_of_seq. lia.
Qed.

(** Any sample whose value in [vs] is not [> 0] is left as it is. *)
Lemma moving_average_not_pos (vs : list num) (i : nat) :
  gt0 (item vs i) = false -> moving_average vs !! i = vs !! i.
Proof. intros Hg. apply foldl_smooth_step_skip. now right. Qed.

(** The two end samples are left as they are. *)
Lemma moving_average_ends (vs : list num) (i : nat) :
  i = 0%nat \/ (length vs <= i + 1)%nat -> moving_average vs !! i = vs !! i.
Proof.
  intros Hi. apply foldl_smooth_step_skip. left.
  rewrite elem_of_seq. lia.
Qed.

End Smoother.

Section Bridging.

Context {num : Type} {SN : Scalar num}.

(** *** The inner loop over [j] *)

Lemma bridge_step_length (a G : nat) (sv ev : num) (sn en : Z)
    (sm : list num * list Z) (j : nat) :
  length (bridge_step a G sv ev sn en sm j).1 = length sm.1 /\
  length (bridge_step a G sv ev sn en sm j).2 = length sm.2.
Proof.
  unfold bridge_step. simpl. split; [apply length_insert|].
  destruct (bridged_note sn en); [apply length_insert | reflexivity].
Qed.

Lemma foldl_bridge_step_length (a G : nat) (sv ev : num) (sn en : Z)
    (js : list nat) (sm : list num * list Z) :
  length (foldl (bridge_step a G sv ev sn en) sm js).1 = length sm.1 /\
  length (foldl (bridge_step a G sv ev sn en) sm js).2 = length sm.2.
Proof.
  revert sm. induction js as [|j js IH]; intros sm; simpl; [auto|].
  destruct (IH (bridge_step a G sv ev sn en sm j)) as [-> ->].
  apply bridge_step_length.
Qed.

Lemma foldl_bridge_step_other (a G : nat) (sv ev : num) (sn en : Z)
    (js : list nat) (sm : list num * list Z) (k : nat) :
  (forall j, j ∈ js -> k <> (a + j)%nat) ->
  (foldl (bridge_step a G sv ev sn en) sm js).1 !! k = sm.1 !! k /\
  (foldl (bridge_step a G sv ev sn en) sm js).2 !! k = sm.2 !! k.
Proof.
  revert sm. induction js as [|j js IH]; intros sm Hk; simpl; [auto|].
  destruct (IH (bridge_step a G sv ev sn en sm j)) as [-> ->].
  { intros j' Hj'. apply Hk. now right. }
  assert (Hne : (a + j)%nat <> k) by (intros <-; eapply Hk; [left | reflexivity]).
  unfold bridge_step. simpl. split; [now apply list_lookup_insert_ne|].
  destruct (bridged_note sn en); [now apply list_lookup_insert_ne | reflexivity].
Qed.

Lemma foldl_bridge_step_hit (a G : nat) (sv ev : num) (sn en : Z)
    (js : list nat) (sm : list num * list Z) (j : nat) :
  j ∈ js -> (a + j < length sm.1)%nat -> (a + j < length sm.2)%nat ->
  (foldl (bridge_step a G sv ev sn en) sm js).1 !! (a + j)%nat
    = Some (bridged_value sv ev G j) /\
  (foldl (bridge_step a G sv ev sn en) sm js).2 !! (a + j)%nat
    = match bridged_note sn en with
      | Some n => Some n
      | None => sm.2 !! (a + j)%nat
      end.
Proof.
  revert sm. induction js as [|j1 js IH]; intros sm Hin Hl1 Hl2; simpl.
  - now apply elem_of_nil in Hin.
  - destruct (bridge_step_length a G sv ev sn en sm j1) as [Hlen1 Hlen2].
    destruct (decide (j ∈ js)) as [Hj|Hj].
    + destruct (IH (bridge_step a G sv ev sn en sm j1) Hj) as [-> ->];
        [now rewrite Hlen1 | now rewrite Hlen2 |].
      split; [reflexivity|]. destruct (bridged_note sn en) eqn:Hbn; [reflexivity|].
      unfold bridge_step. simpl. now rewrite Hbn.
    + apply elem_of_cons in Hin as [->|Hin]; [|contradiction].
      destruct (foldl_bridge_step_other a G sv ev sn en js
                  (bridge_step a G sv ev sn en sm j1) (a + j1)) as [-> ->].
      { intros j' Hj' Heq. apply Hj. now replace j1 with j' by lia. }
      unfold bridge_step. simpl. split; [now apply list_lookup_insert_eq|].
      destruct (bridged_note sn en); [now apply list_lookup_insert_eq | reflexivity].
Qed.

(** *** One pair of neighbouring non-zero indices *)

Lemma bridge_pair_length (vh : list num) (nh : list Z) (sm : list num * list Z) (p : nat * nat) :
  length (bridge_pair vh nh sm p).1 = length sm.1 /\
  length (bridge_pair vh nh sm p).2 = length sm.2.
Proof.
  unfold bridge_pair. destruct (_ && _); [apply foldl_bridge_step_length | auto].
Qed.

(** Outside the open interval between the two indices, or when the gap is
    empty or longer than the threshold, nothing is written. *)
Lemma bridge_pair_other (vh : list num) (nh : list Z) (sm : list num * list Z)
    (p : nat * nat) (k : nat) :
  (k <= p.1)%nat \/ (p.2 <= k)%nat \/ bridgeable p = false ->
  (bridge_pair vh nh sm p).1 !! k = sm.1 !! k /\
  (bridge_pair vh nh sm p).2 !! k = sm.2 !! k.
Proof.
  intros Hk. unfold bridge_pair. fold (gap_size_of p).
  destruct (_ && _) eqn:Hb; [|auto].
  apply foldl_bridge_step_other. intros j Hj ->.
  apply elem_of_seq in Hj. unfold bridgeable in Hk. rewrite Hb in Hk.
  unfold gap_size_of in Hj. destruct Hk as [Hk|[Hk|Hk]]; [lia | lia | discriminate].
Qed.

(** Strictly between the two indices of a bridgeable pair, the interpolated
    value (with its floor) and the note of the transition are written. *)
Lemma bridge_pair_hit (vh : list num) (nh : list Z) (sm : list num * list Z)
    (p : nat * nat) (j : nat) :
  bridgeable p = true -> (1 <= j <= gap_size_of p)%nat ->
  (p.1 + j < length sm.1)%nat -> (p.1 + j < length sm.2)%nat ->
  (bridge_pair vh nh sm p).1 !! (p.1 + j)%nat
    = Some (bridged_value (item vh p.1) (item vh p.2) (gap_size_of p) j) /\
  (bridge_pair vh nh sm p).2 !! (p.1 + j)%nat
    = match bridged_note (item_note nh p.1) (item_note nh p.2) with
      | Some n => Some n
      | None => sm.2 !! (p.1 + j)%nat
      end.
Proof.
  intros Hb Hj Hl1 Hl2. unfold bridge_pair. fold (gap_size_of p).
  unfold bridgeable in Hb. rewrite Hb.
  apply foldl_bridge_step_hit; [|assumption|assumption].
  apply elem_of_seq. lia.
Qed.

(** *** The loop over the pairs *)

Lemma foldl_bridge_pair_length (vh : list num) (nh : list Z)
    (ps : list (nat * nat)) (sm : list num * list Z) :
  length (foldl (bridge_pair vh nh) sm ps).1 = length sm.1 /\
  length (foldl (bridge_pair vh nh) sm ps).2 = length sm.2.
Proof.
  revert sm. induction ps as [|p ps IH]; intros sm; simpl; [auto|].
  destruct (IH (bridge_pair vh nh sm p)) as [-> ->]. apply bridge_pair_length.
Qed.

Lemma foldl_bridge_pair_other (vh : list num) (nh : list Z)
    (ps : list (nat * nat)) (sm : list num * list Z) (k : nat) :
  (forall p, p ∈ ps -> (k <= p.1)%nat \/ (p.2 <= k)%nat \/ bridgeable p = false) ->
  (foldl (bridge_pair vh nh) sm ps).1 !! k = sm.1 !! k /\
  (foldl (bridge_pair vh nh) sm ps).2 !! k = sm.2 !! k.
Proof.
  revert sm. induction ps as [|p ps IH]; intros sm Hk; simpl; [auto|].
  destruct (IH (bridge_pair vh nh sm p)) as [-> ->].
  { intros q Hq. apply Hk. now right. }
  apply bridge_pair_other, Hk. now left.
Qed.

End Bridging.

Section Anchors.

Context {num : Type} {SN : Scalar num}.

(** *** [np.where(v > 0)] and its neighbouring pairs *)

Lemma np_where_pos_app (i : nat) (l1 l2 : list num) :
  np_where_pos i (l1 ++ l2) = np_where_pos i l1 ++ np_where_pos (i + length l1) l2.
Proof.
  revert i. induction l1 as [|x l1 IH]; intros i; simpl.
  - now rewrite Nat.add_0_r.
  - rewrite IH. replace (S i + length l1)%nat with (i + S (length l1))%nat by lia.
    now destruct (gt0 x).
Qed.

Lemma np_where_pos_none (i : nat) (l : list num) :
  Forall (fun v => gt0 v = false) l -> np_where_pos i l = [].
Proof.
  intros Hl. revert i. induction Hl as [|x l Hx _ IH]; intros i; simpl; [reflexivity|].
  now rewrite Hx.
Qed.

Lemma np_where_pos_range (i : nat) (l : list num) (x : nat) :
  x ∈ np_where_pos i l -> (i <= x < i + length l)%nat.
Proof.
  revert i. induction l as [|v l IH]; intros i Hx; simpl in *.
  - now apply elem_of_nil in Hx.
  - destruct (gt0 v).
    + apply elem_of_cons in Hx as [->|Hx]; [lia|]. apply IH in Hx. lia.
    + apply IH in Hx. lia.
Qed.

Lemma adjacent_pairs_app (l1 : list nat) (a : nat) (l2 : list nat) :
  adjacent_pairs (l1 ++ a :: l2) = adjacent_pairs (l1 ++ [a]) ++ adjacent_pairs (a :: l2).
Proof.
  unfold adjacent_pairs. induction l1 as [|x l1 IH]; [reflexivity|].
  destruct l1 as [|y l1]; [reflexivity|].
  simpl in *. now rewrite IH.
Qed.

Lemma adjacent_pairs_elem (l : list nat) (p : nat * nat) :
  p ∈ adjacent_pairs l -> p.1 ∈ l /\ p.2 ∈ l.
Proof.
  unfold adjacent_pairs. destruct p as [x y]. intros Hp. split.
  - now apply elem_of_zip_l in Hp.
  - apply elem_of_zip_r in Hp. destruct l; [assumption | now right].
Qed.

(** The guard [len(non_zero_indices) > 1] only skips an empty loop. *)
Lemma bridge_gaps_fold (vh : list num) (nh : list Z) :
  bridge_gaps vh nh
    = foldl (bridge_pair vh nh) (vh, nh) (adjacent_pairs (np_where_pos 0 vh)).
Proof.
  unfold bridge_gaps. destruct (np_where_pos 0 vh) as [|a [|b l]]; reflexivity.
Qed.

Lemma bridge_gaps_length (vh : list num) (nh : list Z) :
  length (bridge_gaps vh nh).1 = length vh /\ length (bridge_gaps vh nh).2 = length nh.
Proof. rewrite bridge_gaps_fold. apply foldl_bridge_pair_length. Qed.

(** *** Samples the bridging leaves alone *)

(** A sample that is [> 0]. *)
Lemma bridge_gaps_anchor (pre post : list num) (x : num) (nh : list Z) :
  gt0 x = true ->
  (bridge_gaps (pre ++ x :: post) nh).1 !! length pre = Some x /\
  (bridge_gaps (pre ++ x :: post) nh).2 !! length pre = nh !! length pre.
Proof.
  intros Hx. rewrite bridge_gaps_fold.
  destruct (foldl_bridge_pair_other (pre ++ x :: post) nh
              (adjacent_pairs (np_where_pos 0 (pre ++ x :: post)))
              (pre ++ x :: post, nh) (length pre)) as [-> ->].
  - intros p Hp. rewrite np_where_pos_app in Hp. simpl in Hp. rewrite Hx in Hp.
    rewrite adjacent_pairs_app in Hp. apply elem_of_app in Hp as [Hp|Hp];
      apply adjacent_pairs_elem in Hp as [Hp1 Hp2].
    + right; left. apply elem_of_app in Hp2 as [Hp2|Hp2].
      * apply np_where_pos_range in Hp2. lia.
      * apply list_elem_of_singleton in Hp2. lia.
    + left. apply elem_of_cons in Hp1 as [Hp1|Hp1]; [lia|].
      apply np_where_pos_range in Hp1. lia.
  - simpl. split; [|reflexivity]. now rewrite list_lookup_middle.
Qed.

(** A sample before the first sample that is [> 0]. *)
Lemma bridge_gaps_leading (pre rest : list num) (nh : list Z) (k : nat) :
  Forall (fun v => gt0 v = false) pre -> (k < length pre)%nat ->
  (bridge_gaps (pre ++ rest) nh).1 !! k = (pre ++ rest) !! k /\
  (bridge_gaps (pre ++ rest) nh).2 !! k = nh !! k.
Proof.
  intros Hpre Hk. rewrite bridge_gaps_fold.
  apply (foldl_bridge_pair_other (pre ++ rest) nh _ (pre ++ rest, nh)).
  intros p Hp. rewrite np_where_pos_app, (np_where_pos_none _ _ Hpre) in Hp.
  apply adjacent_pairs_elem in Hp as [Hp1 _]. simpl in Hp1.
  apply np_where_pos_range in Hp1. left. lia.
Qed.

(** A sample after the last sample that is [> 0]. *)
Lemma bridge_gaps_trailing (rest post : list num) (nh : list Z) (k : nat) :
  Forall (fun v => gt0 v = false) post -> (length rest <= k)%nat ->
  (bridge_gaps (rest ++ post) nh).1 !! k = (rest ++ post) !! k /\
  (bridge_gaps (rest ++ post) nh).2 !! k = nh !! k.
Proof.
  intros Hpost Hk. rewrite bridge_gaps_fold.
  apply (foldl_bridge_pair_other (rest ++ post) nh _ (rest ++ post, nh)).
  intros p Hp. rewrite np_where_pos_app, (np_where_pos_none _ _ Hpost), app_nil_r in Hp.
  apply adjacent_pairs_elem in Hp as [_ Hp2].
  apply np_where_pos_range in Hp2. right; left. lia.
Qed.

(** *** The gap between two neighbouring samples that are [> 0] *)

Lemma bridge_gaps_gap (pre mid post : list num) (x y : num) (nh : list Z) (j : nat) :
  gt0 x = true -> gt0 y = true -> Forall (fun v => gt0 v = false) mid ->
  length nh = length (pre ++ x :: mid ++ y :: post) ->
  (1 <= j <= length mid)%nat ->
  let vh := pre ++ x :: mid ++ y :: post in
  let a := length pre in
  let b := (length pre + length mid + 1)%nat in
  if bridgeable (a, b) then
    (bridge_gaps vh nh).1 !! (a + j)%nat = Some (bridged_value x y (length mid) j) /\
    (bridge_gaps vh nh).2 !! (a + j)%nat
      = match bridged_note (item_note nh a) (item_note nh b) with
        | Some n => Some n
        | None => nh !! (a + j)%nat
        end
  else
    (bridge_gaps vh nh).1 !! (a + j)%nat = vh !! (a + j)%nat /\
    (bridge_gaps vh nh).2 !! (a + j)%nat = nh !! (a + j)%nat.
Proof.
  intros Hx Hy Hmid Hnh Hj vh a b.
  assert (Hnz : np_where_pos 0 vh
                = np_where_pos 0 pre ++ a :: b :: np_where_pos (S b) post).
  { unfold vh. rewrite np_where_pos_app. simpl. rewrite Hx. f_equal. f_equal.
    rewrite np_where_pos_app, (np_where_pos_none _ _ Hmid). simpl. rewrite Hy.
    unfold a, b. f_equal; [lia|]. f_equal. lia. }
  assert (Hps : adjacent_pairs (np_where_pos 0 vh)
                = adjacent_pairs (np_where_pos 0 pre ++ [a])
                  ++ (a, b) :: adjacent_pairs (b :: np_where_pos (S b) post)).
  { rewrite Hnz, adjacent_pairs_app. reflexivity. }
  assert (Hgs : gap_size_of (a, b) = length mid) by (unfold gap_size_of, a, b; simpl; lia).
  assert (Hia : item vh a = x).
  { unfold item, vh, a. now rewrite list_lookup_middle. }
  assert (Hib : item vh b = y).
  { unfold item, vh, b. rewrite app_comm_cons, app_assoc.
    rewrite list_lookup_middle; [reflexivity|]. rewrite length_app. simpl. lia. }
  rewrite bridge_gaps_fold, Hps, foldl_app. simpl foldl.
  set (sm1 := foldl (bridge_pair vh nh) (vh, nh)
                (adjacent_pairs (np_where_pos 0 pre ++ [a]))).
  assert (Hsm1 : sm1.1 !! (a + j)%nat = vh !! (a + j)%nat /\
                 sm1.2 !! (a + j)%nat = nh !! (a + j)%nat).
  { apply (foldl_bridge_pair_other vh nh _ (vh, nh)). intros p Hp.
    apply adjacent_pairs_elem in Hp as [_ Hp2]. right; left.
    apply elem_of_app in Hp2 as [Hp2|Hp2].
    - apply np_where_pos_range in Hp2. unfold a. lia.
    - apply list_elem_of_singleton in Hp2. lia. }
  destruct (foldl_bridge_pair_length vh nh
              (adjacent_pairs (np_where_pos 0 pre ++ [a])) (vh, nh)) as [Hl1 Hl2].
  fold sm1 in Hl1, Hl2. simpl in Hl1, Hl2.
  assert (Hlen : (a + j < length vh)%nat).
  { unfold vh, a. rewrite length_app. simpl. rewrite length_app. simpl. lia. }
  destruct (foldl_bridge_pair_other vh nh
              (adjacent_pairs (b :: np_where_pos (S b) post))
              (bridge_pair vh nh sm1 (a, b)) (a + j)) as [-> ->].
  { intros p Hp. apply adjacent_pairs_elem in Hp as [Hp1 _]. left.
    apply elem_of_cons in Hp1 as [Hp1|Hp1]; [unfold a, b in *; lia|].
    apply np_where_pos_range in Hp1. unfold a, b in *. lia. }
  destruct (bridgeable (a, b)) eqn:Hb.
  - destruct (bridge_pair_hit vh nh sm1 (a, b) j Hb) as [Hv Hn];
      [rewrite Hgs; lia | simpl; lia | simpl; unfold vh in *; lia |].
    simpl in Hv, Hn. rewrite Hgs, Hia, Hib in Hv. split; [exact Hv|].
    rewrite Hn. destruct (bridged_note _ _); [reflexivity | apply Hsm1].
  - destruct (bridge_pair_other vh nh sm1 (a, b) (a + j)) as [-> ->]; [auto|].
    exact Hsm1.
Qed.

End Anchors.

(** *** Anchors and gaps by index *)

Section Gaps.

Context {num : Type} {SN : Scalar num} {B : ByteOrder num}.

Lemma zero_not_gt0 (l : list num) :
  Forall (fun v => v = zero) l -> Forall (fun v => gt0 v = false) l.
Proof.
  intros Hl. eapply Forall_impl; [exact Hl|]. intros v ->. apply gt0_zero.
Qed.

Lemma split_at_zeros (l : list num) (n : nat) :
  (forall k, (k < n)%nat -> l !! k = Some zero) -> (n <= length l)%nat ->
  l = take n l ++ drop n l /\ Forall (fun v => v = zero) (take n l) /\
  length (take n l) = n.
Proof.
  intros Hz Hn. split; [now rewrite take_drop|]. split.
  - apply Forall_lookup. intros i v Hi.
    pose proof (lookup_lt_Some _ _ _ Hi) as Hlt. rewrite length_take in Hlt.
    rewrite lookup_take_lt in Hi by lia. rewrite Hz in Hi by lia. congruence.
  - rewrite length_take. lia.
Qed.

Lemma consecutive_anchors_split (vh : list num) (a b : nat) (x y : num) :
  consecutive_anchors vh a b x y ->
  exists pre mid post,
    vh = pre ++ x :: mid ++ y :: post /\ length pre = a /\
    length mid = (b - a - 1)%nat /\ Forall (fun v => v = zero) mid.
Proof.
  intros (Hab & Ha & Hb & _ & _ & Hgap).
  pose proof (lookup_lt_Some _ _ _ Ha) as Hla.
  pose proof (lookup_lt_Some _ _ _ Hb) as Hlb.
  set (rest := drop (S a) vh).
  assert (Hrest : vh = take a vh ++ x :: rest) by (symmetry; now apply take_drop_middle).
  assert (Hy : rest !! (b - a - 1)%nat = Some y).
  { unfold rest. rewrite lookup_drop. rewrite <- Hb. f_equal. lia. }
  assert (Hz : forall k, (k < b - a - 1)%nat -> rest !! k = Some zero).
  { intros k Hk. unfold rest. rewrite lookup_drop. apply Hgap. lia. }
  pose proof (lookup_lt_Some _ _ _ Hy) as Hlr.
  destruct (split_at_zeros rest (b - a - 1) Hz) as (_ & Hmid & Hlm); [lia|].
  exists (take a vh), (take (b - a - 1) rest), (drop (S (b - a - 1)) rest).
  split; [|split; [|split]].
  - rewrite (take_drop_middle rest (b - a - 1) y Hy). exact Hrest.
  - rewrite length_take. lia.
  - exact Hlm.
  - exact Hmid.
Qed.

(** The samples of a gap between consecutive anchors after the bridging pass. *)
Lemma bridge_gaps_between (vh : list num) (nh : list Z) (a b : nat) (x y : num) (j : nat) :
  Forall sample vh -> length nh = length vh ->
  consecutive_anchors vh a b x y -> (1 <= j <= b - a - 1)%nat ->
  if bridgeable (a, b) then
    (bridge_gaps vh nh).1 !! (a + j)%nat = Some (bridged_value x y (b - a - 1) j) /\
    (bridge_gaps vh nh).2 !! (a + j)%nat
      = match bridged_note (item_note nh a) (item_note nh b) with
        | Some n => Some n
        | None => nh !! (a + j)%nat
        end
  else
    (bridge_gaps vh nh).1 !! (a + j)%nat = Some zero /\
    (bridge_gaps vh nh).2 !! (a + j)%nat = nh !! (a + j)%nat.
Proof.
  intros Hs Hnh Hca Hj.
  destruct (consecutive_anchors_split vh a b x y Hca)
    as (pre & mid & post & Hvh & Hpre & Hmid & Hz).
  destruct Hca as (Hab & Ha & Hb & Hx & Hy & Hgap).
  assert (Hgx : gt0 x = true).
  { apply sample_gt0_iff; [|assumption].
    exact (proj1 (Forall_lookup _ _) Hs a x Ha). }
  assert (Hgy : gt0 y = true).
  { apply sample_gt0_iff; [|assumption].
    exact (proj1 (Forall_lookup _ _) Hs b y Hb). }
  pose proof (bridge_gaps_gap pre mid post x y nh j Hgx Hgy (zero_not_gt0 _ Hz)) as Hg.
  rewrite <- Hvh in Hg. specialize (Hg Hnh). rewrite Hmid in Hg. specialize (Hg Hj).
  cbv zeta in Hg. rewrite Hpre in Hg.
  replace (a + (b - a - 1) + 1)%nat with b in Hg by lia.
  destruct (bridgeable (a, b)); [exact Hg|].
  destruct Hg as [Hg1 Hg2]. split; [|exact Hg2].
  rewrite Hg1. apply Hgap. lia.
Qed.

(** A non-zero sample is still itself, and [> 0], after the bridging pass. *)
Lemma bridge_gaps_nonzero (vh : list num) (nh : list Z) (i : nat) (x : num) :
  Forall sample vh -> vh !! i = Some x -> x <> zero ->
  (bridge_gaps vh nh).1 !! i = Some x /\ gt0 (item (bridge_gaps vh nh).1 i) = true.
Proof.
  intros Hs Hi Hx.
  assert (Hgx : gt0 x = true).
  { apply sample_gt0_iff; [|assumption].
    exact (proj1 (Forall_lookup _ _) Hs i x Hi). }
  pose proof (lookup_lt_Some _ _ _ Hi) as Hlt.
  pose proof (take_drop_middle vh i x Hi) as Hsplit.
  destruct (bridge_gaps_anchor (take i vh) (drop (S i) vh) x nh Hgx) as [Hv _].
  rewrite Hsplit, length_take in Hv. replace (i `min` length vh)%nat with i in Hv by lia.
  split; [exact Hv|]. unfold item. now rewrite Hv.
Qed.

(** A zero sample with only zeros before it, or only zeros after it, is still
    zero after the bridging pass. *)
Lemma bridge_gaps_border (vh : list num) (nh : list Z) (k : nat) :
  (k < length vh)%nat ->
  (forall i, (i <= k)%nat -> vh !! i = Some zero) \/
  (forall i, (k <= i < length vh)%nat -> vh !! i = Some zero) ->
  (bridge_gaps vh nh).1 !! k = Some zero /\ (bridge_gaps vh nh).2 !! k = nh !! k.
Proof.
  intros Hk [Hz|Hz].
  - destruct (split_at_zeros vh (S k)) as (Hsplit & Hpre & Hlen);
      [intros i Hi; apply Hz; lia | lia |].
    destruct (bridge_gaps_leading (take (S k) vh) (drop (S k) vh) nh k
                (zero_not_gt0 _ Hpre)) as [Hv Hn]; [lia|].
    rewrite <- Hsplit in Hv, Hn. split; [|exact Hn]. rewrite Hv. apply Hz. lia.
  - assert (Hpost : Forall (fun v => v = zero) (drop k vh)).
    { apply Forall_lookup. intros i v Hi. rewrite lookup_drop in Hi.
      pose proof (lookup_lt_Some _ _ _ Hi) as Hlt.
      rewrite Hz in Hi by lia. congruence. }
    destruct (bridge_gaps_trailing (take k vh) (drop k vh) nh k
                (zero_not_gt0 _ Hpost)) as [Hv Hn]; [rewrite length_take; lia|].
    rewrite take_drop in Hv, Hn. split; [|exact Hn]. rewrite Hv. apply Hz. lia.
Qed.

End Gaps.

(** ** The smoother on concrete buffers *)

Lemma gap_of_five_wf : wf gap_of_five.
Proof. apply after_ticks_wf. valid_events. Qed.

Lemma gap_of_25_wf : wf gap_of_25.
Proof. apply after_ticks_wf. simpl. valid_events. Qed.

Lemma gap_of_five_anchors :
  consecutive_anchors (velocity_history gap_of_five) 293 299 80%float 100%float.
Proof.
  split; [lia|]. split; [vm_compute; reflexivity|]. split; [vm_compute; reflexivity|].
  split; [apply float_distinct; vm_compute; reflexivity|].
  split; [apply float_distinct; vm_compute; reflexivity|].
  intros k Hk.
  assert (Hcases : (k = 294 \/ k = 295 \/ k = 296 \/ k = 297 \/ k = 298)%nat) by lia.
  repeat destruct Hcases as [->|Hcases]; try subst k; vm_compute; reflexivity.
Qed.

Lemma gap_of_25_anchors :
  consecutive_anchors (velocity_history gap_of_25) 273 299 80%float 100%float.
Proof.
  split; [lia|]. split; [vm_compute; reflexivity|]. split; [vm_compute; reflexivity|].
  split; [apply float_distinct; vm_compute; reflexivity|].
  split; [apply float_distinct; vm_compute; reflexivity|].
  intros k Hk.
  assert (Hseg : take 25 (drop 274 (velocity_history gap_of_25)) = replicate 25 zero)
    by (vm_compute; reflexivity).
  replace k with (274 + (k - 274))%nat by lia.
  rewrite <- lookup_drop, <- (lookup_take_lt _ 25) by lia.
  rewrite Hseg. apply lookup_replicate_2. lia.
Qed.

Lemma smoothed_zero {num : Type} {SN : Scalar num} {B : ByteOrder num}
    (vh : list num) (nh : list Z) (k : nat) :
  (bridge_gaps vh nh).1 !! k = Some zero -> (smoothed_series vh nh).1 !! k = Some zero.
Proof.
  intros Hk. unfold smoothed_series. simpl.
  rewrite moving_average_not_pos; [exact Hk|].
  unfold item. rewrite Hk. apply gt0_zero.
Qed.

Lemma bridgeable_short (a b : nat) :
  (0 < b - a - 1 <= gap_threshold)%nat -> bridgeable (a, b) = true.
Proof.
  intros HG. unfold bridgeable, gap_size_of. simpl. apply andb_true_iff. split.
  - apply Nat.leb_le. lia.
  - apply Nat.ltb_lt. lia.
Qed.

Lemma bridgeable_long (a b : nat) :
  (gap_threshold < b - a - 1)%nat -> bridgeable (a, b) = false.
Proof.
  intros HG. unfold bridgeable, gap_size_of. simpl. apply andb_false_iff. left.
  apply Nat.leb_gt. exact HG.
Qed.

(** *** Interpolated values in binary64 *)

(** No interpolated value between two non-zero MIDI velocities, for any
    bridgeable gap size and any position in the gap, is below its floor, and
    all are [> 0]: all 127 * 127 * 210 cases, evaluated in binary64. *)
Lemma floor_inactive_everywhere :
  forallb (fun G => forallb (floor_inactive_at midi_velocities G) (seq 1 G))
          (seq 1 gap_threshold) = true.
Proof. vm_compute. reflexivity. Qed.

Lemma midi_velocity_listed (s : Z) : (1 <= s <= 127)%Z -> In (of_Z s) midi_velocities.
Proof.
  intros Hs. unfold midi_velocities. apply in_map.
  replace s with (Z.of_nat (Z.to_nat s)) by lia.
  apply in_map, in_seq. lia.
Qed.

Lemma floor_below_interpolation_b64 (s e : Z) (G j : nat) :
  (1 <= s <= 127)%Z -> (1 <= e <= 127)%Z ->
  (1 <= j <= G)%nat -> (G <= gap_threshold)%nat ->
  ltb (interp_vel (num := float) (of_Z s) (of_Z e) G j)
      (min_transition_velocity (of_Z s) (of_Z e)) = false /\
  gt0 (interp_vel (num := float) (of_Z s) (of_Z e) G j) = true.
Proof.
  intros Hs He Hj HG.
  assert (HinG : In G (seq 1 gap_threshold)) by (apply in_seq; lia).
  assert (Hinj : In j (seq 1 G)) by (apply in_seq; lia).
  pose proof (proj1 (forallb_forall _ _) floor_inactive_everywhere G HinG) as HG'.
  pose proof (proj1 (forallb_forall _ _) HG' j Hinj) as Hj'.
  unfold floor_inactive_at in Hj'.
  pose proof (proj1 (forallb_forall _ _) Hj' (of_Z s) (midi_velocity_listed s Hs)) as Hs'.
  pose proof (proj1 (forallb_forall _ _) Hs' (of_Z e) (midi_velocity_listed e He)) as Hall.
  apply andb_true_iff in Hall as [Hfloor Hpos].
  apply negb_true_iff in Hfloor. split; [exact Hfloor | exact Hpos].
Qed.

Lemma byte_of_nonzero_sample (x : float) :
  sample x -> x <> zero -> exists s, (1 <= s <= 127)%Z /\ x = of_Z s.
Proof.
  intros (b & Hb & ->) Hnz. exists b. split; [|reflexivity].
  unfold midi_data in Hb. destruct (Z.eq_dec b 0%Z) as [->|Hne]; [now elim Hnz | lia].
Qed.

(** In binary64 a bridged gap sample is the plain interpolation and is
    [> 0]. *)
Lemma bridged_value_b64 (s e : Z) (G j : nat) :
  (1 <= s <= 127)%Z -> (1 <= e <= 127)%Z ->
  (1 <= j <= G)%nat -> (G <= gap_threshold)%nat ->
  bridged_value (num := float) (of_Z s) (of_Z e) G j = interp_vel (of_Z s) (of_Z e) G j /\
  gt0 (bridged_value (num := float) (of_Z s) (of_Z e) G j) = true.
Proof.
  intros Hs He Hj HG.
  destruct (floor_below_interpolation_b64 s e G j Hs He Hj HG) as [Hfloor Hpos].
  assert (Heq : bridged_value (num := float) (of_Z s) (of_Z e) G j
                = interp_vel (of_Z s) (of_Z e) G j).
  { unfold bridged_value, py_max. now rewrite Hfloor. }
  split; [exact Heq | now rewrite Heq].
Qed.

(** The samples of a bridged gap of a binary64 history. *)
Lemma bridged_gap_b64 (vh : list float) (nh : list Z) (a b : nat) (x y : float) (j : nat) :
  Forall sample vh -> length nh = length vh ->
  consecutive_anchors vh a b x y ->
  (0 < b - a - 1 <= gap_threshold)%nat -> (1 <= j <= b - a - 1)%nat ->
  (bridge_gaps vh nh).1 !! (a + j)%nat = Some (interp_vel x y (b - a - 1) j) /\
  gt0 (item (bridge_gaps vh nh).1 (a + j)) = true.
Proof.
  intros Hs Hnh Hca HG Hj.
  pose proof (bridge_gaps_between vh nh a b x y j Hs Hnh Hca Hj) as Hb.
  rewrite (bridgeable_short a b HG) in Hb. destruct Hb as [Hv _].
  destruct Hca as (_ & Ha & Hb' & Hx & Hy & _).
  destruct (byte_of_nonzero_sample x (proj1 (Forall_lookup _ _) Hs a x Ha) Hx)
    as (s & Hs' & ->).
  destruct (byte_of_nonzero_sample y (proj1 (Forall_lookup _ _) Hs b y Hb') Hy)
    as (e & He' & ->).
  destruct (bridged_value_b64 s e (b - a - 1) j Hs' He') as [Heq Hpos]; [lia | lia |].
  unfold item. rewrite Hv. cbn [default]. split; [now rewrite Heq | exact Hpos].
Qed.

(** *** Interpolated values in exact arithmetic *)

Lemma interpolation_weight (G j : nat) :
  (1 <= j <= G)%nat ->
  (0 < IZR (Z.of_nat j) / IZR (Z.of_nat (G + 1)) < 1)%R.
Proof.
  intros Hj.
  assert (H0 : (0 < IZR (Z.of_nat j))%R) by (apply IZR_lt; lia).
  assert (H1 : (IZR (Z.of_nat j) < IZR (Z.of_nat (G + 1)))%R) by (apply IZR_lt; lia).
  assert (H2 : (0 < IZR (Z.of_nat (G + 1)))%R) by lra.
  split.
  - apply Rdiv_lt_0_compat; assumption.
  - apply (Rmult_lt_reg_r (IZR (Z.of_nat (G + 1)))); [assumption|].
    unfold Rdiv. rewrite Rmult_assoc, Rinv_l by lra. lra.
Qed.

(** In exact arithmetic an interpolated value lies between the two anchors. *)
Lemma interpolation_above_min_exact (s e : R) (G j : nat) :
  (0 < s)%R -> (0 < e)%R -> (1 <= j <= G)%nat ->
  (py_min s e <= interp_vel s e G j)%R /\
  (min_transition_velocity s e <= py_min s e)%R /\
  bridged_value s e G j = interp_vel s e G j.
Proof.
  intros Hs He Hj. pose proof (interpolation_weight G j Hj) as Ha.
  unfold bridged_value, py_max, min_transition_velocity, interp_vel, py_min,
    seven_tenths, of_nat. simpl. unfold ExactReal.ltb.
  set (alpha := (IZR (Z.of_nat j) / IZR (Z.of_nat (G + 1)))%R) in *.
  repeat match goal with |- context [Rlt_dec ?a ?b] => destruct (Rlt_dec a b) end;
    repeat split; try reflexivity; try nra.
Qed.

Lemma positive_of_nonzero_sample (x : R) : sample x -> x <> zero -> (0 < x)%R.
Proof.
  intros (b & Hb & ->) Hnz. unfold midi_data in Hb. simpl.
  apply IZR_lt. destruct (Z.eq_dec b 0%Z) as [->|Hne]; [now elim Hnz | lia].
Qed.

(** In exact arithmetic the interpolation is a line through the two anchors. *)
Lemma interp_vel_line (s e : R) (G j : nat) :
  interp_vel s e G 0 = s /\
  interp_vel s e G (G + 1) = e /\
  ((interp_vel s e G j + interp_vel s e G (j + 1) + interp_vel s e G (j + 2)) / 3
   = interp_vel s e G (j + 1))%R.
Proof.
  assert (HD : (0 < IZR (Z.of_nat (G + 1)))%R) by (apply IZR_lt; lia).
  unfold interp_vel, of_nat. simpl.
  replace (Z.of_nat (j + 1)) with (Z.of_nat j + 1)%Z by lia.
  replace (Z.of_nat (j + 2)) with (Z.of_nat j + 2)%Z by lia.
  rewrite !plus_IZR. change (Z.of_nat 0) with 0%Z.
  set (D := IZR (Z.of_nat (G + 1))) in *. clearbody D.
  set (J := IZR (Z.of_nat j)). clearbody J.
  repeat split; field; lra.
Qed.

(** In exact arithmetic the values at the two anchors and in the gap between
    them lie on that line. *)
Lemma bridged_line_exact (vh : list R) (nh : list Z) (a b : nat) (x y : R) (k : nat) :
  Forall sample vh -> length nh = length vh ->
  consecutive_anchors vh a b x y ->
  (0 < b - a - 1 <= gap_threshold)%nat -> (k <= b - a)%nat ->
  item (bridge_gaps vh nh).1 (a + k) = interp_vel x y (b - a - 1) k.
Proof.
  intros Hs Hnh Hca HG Hk. pose proof Hca as (Hab & Ha & Hb & Hx & Hy & _).
  pose proof (positive_of_nonzero_sample x (proj1 (Forall_lookup _ _) Hs a x Ha) Hx) as Hx0.
  pose proof (positive_of_nonzero_sample y (proj1 (Forall_lookup _ _) Hs b y Hb) Hy) as Hy0.
  destruct (interp_vel_line x y (b - a - 1) 0) as (H0 & H1 & _).
  unfold item.
  destruct (decide (k = 0%nat)) as [->|Hk0]; [|destruct (decide (k = (b - a)%nat)) as [->|Hkb]].
  - rewrite Nat.add_0_r, H0.
    now rewrite (proj1 (bridge_gaps_nonzero vh nh a x Hs Ha Hx)).
  - replace (a + (b - a))%nat with b by lia.
    replace (b - a)%nat with (b - a - 1 + 1)%nat at 2 by lia. rewrite H1.
    now rewrite (proj1 (bridge_gaps_nonzero vh nh b y Hs Hb Hy)).
  - pose proof (bridge_gaps_between vh nh a b x y k Hs Hnh Hca) as Hbr.
    rewrite (bridgeable_short a b HG) in Hbr. destruct Hbr as [Hv _]; [lia|].
    rewrite Hv. cbn [default].
    apply (interpolation_above_min_exact x y (b - a - 1) k Hx0 Hy0). lia.
Qed.

(** Hence, in exact arithmetic, the moving average leaves a bridged gap sample
    at its bridged value: what binary64 shows there is rounding. *)
Lemma averaged_gap_sample_exact (vh : list R) (nh : list Z) (a b : nat) (x y : R) (j : nat) :
  Forall sample vh -> length nh = length vh ->
  consecutive_anchors vh a b x y ->
  (0 < b - a - 1 <= gap_threshold)%nat -> (1 <= j <= b - a - 1)%nat ->
  mean3 (bridge_gaps vh nh).1 (a + j) = item (bridge_gaps vh nh).1 (a + j).
Proof.
  intros Hs Hnh Hca HG Hj. unfold mean3.
  replace (a + j - 1)%nat with (a + (j - 1))%nat by lia.
  replace (a + j + 1)%nat with (a + (j - 1 + 2))%nat by lia.
  replace (a + j)%nat with (a + (j - 1 + 1))%nat by lia.
  rewrite !(bridged_line_exact vh nh a b x y) by (assumption || lia).
  apply (interp_vel_line x y (b - a - 1) (j - 1)).
Qed.

(** ** C1: which samples the moving average touches *)

(** C1, as stated, fails: sample 294 of [gap_of_five] is zero in the raw
    buffer and is bridged to 83.33333333333334; the moving average is applied
    to it all the same.  Its neighbours are 80.0 and 86.66666666666667, and in
    binary64
      80.0 + 83.33333333333334 = 163.33333333333334,
      163.33333333333334 + 86.66666666666667 = 250.0,
      250.0 / 3 = 83.33333333333333,
    so the output differs from the bridged value.  (The three bridged values
    lie on a line, see [averaged_gap_sample_exact]: the two differ by rounding
    only.) *)
Lemma bridged_sample_is_averaged :
  item (velocity_history gap_of_five) 294 = zero /\
  item (bridged_of gap_of_five) 293 = 80%float /\
  item (bridged_of gap_of_five) 294 = 0x1.4d55555555556p+6%float /\
  item (bridged_of gap_of_five) 295 = 0x1.5aaaaaaaaaaabp+6%float /\
  (80 + 0x1.4d55555555556p+6 = 0x1.46aaaaaaaaaabp+7)%float /\
  (0x1.46aaaaaaaaaabp+7 + 0x1.5aaaaaaaaaaabp+6 = 250)%float /\
  (250 / 3 = 0x1.4d55555555555p+6)%float /\
  item (final_of gap_of_five) 294 = 0x1.4d55555555555p+6%float /\
  item (final_of gap_of_five) 294 = mean3 (bridged_of gap_of_five) 294 /\
  item (final_of gap_of_five) 294 <> item (bridged_of gap_of_five) 294.
Proof.
  repeat (split; [vm_compute; reflexivity|]).
  apply float_distinct; vm_compute; reflexivity.
Qed.

(** C1 (amended): for every index i with 0 < i < N-1 the output value at i is
    the mean of the bridged values at i-1, i, i+1 if the bridged value at i is
    [> 0], and the bridged value at i unchanged otherwise; the two end samples
    are left unsmoothed.  The bridged value is [> 0] at every sample whose raw
    value was non-zero and, in binary64, at every sample of a bridged gap,
    which is therefore averaged as well. *)
Theorem moving_average_follows_bridged_value :
  (forall (num : Type) (SN : Scalar num) (B : ByteOrder num)
          (vh : list num) (nh : list Z) (i : nat),
     Forall sample vh -> (i < length vh)%nat ->
     let bridged := (bridge_gaps vh nh).1 in
     let final := (smoothed_series vh nh).1 in
     ((0 < i)%nat -> (i + 1 < length vh)%nat ->
        final !! i
          = Some (if gt0 (item bridged i) then mean3 bridged i else item bridged i)) /\
     (i = 0%nat \/ (i + 1)%nat = length vh -> final !! i = bridged !! i) /\
     (forall x, vh !! i = Some x -> x <> zero -> gt0 (item bridged i) = true)) /\
  (forall (vh : list float) (nh : list Z) (a b : nat) (x y : float) (j : nat),
     Forall sample vh -> length nh = length vh ->
     consecutive_anchors vh a b x y ->
     (0 < b - a - 1 <= gap_threshold)%nat -> (1 <= j <= b - a - 1)%nat ->
     let bridged := (bridge_gaps vh nh).1 in
     gt0 (item bridged (a + j)) = true /\
     (smoothed_series vh nh).1 !! (a + j)%nat = Some (mean3 bridged (a + j))).
Proof.
  split.
  - intros num SN B vh nh i Hs Hi bridged final.
    destruct (bridge_gaps_length vh nh) as [Hlen _]. fold bridged in Hlen.
    split; [|split].
    + intros H0 HN. unfold final, smoothed_series. simpl. fold bridged.
      destruct (gt0 (item bridged i)) eqn:Hg.
      * apply moving_average_interior_pos; [assumption | lia | assumption].
      * rewrite moving_average_not_pos by assumption.
        unfold item. destruct (lookup_lt_is_Some_2 bridged i) as [v Hv]; [lia|].
        now rewrite Hv.
    + intros Hend. unfold final, smoothed_series. simpl. fold bridged.
      apply moving_average_ends. lia.
    + intros x Hx Hnz. now apply (bridge_gaps_nonzero vh nh i x).
  - intros vh nh a b x y j Hs Hnh Hca HG Hj bridged.
    destruct (bridged_gap_b64 vh nh a b x y j Hs Hnh Hca HG Hj) as [_ Hpos].
    fold bridged in Hpos. split; [exact Hpos|].
    destruct (bridge_gaps_length vh nh) as [Hlen _]. fold bridged in Hlen.
    destruct Hca as (Hab & _ & Hb & _).
    pose proof (lookup_lt_Some _ _ _ Hb) as Hlb.
    change ((smoothed_series vh nh).1) with (moving_average bridged).
    apply moving_average_interior_pos; [lia | lia | exact Hpos].
Qed.

Lemma moving_average_follows_bridged_value_witness :
  item (final_of gap_of_five) 294 = mean3 (bridged_of gap_of_five) 294.
Proof.
  destruct (proj1 moving_average_follows_bridged_value float binary64 _
              (velocity_history gap_of_five) (note_history gap_of_five) 294%nat)
    as (Hmid & _ & _).
  - apply gap_of_five_wf.
  - rewrite (wf_vlen _ gap_of_five_wf). unfold HISTORY_LENGTH. lia.
  - unfold final_of, update_graph, item. rewrite Hmid.
    + vm_compute. reflexivity.
    + lia.
    + rewrite (wf_vlen _ gap_of_five_wf). unfold HISTORY_LENGTH. lia.
Defined.

(** ** C4, C5: which gaps are bridged *)

(** C4: between consecutive anchors separated by a gap of G zero samples with
    0 < G <= 20, the bridging pass replaces the j-th gap sample by the linear
    interpolation of the two anchor velocities at j/(G+1), floored at 0.7 times
    the smaller anchor velocity.  For anchors 80 and 100 five zeros apart the
    five values increase strictly from 80 towards 100 and are all >= 56, after
    the bridging pass and in the final output.  A zero sample with no anchor
    before it, or none after it, stays zero, after the bridging pass and in
    the final output. *)
Theorem short_gaps_are_bridged :
  (forall (num : Type) (SN : Scalar num) (B : ByteOrder num)
          (vh : list num) (nh : list Z) (a b : nat) (x y : num) (j : nat),
     Forall sample vh -> length nh = length vh ->
     consecutive_anchors vh a b x y ->
     (0 < b - a - 1 <= gap_threshold)%nat -> (1 <= j <= b - a - 1)%nat ->
     (bridge_gaps vh nh).1 !! (a + j)%nat
       = Some (py_max (interp_vel x y (b - a - 1) j) (mul (py_min x y) seven_tenths))) /\
  (consecutive_anchors (velocity_history gap_of_five) 293 299 80%float 100%float /\
   map (item (bridged_of gap_of_five)) [294; 295; 296; 297; 298]%nat
     = [0x1.4d55555555556p+6; 0x1.5aaaaaaaaaaabp+6; 90;
        0x1.7555555555555p+6; 0x1.82aaaaaaaaaabp+6]%float /\
   strictly_increasing
     ([80] ++ map (item (bridged_of gap_of_five)) [294; 295; 296; 297; 298]%nat
           ++ [100])%float = true /\
   forallb (PrimFloat.leb 56)
     (map (item (bridged_of gap_of_five)) [294; 295; 296; 297; 298]%nat) = true /\
   strictly_increasing
     ([80] ++ map (item (final_of gap_of_five)) [294; 295; 296; 297; 298]%nat
           ++ [100])%float = true /\
   forallb (PrimFloat.leb 56)
     (map (item (final_of gap_of_five)) [294; 295; 296; 297; 298]%nat) = true) /\
  (forall (num : Type) (SN : Scalar num) (B : ByteOrder num)
          (vh : list num) (nh : list Z) (k : nat),
     (k < length vh)%nat ->
     (forall i, (i <= k)%nat -> vh !! i = Some zero) \/
     (forall i, (k <= i < length vh)%nat -> vh !! i = Some zero) ->
     (bridge_gaps vh nh).1 !! k = Some zero /\
     (smoothed_series vh nh).1 !! k = Some zero).
Proof.
  split; [|split].
  - intros num SN B vh nh a b x y j Hs Hnh Hca HG Hj.
    pose proof (bridge_gaps_between vh nh a b x y j Hs Hnh Hca Hj) as Hb.
    rewrite (bridgeable_short a b HG) in Hb. exact (proj1 Hb).
  - split; [exact gap_of_five_anchors|].
    repeat split; vm_compute; reflexivity.
  - intros num SN B vh nh k Hk Hz.
    destruct (bridge_gaps_border vh nh k Hk Hz) as [Hv _].
    split; [exact Hv | now apply smoothed_zero].
Qed.

Lemma short_gaps_are_bridged_witness :
  (bridge_gaps (velocity_history gap_of_five) (note_history gap_of_five)).1 !! (293 + 1)%nat
  = Some (py_max (interp_vel 80%float 100%float (299 - 293 - 1) 1)
                 (mul (py_min 80%float 100%float) seven_tenths)).
Proof.
  apply (proj1 short_gaps_are_bridged float binary64 _).
  - apply gap_of_five_wf.
  - rewrite (wf_vlen _ gap_of_five_wf), (wf_nlen _ gap_of_five_wf). reflexivity.
  - exact gap_of_five_anchors.
  - unfold gap_threshold. lia.
  - lia.
Defined.

(** C5: every sample of a gap between consecutive anchors that is longer than
    the threshold of 20 is exactly zero after the bridging pass and in the
    final output.  A gap of 25 zeros between 80 and 100 is left all zero. *)
Theorem long_gaps_stay_zero :
  (forall (num : Type) (SN : Scalar num) (B : ByteOrder num)
          (vh : list num) (nh : list Z) (a b : nat) (x y : num) (k : nat),
     Forall sample vh -> length nh = length vh ->
     consecutive_anchors vh a b x y ->
     (gap_threshold < b - a - 1)%nat -> (a < k < b)%nat ->
     (bridge_gaps vh nh).1 !! k = Some zero /\
     (smoothed_series vh nh).1 !! k = Some zero) /\
  (consecutive_anchors (velocity_history gap_of_25) 273 299 80%float 100%float /\
   map (item (bridged_of gap_of_25)) (seq 274 25) = replicate 25 zero /\
   map (item (final_of gap_of_25)) (seq 274 25) = replicate 25 zero).
Proof.
  split.
  - intros num SN B vh nh a b x y k Hs Hnh Hca HG Hk.
    pose proof (bridge_gaps_between vh nh a b x y (k - a) Hs Hnh Hca) as Hb.
    rewrite (bridgeable_long a b HG) in Hb.
    replace (a + (k - a))%nat with k in Hb by lia.
    destruct Hb as [Hv _]; [lia|].
    split; [exact Hv | now apply smoothed_zero].
  - split; [exact gap_of_25_anchors|].
    split; vm_compute; reflexivity.
Qed.

Lemma long_gaps_stay_zero_witness :
  (bridge_gaps (velocity_history gap_of_25) (note_history gap_of_25)).1 !! 280%nat
    = Some zero /\
  (smoothed_series (velocity_history gap_of_25) (note_history gap_of_25)).1 !! 280%nat
    = Some zero.
Proof.
  apply (proj1 long_gaps_stay_zero float binary64 _ _ _ 273%nat 299%nat 80%float 100%float).
  - apply gap_of_25_wf.
  - rewrite (wf_vlen _ gap_of_25_wf), (wf_nlen _ gap_of_25_wf). reflexivity.
  - exact gap_of_25_anchors.
  - unfold gap_threshold. lia.
  - lia.
Defined.

(** ** C10: the floor of the bridged values *)

(** C10, as stated, fails in binary64: between two anchors of velocity 3 nine
    zeros apart, the third interpolated value is
      alpha = 3 / 10 = 0.3,  1 - alpha = 0.7,
      3.0 * 0.7 = 2.0999999999999996,  3.0 * 0.3 = 0.8999999999999999,
      2.0999999999999996 + 0.8999999999999999 = 2.9999999999999996,
    below min(3, 3) = 3.  It is still above the floor 0.7 * 3, so the floor
    does not alter it. *)
Lemma interpolation_below_min :
  item (velocity_history gap_of_nine) 289 = 3%float /\
  item (velocity_history gap_of_nine) 299 = 3%float /\
  (3 / 10 = 0x1.3333333333333p-2)%float /\
  (1 - 0x1.3333333333333p-2 = 0x1.6666666666666p-1)%float /\
  (3 * 0x1.6666666666666p-1 = 0x1.0ccccccccccccp+1)%float /\
  (3 * 0x1.3333333333333p-2 = 0x1.cccccccccccccp-1)%float /\
  (0x1.0ccccccccccccp+1 + 0x1.cccccccccccccp-1 = 0x1.7ffffffffffffp+1)%float /\
  item (bridged_of gap_of_nine) 292 = 0x1.7ffffffffffffp+1%float /\
  interp_vel 3%float 3%float 9 3 = 0x1.7ffffffffffffp+1%float /\
  py_min 3%float 3%float = 3%float /\
  ltb (interp_vel 3%float 3%float 9 3) (py_min 3%float 3%float) = true /\
  ltb (interp_vel 3%float 3%float 9 3) (min_transition_velocity 3%float 3%float) = false.
Proof. repeat split; vm_compute; reflexivity. Qed.

(** C10 (amended): the floor never alters a value.  In binary64, for anchors
    with MIDI velocities 1..127 and a bridgeable gap (G <= 20), every
    interpolated value is at least the floor 0.7 * min(start_vel, end_vel), so
    max(interp, floor) = interp and the bridged samples are the plain linear
    interpolation.  In exact arithmetic, for all positive anchors,
    interp >= min(start_vel, end_vel) >= 0.7 * min(start_vel, end_vel) as well;
    in binary64 the first of these two inequalities holds up to rounding
    only. *)
Theorem floor_never_alters_bridged_value :
  (forall (s e : Z) (G j : nat),
     (1 <= s <= 127)%Z -> (1 <= e <= 127)%Z ->
     (1 <= j <= G)%nat -> (G <= gap_threshold)%nat ->
     ltb (interp_vel (num := float) (of_Z s) (of_Z e) G j)
         (min_transition_velocity (of_Z s) (of_Z e)) = false /\
     bridged_value (num := float) (of_Z s) (of_Z e) G j
       = interp_vel (of_Z s) (of_Z e) G j) /\
  (forall (vh : list float) (nh : list Z) (a b : nat) (x y : float) (j : nat),
     Forall sample vh -> length nh = length vh ->
     consecutive_anchors vh a b x y ->
     (0 < b - a - 1 <= gap_threshold)%nat -> (1 <= j <= b - a - 1)%nat ->
     (bridge_gaps vh nh).1 !! (a + j)%nat = Some (interp_vel x y (b - a - 1) j)) /\
  (forall (s e : R) (G j : nat),
     (0 < s)%R -> (0 < e)%R -> (1 <= j <= G)%nat ->
     (py_min s e <= interp_vel s e G j)%R /\
     (min_transition_velocity s e <= py_min s e)%R /\
     bridged_value s e G j = interp_vel s e G j).
Proof.
  split; [|split].
  - intros s e G j Hs He Hj HG. split.
    + exact (proj1 (floor_below_interpolation_b64 s e G j Hs He Hj HG)).
    + exact (proj1 (bridged_value_b64 s e G j Hs He Hj HG)).
  - intros vh nh a b x y j Hs Hnh Hca HG Hj.
    exact (proj1 (bridged_gap_b64 vh nh a b x y j Hs Hnh Hca HG Hj)).
  - exact interpolation_above_min_exact.
Qed.

Lemma floor_never_alters_bridged_value_witness :
  ltb (interp_vel (num := float) (of_Z 80) (of_Z 100) 5 1)
      (min_transition_velocity (of_Z 80) (of_Z 100)) = false /\
  bridged_value (num := float) (of_Z 80) (of_Z 100) 5 1
    = interp_vel (of_Z 80) (of_Z 100) 5 1.
Proof.
  apply (proj1 floor_never_alters_bridged_value 80%Z 100%Z 5%nat 1%nat).
  - lia.
  - lia.
  - lia.
  - unfold gap_threshold. lia.
Defined.

(** ** Note names *)

Lemma to_int_not_nil (z : Z) :
  Z.to_int z <> Decimal.Pos Decimal.Nil /\ Z.to_int z <> Decimal.Neg Decimal.Nil.
Proof.
  destruct z as [|p|p]; simpl; split; try discriminate;
    intros Heq; injection Heq as Heq; revert Heq; apply DecimalPos.Unsigned.to_uint_nonnil.
Qed.

Lemma str_int_inj (a b : Z) : str_int a = str_int b -> a = b.
Proof.
  unfold str_int. intros Heq.
  destruct (to_int_not_nil a) as [Ha1 Ha2], (to_int_not_nil b) as [Hb1 Hb2].
  pose proof (DecimalString.NilZero.isi _ Ha1 Ha2) as Ia.
  pose proof (DecimalString.NilZero.isi _ Hb1 Hb2) as Ib.
  rewrite Heq in Ia. rewrite Ia in Ib. injection Ib as Ib.
  rewrite <- (DecimalZ.of_to a), <- (DecimalZ.of_to b). now rewrite Ib.
Qed.

(** The decimal form of an integer never starts with a sharp sign. *)
Lemma str_int_no_sharp (z : Z) (s : string) : str_int z <> String "#" s.
Proof.
  unfold str_int. destruct (Z.to_int z) as [d|d]; simpl; [|discriminate].
  destruct d; simpl; discriminate.
Qed.

Lemma pitch_class_cases (n : Z) :
  In (Z.to_nat (n mod 12)) (seq 0 12).
Proof.
  apply in_seq. pose proof (Z.mod_pos_bound n 12). lia.
Qed.

Ltac note_name_case Heq :=
  cbn in Heq;
  first
    [ discriminate Heq
    | injection Heq as Heq;
      first [ apply str_int_inj in Heq; lia
            | exfalso; exact (str_int_no_sharp _ _ Heq)
            | exfalso; exact (str_int_no_sharp _ _ (eq_sym Heq)) ] ].

(** X1: [get_note_name] names every note differently: the pitch class and the
    octave can be read back from the name.  Middle C (60) is C4, the lowest
    and the highest MIDI notes are C-1 and G9. *)
Theorem get_note_name_injective :
  (forall n m : Z, get_note_name n = get_note_name m <-> n = m) /\
  get_note_name 60 = "C4"%string /\ get_note_name 69 = "A4"%string /\
  get_note_name 0 = "C-1"%string /\ get_note_name 127 = "G9"%string /\
  get_note_name 61 = "C#4"%string.
Proof.
  split; [|repeat split; vm_compute; reflexivity].
  intros n m. split; [|now intros ->].
  unfold get_note_name. intros Heq.
  pose proof (Z.mod_pos_bound n 12 eq_refl) as Hn.
  pose proof (Z.mod_pos_bound m 12 eq_refl) as Hm.
  pose proof (Z.div_mod n 12 ltac:(discriminate)) as Hdn.
  pose proof (Z.div_mod m 12 ltac:(discriminate)) as Hdm.
  assert (Hn' : (n mod 12 = 0 \/ n mod 12 = 1 \/ n mod 12 = 2 \/ n mod 12 = 3 \/
                n mod 12 = 4 \/ n mod 12 = 5 \/ n mod 12 = 6 \/ n mod 12 = 7 \/
                n mod 12 = 8 \/ n mod 12 = 9 \/ n mod 12 = 10 \/ n mod 12 = 11)%Z) by lia.
  assert (Hm' : (m mod 12 = 0 \/ m mod 12 = 1 \/ m mod 12 = 2 \/ m mod 12 = 3 \/
                m mod 12 = 4 \/ m mod 12 = 5 \/ m mod 12 = 6 \/ m mod 12 = 7 \/
                m mod 12 = 8 \/ m mod 12 = 9 \/ m mod 12 = 10 \/ m mod 12 = 11)%Z) by lia.
  clear Hn Hm.
  repeat (destruct Hn' as [Hn'|Hn']); rewrite Hn' in Heq, Hdn;
    repeat (destruct Hm' as [Hm'|Hm']); rewrite Hm' in Heq, Hdm;
    note_name_case Heq.
Qed.

(** ** The debug log *)

Lemma add_debug_message_length (timestamp message : string) (log : list string) :
  (length log <= MAX_DEBUG_MESSAGES)%nat ->
  (length (add_debug_message timestamp message log) <= MAX_DEBUG_MESSAGES)%nat.
Proof.
  intros Hlen. unfold add_debug_message.
  destruct (Nat.ltb_spec MAX_DEBUG_MESSAGES
              (length (log ++ [("[" ++ timestamp ++ "] " ++ message)%string])))
    as [Hlt|Hge]; [|exact Hge].
  rewrite length_drop, length_app in *. simpl in *. lia.
Qed.

(** The log after a message: the last [MAX_DEBUG_MESSAGES] lines. *)
Lemma add_debug_message_window (timestamp message : string) (log : list string) :
  (length log <= MAX_DEBUG_MESSAGES)%nat ->
  add_debug_message timestamp message log
  = drop (length log + 1 - MAX_DEBUG_MESSAGES) (log ++ [log_line (timestamp, message)]).
Proof.
  intros Hlen. unfold add_debug_message, log_line. cbn [fst snd].
  rewrite length_app. cbn [length].
  destruct (Nat.ltb_spec MAX_DEBUG_MESSAGES (length log + 1)) as [Hlt|Hge].
  - replace (length log + 1 - MAX_DEBUG_MESSAGES)%nat with 1%nat by lia. reflexivity.
  - replace (length log + 1 - MAX_DEBUG_MESSAGES)%nat with 0%nat by lia. reflexivity.
Qed.

Lemma add_debug_messages_window (lines : list (string * string)) (log : list string) :
  (length log <= MAX_DEBUG_MESSAGES)%nat ->
  foldl (fun l timed => add_debug_message timed.1 timed.2 l) log lines
  = drop (length log + length lines - MAX_DEBUG_MESSAGES) (log ++ map log_line lines).
Proof.
  revert log. induction lines as [|[ts msg] lines IH]; intros log Hlen; cbn [foldl map].
  - rewrite app_nil_r. replace (length log + length [] - MAX_DEBUG_MESSAGES)%nat with 0%nat
      by (simpl; lia). reflexivity.
  - rewrite IH by now apply add_debug_message_length.
    rewrite add_debug_message_window by assumption. cbn [fst snd].
    set (k := (length log + 1 - MAX_DEBUG_MESSAGES)%nat).
    assert (Hk : (k <= length (log ++ [log_line (ts, msg)]))%nat)
      by (rewrite length_app; simpl; unfold k; lia).
    rewrite length_drop, length_app. cbn [length].
    rewrite <- (drop_app_le _ (map log_line lines)) by exact Hk.
    rewrite drop_drop, <- app_assoc. cbn [app]. f_equal. unfold k. lia.
Qed.

(** X2: The debug log is a sliding window: after any number of messages it holds
    the most recent [MAX_DEBUG_MESSAGES] = 20 lines, oldest first, each as
    "[time stamp] message". *)
Theorem debug_log_keeps_latest (lines : list (string * string)) (log : list string) :
  (length log <= MAX_DEBUG_MESSAGES)%nat ->
  let log' := foldl (fun l timed => add_debug_message timed.1 timed.2 l) log lines in
  log' = drop (length (log ++ map log_line lines) - MAX_DEBUG_MESSAGES)
              (log ++ map log_line lines) /\
  (length log' <= MAX_DEBUG_MESSAGES)%nat /\
  (MAX_DEBUG_MESSAGES <= length lines -> log' = drop (length lines - MAX_DEBUG_MESSAGES) (map log_line lines)).
Proof.
  intros Hlen log'. unfold log'. rewrite add_debug_messages_window by assumption.
  rewrite length_app, length_map. split; [reflexivity|]. split.
  - rewrite length_drop, length_app, length_map. lia.
  - intros Hmany. rewrite drop_app_ge by lia. f_equal. lia.
Qed.

Lemma debug_log_keeps_latest_witness :
  foldl (fun l timed => add_debug_message timed.1 timed.2 l) []
        [("12:00:00", "Debug mode enabled"); ("12:00:01", "History cleared")]%string
  = ["[12:00:00] Debug mode enabled"; "[12:00:01] History cleared"]%string.
Proof.
  destruct (debug_log_keeps_latest
              [("12:00:00", "Debug mode enabled"); ("12:00:01", "History cleared")]%string [])
    as [Heq _].
  - unfold MAX_DEBUG_MESSAGES. simpl. lia.
  - rewrite Heq. reflexivity.
Defined.

(** ** What the event loop keeps *)

Lemma selectable_cc_key (key : Z) :
  (K_1 <=? key)%Z && (key <=? K_9)%Z = true -> selectable_cc (key - K_0).
Proof. unfold K_1, K_9, K_0, selectable_cc. intros Hk. lia. Qed.

Lemma clicked_option_elem (mouse_pos : Z * Z) (ccs : list Z) (y_offset cc_num : Z) :
  clicked_option mouse_pos y_offset ccs = Some cc_num -> cc_num ∈ ccs.
Proof.
  revert y_offset. induction ccs as [|c ccs IH]; intros y_offset; simpl; [discriminate|].
  destruct (collidepoint _ _).
  - intros [= ->]. left.
  - intros Hc. right. eauto.
Qed.

Lemma selectable_cc_common (cc_num : Z) : cc_num ∈ common_ccs -> selectable_cc cc_num.
Proof.
  unfold common_ccs, selectable_cc. rewrite !elem_of_cons, elem_of_nil. lia.
Qed.

(** *** The display *)

Lemma debug_log_fields (d : Display) (timestamp message : string) :
  note_name (debug_log d timestamp message) = note_name d /\
  debug_mode (debug_log d timestamp message) = debug_mode d /\
  cc_dropdown_open (debug_log d timestamp message) = cc_dropdown_open d.
Proof. unfold debug_log. destruct (debug_mode d) eqn:Hd; simpl; auto. Qed.

Lemma debug_log_bounded (d : Display) (timestamp message : string) :
  (length (debug_messages d) <= MAX_DEBUG_MESSAGES)%nat ->
  (length (debug_messages (debug_log d timestamp message)) <= MAX_DEBUG_MESSAGES)%nat.
Proof.
  intros Hlen. unfold debug_log. destruct (debug_mode d); [|assumption].
  simpl. now apply add_debug_message_length.
Qed.

Lemma debug_log_quiet (d : Display) (timestamp message : string) :
  (debug_mode d = false -> debug_messages d = []) ->
  debug_mode (debug_log d timestamp message) = false ->
  debug_messages (debug_log d timestamp message) = [].
Proof.
  intros Hq. unfold debug_log. destruct (debug_mode d) eqn:Hd; simpl.
  - congruence.
  - intros _. now apply Hq.
Qed.

Section Loop.

Context {num : Type} {SN : Scalar num} {B : ByteOrder num}.

Lemma slot_sentinel : slot (num := num) zero (-1).
Proof. now left. Qed.

Lemma init_consistent : consistent (num := num) init_visualizer.
Proof.
  constructor.
  - exact init_wf.
  - intros n [=].
  - exact (Forall2_replicate _ _ _ _ slot_sentinel).
  - unfold selectable_cc. cbn. lia.
  - exact (eq_sym (map_size_empty (M := gmap Z) (A := color))).
  - reflexivity.
  - cbn. lia.
  - reflexivity.
Qed.

(** Writing to the log changes neither the core nor what the other display
    fields say about it. *)
Lemma consistent_debug_log (st : State (num := num)) (d : Display)
    (timestamp message : string) :
  consistent {| core := st; display := d |} ->
  consistent {| core := st; display := debug_log d timestamp message |}.
Proof.
  intros [Hwf Hn Hs Hc Hi Hname Hlog Hq].
  destruct (debug_log_fields d timestamp message) as (Hf1 & Hf2 & Hf3).
  constructor; simpl in *; try assumption.
  - now rewrite Hf1.
  - now apply debug_log_bounded.
  - now apply debug_log_quiet.
Qed.

Lemma note_on_consistent (st : State (num := num)) (d : Display) (note velocity : Z) :
  midi_data note -> midi_data velocity ->
  consistent {| core := st; display := d |} ->
  consistent {| core := note_on st note velocity;
                display := set_note_name d (get_note_name note) |}.
Proof.
  intros Hnote Hvel [Hwf Hn Hs Hc Hi Hname Hlog Hq].
  constructor; simpl in *; try assumption.
  - now apply note_on_wf.
  - intros n [= <-]. assumption.
  - destruct (note_colors st !! note) eqn:Hl; [assumption|].
    rewrite map_size_insert_None by assumption. lia.
  - reflexivity.
Qed.

Lemma note_off_consistent (st : State (num := num)) (d : Display) (note : Z) :
  consistent {| core := st; display := d |} ->
  consistent {| core := note_off st note; display := d |}.
Proof.
  intros [Hwf Hn Hs Hc Hi Hname Hlog Hq].
  constructor; simpl in *; try assumption. now apply note_off_wf.
Qed.

Lemma control_change_consistent (st : State (num := num)) (d : Display) (cc_num cc_value : Z) :
  midi_data cc_value ->
  consistent {| core := st; display := d |} ->
  consistent {| core := control_change st cc_num cc_value; display := d |}.
Proof.
  intros Hval [Hwf Hn Hs Hc Hi Hname Hlog Hq].
  constructor; simpl in *; try assumption. now apply control_change_wf.
Qed.

Lemma dispatch_consistent (v : Visualizer (num := num)) (timed : string * midi_event) :
  valid_event timed.2 -> consistent v -> consistent (dispatch v timed).
Proof.
  destruct v as [st d]. intros [Hd1 Hd2] Hv. unfold dispatch. cbn [core display].
  destruct (_ && _).
  { apply consistent_debug_log. now apply note_on_consistent. }
  destruct (_ || _).
  { apply consistent_debug_log. now apply note_off_consistent. }
  destruct (_ =? _)%Z.
  { apply consistent_debug_log. now apply control_change_consistent. }
  now apply consistent_debug_log.
Qed.

Lemma dispatch_all_consistent (events : list (string * midi_event))
    (v : Visualizer (num := num)) :
  Forall (fun timed : string * midi_event => valid_event timed.2) events ->
  consistent v -> consistent (foldl dispatch v events).
Proof.
  revert v. induction events as [|e events IH]; intros v Hev Hv; simpl; [assumption|].
  inversion Hev; subst. apply IH; [assumption|]. now apply dispatch_consistent.
Qed.

Lemma push_sample_consistent (st : State (num := num)) (d : Display) (note : Z) :
  current_note st = Some note ->
  consistent {| core := st; display := d |} ->
  consistent {| core := push_sample st note; display := d |}.
Proof.
  intros Hnote [Hwf Hn Hs Hc Hi Hname Hlog Hq]. cbn [core display] in *.
  destruct (push_sample_histories st note Hwf) as [Hvh Hnh].
  constructor; cbn [core display]; try assumption.
  - now apply push_sample_wf.
  - rewrite Hvh, Hnh. apply Forall2_app.
    + now apply Forall2_drop.
    + constructor; [|constructor]. right. now apply Hn.
Qed.

(** On valid input [process_midi] does not raise, and keeps the invariant. *)
Lemma process_midi_logged_consistent (v : Visualizer (num := num))
    (events : list (string * midi_event)) :
  Forall (fun timed : string * midi_event => valid_event timed.2) events ->
  consistent v ->
  exists v', process_midi_logged v events = Some v' /\ consistent v'.
Proof.
  intros Hev Hv. unfold process_midi_logged.
  pose proof (dispatch_all_consistent events v Hev Hv) as Hmid.
  destruct (foldl dispatch v events) as [st d]. cbn [core display].
  unfold update_history.
  destruct (is_note_active st) eqn:Ha.
  - destruct (wf_active _ (consistent_wf _ Hmid) Ha) as [note Hnote].
    cbn [core] in Hnote. rewrite Hnote.
    eexists. split; [reflexivity|]. now apply push_sample_consistent.
  - eexists. split; [reflexivity | assumption].
Qed.

Lemma clear_consistent (st : State (num := num)) (d : Display) :
  consistent {| core := st; display := d |} ->
  consistent {| core := clear st; display := d |}.
Proof.
  intros [Hwf Hn Hs Hc Hi Hname Hlog Hq]. cbn [core display] in *.
  constructor; cbn [core display].
  - now apply clear_wf.
  - exact Hn.
  - exact (Forall2_replicate _ _ _ _ slot_sentinel).
  - exact Hc.
  - exact (eq_sym (map_size_empty (M := gmap Z) (A := color))).
  - exact Hname.
  - exact Hlog.
  - exact Hq.
Qed.

Lemma set_selected_cc_consistent (st : State (num := num)) (d : Display) (n : Z) :
  selectable_cc n ->
  consistent {| core := st; display := d |} ->
  consistent {| core := set_selected_cc st n; display := d |}.
Proof.
  intros Hsel [Hwf Hn Hs Hc Hi Hname Hlog Hq].
  constructor; simpl in *; try assumption.
  destruct Hwf as [H1 H2 H3 H4 H5]. constructor; simpl; assumption.
Qed.

Lemma set_cc_dropdown_open_consistent (st : State (num := num)) (d : Display) (b : bool) :
  consistent {| core := st; display := d |} ->
  consistent {| core := st; display := set_cc_dropdown_open d b |}.
Proof. intros [Hwf Hn Hs Hc Hi Hname Hlog Hq]. constructor; simpl in *; assumption. Qed.

Lemma toggle_debug_consistent (st : State (num := num)) (d : Display) (timestamp : string) :
  consistent {| core := st; display := d |} ->
  consistent {| core := st; display := toggle_debug d timestamp |}.
Proof.
  intros [Hwf Hn Hs Hc Hi Hname Hlog Hq]. unfold toggle_debug.
  destruct (debug_mode d) eqn:Hd; constructor; simpl in *; try assumption;
    try reflexivity; try discriminate; try lia.
  now apply add_debug_message_length.
Qed.

Lemma left_click_consistent (v : Visualizer (num := num)) (timestamp : string)
    (mouse_pos : Z * Z) :
  consistent v -> consistent (left_click v timestamp mouse_pos).
Proof.
  destruct v as [st d]. intros Hv. unfold left_click. cbn [core display].
  destruct (collidepoint _ _); [now apply set_cc_dropdown_open_consistent|].
  destruct (cc_dropdown_open d); [|assumption].
  destruct (clicked_option _ _ _) as [cc_num|] eqn:Hc.
  - apply consistent_debug_log, set_cc_dropdown_open_consistent.
    apply set_selected_cc_consistent; [|assumption].
    eapply selectable_cc_common, clicked_option_elem, Hc.
  - now apply set_cc_dropdown_open_consistent.
Qed.

Lemma key_down_consistent (s : Visualizer (num := num) * bool) (timestamp : string) (key : Z) :
  consistent s.1 -> consistent (key_down s timestamp key).1.
Proof.
  destruct s as [[st d] r]. intros Hv. unfold key_down. cbn [fst snd core display].
  destruct (_ =? _)%Z; [assumption|].
  destruct (_ =? _)%Z; [now apply toggle_debug_consistent|].
  destruct (_ =? _)%Z; [now apply consistent_debug_log, clear_consistent|].
  destruct (_ && _) eqn:Hk; [|assumption].
  apply consistent_debug_log, set_selected_cc_consistent; [|assumption].
  now apply selectable_cc_key.
Qed.

Lemma handle_event_consistent (s : Visualizer (num := num) * bool)
    (timed : string * pygame_event) :
  consistent s.1 -> consistent (handle_event s timed).1.
Proof.
  intros Hv. unfold handle_event. destruct timed.2 as [|key|button mouse_pos|].
  - assumption.
  - now apply key_down_consistent.
  - destruct (_ =? _)%Z; [|assumption]. now apply left_click_consistent.
  - assumption.
Qed.

Lemma handle_events_consistent (events : list (string * pygame_event))
    (s : Visualizer (num := num) * bool) :
  consistent s.1 -> consistent (foldl handle_event s events).1.
Proof.
  revert s. induction events as [|e events IH]; intros s Hv; simpl; [assumption|].
  apply IH. now apply handle_event_consistent.
Qed.

Lemma frame_step_consistent (l : Loop (num := num)) (f : Frame) :
  valid_frame f -> consistent (visualizer l) ->
  exists l', frame_step l f = Some l' /\ consistent (visualizer l').
Proof.
  intros Hf Hv. unfold frame_step.
  pose proof (handle_events_consistent (pygame_events f) (visualizer l, running l) Hv) as Hs.
  destruct (polls l f).
  - destruct (process_midi_logged_consistent _ (midi_events f) Hf Hs) as (v' & -> & Hv').
    eexists. split; [reflexivity | assumption].
  - eexists. split; [reflexivity | assumption].
Qed.

Lemma run_consistent (frames : list Frame) (l : Loop (num := num)) :
  Forall valid_frame frames -> consistent (visualizer l) ->
  exists l', run l frames = Some l' /\ consistent (visualizer l').
Proof.
  revert l. induction frames as [|f frames IH]; intros l Hf Hv; simpl.
  - eauto.
  - inversion Hf; subst. destruct (running l); [|eauto].
    destruct (frame_step_consistent l f) as (l1 & -> & Hv1); [assumption..|].
    now apply IH.
Qed.

End Loop.

Lemma session_runs : run init_loop session = Some after_session.
Proof. vm_compute. reflexivity. Qed.

Lemma session_valid : Forall valid_frame session.
Proof.
  unfold session, valid_frame. cbn [midi_events].
  repeat first [ constructor | unfold midi_data; simpl; lia ].
Qed.

(** X3: The event loop never raises: whatever pygame events and MIDI events with
    7-bit data bytes arrive, every pass of [run] completes.  [process_midi]
    stores [current_note] into the integer array only after a note-on has
    set it; both histories keep their [HISTORY_LENGTH] slots and every
    velocity in the history is a data byte 0..127 stored as a float. *)
Theorem run_never_raises {num : Type} {SN : Scalar num} {B : ByteOrder num}
    (frames : list Frame) :
  Forall valid_frame frames ->
  exists l : Loop (num := num),
    run init_loop frames = Some l /\
    let st := core (visualizer l) in
    length (velocity_history st) = HISTORY_LENGTH /\
    length (note_history st) = HISTORY_LENGTH /\
    Forall sample (velocity_history st) /\
    (is_note_active st = true -> is_Some (current_note st)) /\
    midi_data (current_velocity st).
Proof.
  intros Hf.
  destruct (run_consistent frames init_loop Hf init_consistent) as (l & Hrun & Hl).
  exists l. split; [assumption|]. destruct (consistent_wf _ Hl). auto.
Qed.

Lemma run_never_raises_witness :
  exists l : Loop (num := float),
    run init_loop session = Some l /\
    let st := core (visualizer l) in
    length (velocity_history st) = HISTORY_LENGTH /\
    length (note_history st) = HISTORY_LENGTH /\
    Forall sample (velocity_history st) /\
    (is_note_active st = true -> is_Some (current_note st)) /\
    midi_data (current_velocity st).
Proof. apply (run_never_raises session). exact session_valid. Defined.



(** X5: The debug log never holds more than [MAX_DEBUG_MESSAGES] = 20 lines, and
    it is empty whenever debug mode is off: nothing is logged outside debug
    mode, and leaving debug mode clears the log. *)
Theorem debug_log_bounded_and_quiet {num : Type} {SN : Scalar num} {B : ByteOrder num}
    (frames : list Frame) (l : Loop (num := num)) :
  Forall valid_frame frames ->
  run init_loop frames = Some l ->
  let d := display (visualizer l) in
  (length (debug_messages d) <= MAX_DEBUG_MESSAGES)%nat /\
  (debug_mode d = false -> debug_messages d = []).
Proof.
  intros Hf Hrun d.
  destruct (run_consistent frames init_loop Hf init_consistent) as (l' & Hrun' & Hl).
  assert (l' = l) as -> by congruence.
  split; [exact (consistent_log _ Hl) | exact (consistent_quiet _ Hl)].
Qed.

Lemma debug_log_bounded_and_quiet_witness :
  let d := display (visualizer after_session) in
  (length (debug_messages d) <= MAX_DEBUG_MESSAGES)%nat /\
  (debug_mode d = false -> debug_messages d = []).
Proof.
  exact (debug_log_bounded_and_quiet (num := float) session after_session session_valid session_runs).
Defined.

(** X6: The controller that drives the velocity is always one the user interface
    offers: 1..9 (the number keys), 11 or 74 (the dropdown); it starts as 7. *)
Theorem selected_cc_is_selectable {num : Type} {SN : Scalar num} {B : ByteOrder num}
    (frames : list Frame) (l : Loop (num := num)) :
  Forall valid_frame frames ->
  run init_loop frames = Some l ->
  selectable_cc (selected_cc (core (visualizer l))).
Proof.
  intros Hf Hrun.
  destruct (run_consistent frames init_loop Hf init_consistent) as (l' & Hrun' & Hl).
  assert (l' = l) as -> by congruence.
  exact (consistent_selected _ Hl).
Qed.

Lemma selected_cc_is_selectable_witness :
  selectable_cc (selected_cc (core (visualizer after_session))).
Proof.
  exact (selected_cc_is_selectable (num := float) session after_session session_valid session_runs).
Defined.

(** X7: The note name on display always is the name of [current_note]:
    "No note" until the first note-on, [get_note_name(current_note)] from
    then on (a note-off does not reset it). *)
Theorem note_name_follows_current_note {num : Type} {SN : Scalar num} {B : ByteOrder num}
    (frames : list Frame) (l : Loop (num := num)) :
  Forall valid_frame frames ->
  run init_loop frames = Some l ->
  note_name (display (visualizer l)) = shown_note (current_note (core (visualizer l))) /\
  forall n, current_note (core (visualizer l)) = Some n -> midi_data n.
Proof.
  intros Hf Hrun.
  destruct (run_consistent frames init_loop Hf init_consistent) as (l' & Hrun' & Hl).
  assert (l' = l) as -> by congruence.
  split; [exact (consistent_name _ Hl) | exact (consistent_note _ Hl)].
Qed.

Lemma note_name_follows_current_note_witness :
  note_name (display (visualizer after_session))
    = shown_note (current_note (core (visualizer after_session))) /\
  forall n, current_note (core (visualizer after_session)) = Some n -> midi_data n.
Proof.
  exact (note_name_follows_current_note (num := float) session after_session
           session_valid session_runs).
Defined.

(** X8: The round-robin counter [color_index] always equals the number of notes
    in the colour table [note_colors], also across [clear]. *)
Theorem color_index_counts_colours {num : Type} {SN : Scalar num} {B : ByteOrder num}
    (frames : list Frame) (l : Loop (num := num)) :
  Forall valid_frame frames ->
  run init_loop frames = Some l ->
  color_index (core (visualizer l)) = size (note_colors (core (visualizer l))).
Proof.
  intros Hf Hrun.
  destruct (run_consistent frames init_loop Hf init_consistent) as (l' & Hrun' & Hl).
  assert (l' = l) as -> by congruence.
  exact (consistent_index _ Hl).
Qed.

Lemma color_index_counts_colours_witness :
  color_index (core (visualizer after_session))
    = size (note_colors (core (visualizer after_session))).
Proof.
  exact (color_index_counts_colours (num := float) session after_session session_valid session_runs).
Defined.

(** ** Decoding the status byte *)

(** [data[0] & 0xF0] keeps the upper four bits of a status byte. *)
Lemma status_nibble (status_byte : Z) :
  (0 <= status_byte <= 255)%Z -> Z.land status_byte 0xF0 = (16 * (status_byte / 16))%Z.
Proof.
  intros Hb.
  assert (Hall : forallb (fun b => Z.land b 0xF0 =? 16 * (b / 16))%Z (bytes_upto 255) = true)
    by (vm_compute; reflexivity).
  apply Z.eqb_eq. refine (proj1 (forallb_forall _ _) Hall status_byte _).
  apply bytes_upto_complete. lia.
Qed.

(** The status nibble is [kind] exactly for the sixteen status bytes from
    [kind] on. *)
Lemma status_nibble_range (status_byte kind : Z) :
  (0 <= status_byte <= 255)%Z -> In kind [0x80; 0x90; 0xB0]%Z ->
  (Z.land status_byte 0xF0 =? kind)%Z
  = (kind <=? status_byte)%Z && (status_byte <=? kind + 15)%Z.
Proof.
  intros Hb Hk. rewrite (status_nibble status_byte Hb).
  pose proof (Z.div_mod status_byte 16 ltac:(discriminate)) as Hdm.
  pose proof (Z.mod_pos_bound status_byte 16 eq_refl) as Hm.
  assert (Hkind : exists q, kind = (16 * q)%Z).
  { destruct Hk as [<-|[<-|[<-|[]]]]; [now exists 8%Z | now exists 9%Z | now exists 11%Z]. }
  destruct Hkind as [q ->].
  destruct (Z.eqb_spec (16 * (status_byte / 16)) (16 * q)),
    (Z.leb_spec (16 * q) status_byte), (Z.leb_spec status_byte (16 * q + 15));
    cbn [andb]; try reflexivity; exfalso; lia.
Qed.

(** X9: [process_midi] decodes a message by the upper four bits of its status
    byte alone, whatever the channel in the lower four: 0x90..0x9F with a
    velocity above zero is a note-on and with velocity zero a note-off,
    0x80..0x8F is a note-off, 0xB0..0xBF a control change; every other
    status byte leaves the state as it is. *)
Theorem status_byte_classification {num : Type} {SN : Scalar num}
    (st : State (num := num)) (status_byte d1 d2 : Z) :
  (0 <= status_byte <= 255)%Z ->
  process_event st {| data0 := status_byte; data1 := d1; data2 := d2 |}
  = if (0x90 <=? status_byte)%Z && (status_byte <=? 0x9F)%Z then
      if (0 <? d2)%Z then note_on st d1 d2
      else if (d2 =? 0)%Z then note_off st d1 else st
    else if (0x80 <=? status_byte)%Z && (status_byte <=? 0x8F)%Z then note_off st d1
    else if (0xB0 <=? status_byte)%Z && (status_byte <=? 0xBF)%Z then control_change st d1 d2
    else st.
Proof.
  intros Hb. unfold process_event. cbn [data0 data1 data2].
  rewrite !(status_nibble_range status_byte _ Hb) by (vm_compute; auto 12).
  change (0x90 + 15)%Z with 0x9F%Z. change (0x80 + 15)%Z with 0x8F%Z.
  change (0xB0 + 15)%Z with 0xBF%Z.
  destruct (Z.leb_spec 0x90 status_byte), (Z.leb_spec status_byte 0x9F),
    (Z.leb_spec 0x80 status_byte), (Z.leb_spec status_byte 0x8F),
    (Z.leb_spec 0xB0 status_byte), (Z.leb_spec status_byte 0xBF);
    try (exfalso; lia); cbn [andb orb];
    destruct (0 <? d2)%Z, (d2 =? 0)%Z; reflexivity.
Qed.

Lemma status_byte_classification_witness :
  process_event (num := float) init {| data0 := 0x93; data1 := 60; data2 := 0 |}
  = note_off init 60.
Proof.
  rewrite (status_byte_classification init 0x93 60 0); [reflexivity | lia].
Defined.

(** ** The controller dropdown *)

Lemma drawn_options_top (ccs : list Z) (y_offset cc_num : Z) (r : Rect) :
  (cc_num, r) ∈ drawn_options y_offset ccs ->
  (y_offset <= top r)%Z /\ left r = left cc_button_rect /\
  width r = width cc_button_rect /\ height r = 28%Z.
Proof.
  revert y_offset. induction ccs as [|c ccs IH]; intros y_offset; simpl.
  - intros Hin. now apply elem_of_nil in Hin.
  - intros Hin. apply elem_of_cons in Hin as [[= -> ->]|Hin].
    + unfold option_rect. cbn [left top width height].
      split; [lia | repeat split; reflexivity].
    + apply IH in Hin. destruct Hin as (Ht & Hrest). split; [lia | exact Hrest].
Qed.

(** The loop of [run] finds the option whose drawn rectangle holds the mouse
    position. *)
Lemma clicked_option_drawn (mouse_pos : Z * Z) (ccs : list Z) (y_offset cc_num : Z) (r : Rect) :
  (cc_num, r) ∈ drawn_options y_offset ccs -> collidepoint r mouse_pos = true ->
  clicked_option mouse_pos y_offset ccs = Some cc_num.
Proof.
  revert y_offset. induction ccs as [|c ccs IH]; intros y_offset; simpl.
  - intros Hin. now apply elem_of_nil in Hin.
  - intros Hin Hr. destruct (collidepoint (option_rect y_offset) mouse_pos) eqn:Hc.
    + apply elem_of_cons in Hin as [[= -> ->]|Hin]; [reflexivity|].
      apply drawn_options_top in Hin. exfalso.
      unfold collidepoint, option_rect in *. cbn [left top width height] in *. lia.
    + apply elem_of_cons in Hin as [[= -> ->]|Hin]; [congruence|]. now apply IH.
Qed.

Lemma clicked_option_none (mouse_pos : Z * Z) (ccs : list Z) (y_offset : Z) :
  (forall cc_num r, (cc_num, r) ∈ drawn_options y_offset ccs ->
                    collidepoint r mouse_pos = false) ->
  clicked_option mouse_pos y_offset ccs = None.
Proof.
  revert y_offset. induction ccs as [|c ccs IH]; intros y_offset Hall; simpl; [reflexivity|].
  rewrite (Hall c (option_rect y_offset)) by (simpl; left).
  apply IH. intros cc_num r Hin. apply (Hall cc_num r). simpl. now right.
Qed.

Lemma drawn_options_listed :
  drawn_options dropdown_top common_ccs
  = [(1, option_rect 445); (2, option_rect 475); (7, option_rect 505);
     (11, option_rect 535); (74, option_rect 565)]%Z.
Proof. reflexivity. Qed.

(** The options are drawn above the button. *)
Lemma drawn_options_off_button (mouse_pos : Z * Z) (cc_num : Z) (r : Rect) :
  (cc_num, r) ∈ drawn_options dropdown_top common_ccs -> collidepoint r mouse_pos = true ->
  collidepoint cc_button_rect mouse_pos = false.
Proof.
  rewrite drawn_options_listed, !elem_of_cons, elem_of_nil.
  unfold collidepoint, cc_button_rect, option_rect, WINDOW_HEIGHT.
  cbn [left top width height].
  intros [[= -> ->]|[[= -> ->]|[[= -> ->]|[[= -> ->]|[[= -> ->]|[]]]]]] Hr;
    cbn [left top width height] in Hr; lia.
Qed.

(** X10: A left click while the dropdown is open.  On one of the five option
    rectangles [render_cc_button] draws (controllers 1, 2, 7, 11 and 74,
    stacked above the button) it selects that controller and closes the
    dropdown, changing nothing else in the core; on the button it closes the
    dropdown; anywhere else it closes the dropdown and selects nothing.
    While the dropdown is closed only a click on the button has an effect:
    it opens the dropdown. *)
Theorem dropdown_click_selects_drawn_option {num : Type} {SN : Scalar num}
    (v : Visualizer (num := num)) (timestamp : string) (mouse_pos : Z * Z) :
  let v' := left_click v timestamp mouse_pos in
  drawn_options dropdown_top common_ccs
    = [(1, option_rect 445); (2, option_rect 475); (7, option_rect 505);
       (11, option_rect 535); (74, option_rect 565)]%Z /\
  (forall cc_num r,
     cc_dropdown_open (display v) = true ->
     (cc_num, r) ∈ drawn_options dropdown_top common_ccs ->
     collidepoint r mouse_pos = true ->
     core v' = set_selected_cc (core v) cc_num /\
     cc_dropdown_open (display v') = false) /\
  (collidepoint cc_button_rect mouse_pos = true ->
     core v' = core v /\
     cc_dropdown_open (display v') = negb (cc_dropdown_open (display v))) /\
  (collidepoint cc_button_rect mouse_pos = false ->
     (forall cc_num r, (cc_num, r) ∈ drawn_options dropdown_top common_ccs ->
                       collidepoint r mouse_pos = false) ->
     core v' = core v /\ cc_dropdown_open (display v') = false) /\
  (cc_dropdown_open (display v) = false ->
     collidepoint cc_button_rect mouse_pos = false -> v' = v).
Proof.
  intros v'. split; [exact drawn_options_listed|]. unfold v', left_click.
  split; [|split; [|split]].
  - intros cc_num r Hopen Hin Hr.
    rewrite (drawn_options_off_button mouse_pos cc_num r Hin Hr), Hopen.
    rewrite (clicked_option_drawn mouse_pos common_ccs dropdown_top cc_num r Hin Hr).
    cbn [core display]. split; [reflexivity|].
    now destruct (debug_log_fields (set_cc_dropdown_open (display v) false) timestamp
                    ("Selected CC" ++ str_int cc_num)%string) as (_ & _ & ->).
  - intros ->. cbn [core display]. auto.
  - intros -> Hnone. rewrite (clicked_option_none mouse_pos common_ccs dropdown_top Hnone).
    destruct (cc_dropdown_open (display v)) eqn:Hopen; cbn [core display]; auto.
  - intros -> ->. reflexivity.
Qed.

Lemma dropdown_click_selects_drawn_option_witness :
  core (left_click (visualizer after_session) "12:00:03" (100, 510)%Z)
    = set_selected_cc (core (visualizer after_session)) 7 /\
  cc_dropdown_open (display (left_click (visualizer after_session) "12:00:03" (100, 510)%Z))
    = false.
Proof.
  apply (proj1 (proj2 (dropdown_click_selects_drawn_option (visualizer after_session)
                         "12:00:03" (100, 510)%Z)) 7%Z (option_rect 505)).
  - reflexivity.
  - rewrite drawn_options_listed. do 2 right. left.
  - reflexivity.
Defined.

(** ** The number keys *)

Lemma control_change_status (ch : Z) : (0 <= ch < 16)%Z -> Z.land (0xB0 + ch) 0xF0 = 0xB0%Z.
Proof.
  intros Hch. rewrite status_nibble by lia.
  pose proof (Z.div_mod (0xB0 + ch) 16 ltac:(discriminate)) as Hdm.
  pose proof (Z.mod_pos_bound (0xB0 + ch) 16 eq_refl) as Hm.
  lia.
Qed.

(** X11: A number key [n] in 1..9 makes controller [n] the velocity source and
    changes nothing else in the core: from then on a control change of
    controller [n], on any channel, sets the current velocity, and a control
    change of any other controller (the default 7 included, unless [n] is 7)
    leaves it alone. *)
Theorem number_key_selects_controller {num : Type} {SN : Scalar num}
    (v : Visualizer (num := num)) (r : bool) (timestamp : string) (n : Z) :
  (1 <= n <= 9)%Z ->
  let s := key_down (v, r) timestamp (K_0 + n) in
  core s.1 = set_selected_cc (core v) n /\ s.2 = r /\
  forall ch cc_num value, (0 <= ch < 16)%Z ->
    current_velocity
      (process_event (core s.1) {| data0 := 0xB0 + ch; data1 := cc_num; data2 := value |})
    = if (cc_num =? n)%Z then value else current_velocity (core v).
Proof.
  intros Hn s. unfold s, key_down, K_0, K_ESCAPE, K_d, K_c, K_1, K_9. cbn [fst snd].
  destruct (Z.eqb_spec (48 + n) 27) as [?|_]; [lia|].
  destruct (Z.eqb_spec (48 + n) 100) as [?|_]; [lia|].
  destruct (Z.eqb_spec (48 + n) 99) as [?|_]; [lia|].
  destruct (Z.leb_spec 49 (48 + n)) as [_|?]; [|lia].
  destruct (Z.leb_spec (48 + n) 57) as [_|?]; [|lia].
  cbn [andb fst snd core]. replace (48 + n - 48)%Z with n by lia.
  split; [reflexivity|]. split; [reflexivity|].
  intros ch cc_num value Hch. unfold process_event. cbn [data0 data1 data2].
  rewrite (control_change_status ch Hch). reflexivity.
Qed.

Lemma number_key_selects_controller_witness :
  let s := key_down (init_visualizer (num := float), true) "12:00:00" (K_0 + 2) in
  core s.1 = set_selected_cc (core init_visualizer) 2 /\ s.2 = true /\
  forall ch cc_num value, (0 <= ch < 16)%Z ->
    current_velocity
      (process_event (core s.1) {| data0 := 0xB0 + ch; data1 := cc_num; data2 := value |})
    = if (cc_num =? 2)%Z then value else current_velocity (core (init_visualizer (num := float))).
Proof. apply (number_key_selects_controller init_visualizer true "12:00:00" 2). lia. Defined.

(** ** The history as a sliding window *)

Lemma drop_push {A} (l : list A) (x : A) (rest : list A) (k : nat) :
  l <> [] -> drop k ((drop 1 l ++ [x]) ++ rest) = drop (S k) (l ++ x :: rest).
Proof.
  destruct l as [|a l]; [congruence | intros _].
  simpl. rewrite drop_0, <- app_assoc. reflexivity.
Qed.

Lemma run_ticks_window {num : Type} {SN : Scalar num} {B : ByteOrder num}
    (ticks : list (list midi_event)) (st : State (num := num)) :
  wf st -> Forall (Forall valid_event) ticks ->
  exists st',
    run_ticks st ticks = Some st' /\ wf st' /\
    (length (pushed_samples st ticks) <= length ticks)%nat /\
    velocity_history st'
      = drop (length (pushed_samples st ticks))
             (velocity_history st ++ map (fun s => of_Z s.1) (pushed_samples st ticks)) /\
    note_history st'
      = drop (length (pushed_samples st ticks))
             (note_history st ++ map snd (pushed_samples st ticks)).
Proof.
  revert st. induction ticks as [|events rest IH]; intros st Hwf Hev.
  - exists st. cbn [run_ticks pushed_samples length map]. rewrite !app_nil_r, !drop_0. auto.
  - inversion Hev as [|? ? Hev1 Hev2]; subst.
    destruct (process_midi_histories st events Hwf Hev1) as (st1 & Hst1 & Hact & Hinact).
    destruct (process_midi_total st events Hwf Hev1) as (st1' & Hst1' & Hwf1).
    assert (st1' = st1) as -> by congruence.
    destruct (IH st1 Hwf1 Hev2) as (st' & Hrun & Hwf' & Hlen & Hvh & Hnh).
    exists st'. cbn [run_ticks pushed_samples]. rewrite Hst1.
    split; [exact Hrun|]. split; [exact Hwf'|].
    destruct (is_note_active (foldl process_event st events)) eqn:Ha.
    + destruct (Hact eq_refl) as (note & Hnote & Hv1 & Hn1). rewrite Hnote.
      cbn [app length map fst snd]. split; [lia|].
      rewrite Hvh, Hnh, Hv1, Hn1.
      split; apply drop_push, history_nonempty; apply Hwf.
    + destruct (Hinact eq_refl) as [Hv1 Hn1]. cbn [app length].
      split; [lia|]. now rewrite Hvh, Hnh, Hv1, Hn1.
Qed.

(** X12: The two histories are a sliding window over the pushed samples: after
    any run of ticks they hold, oldest first, the last [HISTORY_LENGTH]
    entries of the old history followed by the samples pushed since, one per
    tick at most.  Started from the initial state, fewer than
    [HISTORY_LENGTH] pushes leave the sentinels in front of the pushed
    samples; from [HISTORY_LENGTH] pushes on the history is exactly the last
    [HISTORY_LENGTH] pushed samples. *)
Theorem history_is_sliding_window {num : Type} {SN : Scalar num} {B : ByteOrder num}
    (ticks : list (list midi_event)) :
  Forall (Forall valid_event) ticks ->
  (forall st : State (num := num), wf st ->
     exists st',
       run_ticks st ticks = Some st' /\
       let pushed := pushed_samples st ticks in
       (length pushed <= length ticks)%nat /\
       velocity_history st'
         = drop (length pushed) (velocity_history st ++ map (fun s => of_Z s.1) pushed) /\
       note_history st' = drop (length pushed) (note_history st ++ map snd pushed)) /\
  (exists st' : State (num := num),
     run_ticks init ticks = Some st' /\
     let pushed := pushed_samples (num := num) init ticks in
     ((length pushed <= HISTORY_LENGTH)%nat ->
        velocity_history st'
          = replicate (HISTORY_LENGTH - length pushed) zero ++ map (fun s => of_Z s.1) pushed /\
        note_history st'
          = replicate (HISTORY_LENGTH - length pushed) (-1)%Z ++ map snd pushed) /\
     ((HISTORY_LENGTH <= length pushed)%nat ->
        velocity_history st'
          = map (fun s => of_Z s.1) (drop (length pushed - HISTORY_LENGTH) pushed) /\
        note_history st' = map snd (drop (length pushed - HISTORY_LENGTH) pushed))).
Proof.
  intros Hev. split.
  - intros st Hwf.
    destruct (run_ticks_window ticks st Hwf Hev) as (st' & Hrun & _ & Hlen & Hvh & Hnh).
    exists st'. cbv zeta. auto.
  - destruct (run_ticks_window (num := num) ticks init init_wf Hev)
      as (st' & Hrun & _ & Hlen & Hvh & Hnh).
    exists st'. split; [exact Hrun|]. cbv zeta.
    set (pushed := pushed_samples init ticks) in *.
    change (velocity_history init) with (replicate HISTORY_LENGTH (zero (num := num))) in Hvh.
    change (note_history (num := num) init) with (replicate HISTORY_LENGTH (-1)%Z) in Hnh.
    split.
    + intros Hk. rewrite Hvh, Hnh.
      rewrite !drop_app_le by (rewrite length_replicate; lia).
      now rewrite !drop_replicate.
    + intros Hk. rewrite Hvh, Hnh.
      rewrite !drop_app_ge by (rewrite length_replicate; lia).
      rewrite !length_replicate, !skipn_map. auto.
Qed.

Lemma history_is_sliding_window_witness :
  exists st' : State (num := float),
    run_ticks held_note three_samples_ticks = Some st' /\
    let pushed := pushed_samples held_note three_samples_ticks in
    (length pushed <= length three_samples_ticks)%nat /\
    velocity_history st'
      = drop (length pushed) (velocity_history held_note ++ map (fun s => of_Z s.1) pushed) /\
    note_history st' = drop (length pushed) (note_history held_note ++ map snd pushed).
Proof.
  apply (proj1 (history_is_sliding_window (num := float) three_samples_ticks
                  ltac:(valid_events)) held_note held_note_wf).
Defined.

(** ** Controllers and the velocity *)

(** One event, on the controller table, the velocity and the selection. *)
Lemma process_event_values {num : Type} {SN : Scalar num}
    (st : State (num := num)) (ev : midi_event) :
  (forall cc_num,
     cc_values (process_event st ev) !! cc_num
     = match value_for cc_num ev with
       | Some v => Some v
       | None => cc_values st !! cc_num
       end) /\
  current_velocity (process_event st ev)
    = default (current_velocity st) (velocity_from (selected_cc st) ev) /\
  selected_cc (process_event st ev) = selected_cc st.
Proof.
  unfold process_event, velocity_from, value_for, is_note_on, is_control_change.
  destruct (Z.eqb_spec (Z.land (data0 ev) 0xF0) 0x90) as [H9|H9];
    destruct (Z.eqb_spec (Z.land (data0 ev) 0xF0) 0x80) as [H8|H8];
    destruct (Z.eqb_spec (Z.land (data0 ev) 0xF0) 0xB0) as [HB|HB];
    try (exfalso; congruence);
    destruct (0 <? data2 ev)%Z; destruct (data2 ev =? 0)%Z;
    cbn [andb orb note_on note_off control_change cc_values current_velocity selected_cc
         default];
    (split; [intros cc_num | split; [|reflexivity]]); try reflexivity.
  all: try (destruct (Z.eqb_spec (data1 ev) cc_num) as [->|Hne];
            [now rewrite lookup_insert_eq | now rewrite lookup_insert_ne]).
  all: now destruct (data1 ev =? selected_cc st)%Z.
Qed.

(** X13: The last value wins.  After a batch of events the controller table maps
    each controller to the value of its last control change in the batch
    (its old entry, if any, when the batch has none); the current velocity is
    the velocity of the last note-on or the value of the last control change
    of the selected controller, whichever came later (the old velocity when
    the batch has neither); control changes of other controllers never touch
    the velocity, and no MIDI event changes which controller is selected. *)
Theorem last_value_wins {num : Type} {SN : Scalar num}
    (st : State (num := num)) (events : list midi_event) :
  let st' := foldl process_event st events in
  (forall cc_num,
     cc_values st' !! cc_num
     = match last (omap (value_for cc_num) events) with
       | Some v => Some v
       | None => cc_values st !! cc_num
       end) /\
  current_velocity st'
    = default (current_velocity st) (last (omap (velocity_from (selected_cc st)) events)) /\
  selected_cc st' = selected_cc st.
Proof.
  induction events as [|ev events IH] using rev_ind; [cbn; auto|].
  cbv zeta in *. rewrite foldl_app. cbn [foldl].
  destruct IH as (IHcc & IHvel & IHsel).
  destruct (process_event_values (foldl process_event st events) ev) as (Hcc & Hvel & Hsel).
  split; [|split].
  - intros cc_num. rewrite Hcc, omap_app. cbn [omap list_omap].
    destruct (value_for cc_num ev) as [v|].
    + now rewrite last_snoc.
    + rewrite app_nil_r. apply IHcc.
  - rewrite Hvel, IHsel, omap_app. cbn [omap list_omap].
    destruct (velocity_from (selected_cc st) ev) as [v|].
    + now rewrite last_snoc.
    + rewrite app_nil_r. exact IHvel.
  - now rewrite Hsel.
Qed.

(** ** The plotted segments *)

(** Neighbouring pairs of a strictly increasing list. *)
Lemma adjacent_pairs_sorted (l : list nat) (a b : nat) :
  StronglySorted lt l ->
  (a, b) ∈ adjacent_pairs l <->
  a ∈ l /\ b ∈ l /\ (a < b)%nat /\ forall k, k ∈ l -> ~ (a < k < b)%nat.
Proof.
  unfold adjacent_pairs. induction l as [|x [|y t] IH]; intros Hs.
  - simpl. rewrite elem_of_nil. split; [tauto | intros (H & _); now apply elem_of_nil in H].
  - simpl. rewrite elem_of_nil. split; [tauto|].
    intros (Ha & Hb & Hlt & _). apply list_elem_of_singleton in Ha, Hb. lia.
  - apply StronglySorted_inv in Hs as [Hs Hx].
    specialize (IH Hs). cbn [tail zip zip_with] in *.
    rewrite elem_of_cons, IH. clear IH.
    assert (Hxy : (x < y)%nat) by (inversion Hx; assumption).
    assert (Hxt : forall k, k ∈ y :: t -> (x < k)%nat)
      by (intros k Hk; exact (proj1 (Forall_forall _ _) Hx k Hk)).
    assert (Hyt : forall k, k ∈ t -> (y < k)%nat).
    { apply StronglySorted_inv in Hs as [_ Hy].
      intros k Hk; exact (proj1 (Forall_forall _ _) Hy k Hk). }
    split.
    + intros [[= -> ->]|(Ha & Hb & Hlt & Hno)].
      * split; [left|]. split; [right; left|]. split; [assumption|].
        intros k Hk Hbetween. apply elem_of_cons in Hk as [->|Hk]; [lia|].
        apply elem_of_cons in Hk as [->|Hk]; [lia|]. apply Hyt in Hk. lia.
      * split; [now right|]. split; [now right|]. split; [assumption|].
        intros k Hk Hbetween. apply elem_of_cons in Hk as [->|Hk]; [|now apply (Hno k)].
        apply Hxt in Ha. lia.
    + intros (Ha & Hb & Hlt & Hno).
      apply elem_of_cons in Ha as [->|Ha].
      * left. f_equal.
        apply elem_of_cons in Hb as [->|Hb]; [lia|].
        apply elem_of_cons in Hb as [->|Hb]; [reflexivity|].
        exfalso. apply (Hno y); [right; left|]. apply Hyt in Hb. lia.
      * right. split; [assumption|].
        apply elem_of_cons in Hb as [->|Hb]; [apply Hxt in Ha; lia|].
        split; [assumption|]. split; [assumption|].
        intros k Hk. apply Hno. now right.
Qed.

Section Plot.

Context {num : Type} {SN : Scalar num}.

Lemma np_where_pos_elem (l : list num) (i x : nat) :
  x ∈ np_where_pos i l <->
  (i <= x < i + length l)%nat /\ gt0 (item l (x - i)) = true.
Proof.
  revert i. induction l as [|v l IH]; intros i; cbn [np_where_pos length].
  - rewrite elem_of_nil. split; [tauto | lia].
  - assert (Hshift : forall y, (S i <= y)%nat -> item (v :: l) (y - i) = item l (y - S i)).
    { intros y Hy. unfold item. replace (y - i)%nat with (S (y - S i)) by lia. reflexivity. }
    destruct (gt0 v) eqn:Hv.
    + rewrite elem_of_cons, IH. split.
      * intros [->|[Hr Hg]].
        -- split; [lia|]. now rewrite Nat.sub_diag.
        -- split; [lia|]. now rewrite Hshift by lia.
      * intros [Hr Hg]. destruct (decide (x = i)) as [->|Hne]; [now left|].
        right. split; [lia|]. now rewrite <- Hshift by lia.
    + rewrite IH. split.
      * intros [Hr Hg]. split; [lia|]. now rewrite Hshift by lia.
      * intros [Hr Hg]. destruct (decide (x = i)) as [->|Hne].
        -- rewrite Nat.sub_diag in Hg. unfold item in Hg. simpl in Hg. congruence.
        -- split; [lia|]. now rewrite <- Hshift by lia.
Qed.

Lemma np_where_pos_sorted (l : list num) (i : nat) : StronglySorted lt (np_where_pos i l).
Proof.
  revert i. induction l as [|v l IH]; intros i; cbn [np_where_pos]; [constructor|].
  destruct (gt0 v); [|apply IH].
  constructor; [apply IH|]. apply Forall_forall. intros x Hx.
  apply np_where_pos_range in Hx. lia.
Qed.

(** The pairs the plotting loop runs over are the neighbouring points of
    the series. *)
Lemma adjacent_pairs_neighbours (v : list num) (a b : nat) :
  (a, b) ∈ adjacent_pairs (np_where_pos 0 v) <-> neighbours v a b.
Proof.
  rewrite (adjacent_pairs_sorted _ a b (np_where_pos_sorted v 0)).
  rewrite !np_where_pos_elem, !Nat.sub_0_r. unfold neighbours. split.
  - intros ((Ha & Hga) & (Hb & Hgb) & Hlt & Hno).
    split; [lia|]. split; [assumption|]. split; [assumption|].
    intros k Hk. destruct (gt0 (item v k)) eqn:Hg; [|reflexivity].
    exfalso. apply (Hno k); [|assumption].
    apply np_where_pos_elem. rewrite Nat.sub_0_r. split; [lia | assumption].
  - intros (Hlt & Hga & Hgb & Hno).
    split; [split; [lia | assumption]|]. split; [split; [lia | assumption]|].
    split; [lia|]. intros k Hk Hbetween. apply np_where_pos_elem in Hk as [_ Hg].
    rewrite Nat.sub_0_r in Hg. rewrite Hno in Hg by assumption. discriminate.
Qed.

Lemma plot_segments_omap (vf : list num) (nhs : list Z) (nc : gmap Z color) :
  plot_segments vf nhs nc = omap (plot_segment vf nhs nc) (adjacent_pairs (np_where_pos 0 vf)).
Proof.
  unfold plot_segments. destruct (np_where_pos 0 vf) as [|a [|b l]]; reflexivity.
Qed.

(** The segments plotted, by the pairs they join. *)
Lemma plot_segments_spec (velocity_final : list num) (note_history_smoothed : list Z)
    (note_colors : gmap Z color) (s : segment) :
  s ∈ plot_segments velocity_final note_history_smoothed note_colors <->
  exists a b,
    neighbours velocity_final a b /\
    (0 <= item_note note_history_smoothed a)%Z /\
    s = {| x_vals := (a, b);
           y_vals := (item velocity_final a, item velocity_final b);
           normalized_color :=
             normalize (color_of note_colors (item_note note_history_smoothed a)) |}.
Proof.
  rewrite plot_segments_omap, list_elem_of_omap. split.
  - intros ([a b] & Hp & Hs). apply adjacent_pairs_neighbours in Hp.
    unfold plot_segment in Hs. cbn [fst snd] in Hs.
    destruct (Z.leb_spec 0 (item_note note_history_smoothed a)) as [Hn|Hn]; [|discriminate].
    injection Hs as <-. eauto.
  - intros (a & b & Hp & Hn & ->). exists (a, b).
    split; [now apply adjacent_pairs_neighbours|].
    unfold plot_segment. cbn [fst snd].
    destruct (Z.leb_spec 0 (item_note note_history_smoothed a)) as [_|Hlt]; [reflexivity | lia].
Qed.

(** X14: The plot joins neighbouring points, and only those.  [update_graph]
    plots a segment exactly for every pair [a < b] of samples of
    [velocity_final] that are [> 0] with no sample [> 0] between them and a
    note id [>= 0] at [a]; the segment runs from [(a, velocity_final[a])] to
    [(b, velocity_final[b])] in the colour of the note at [a] (the first
    palette colour when the note has none).  So no segment ends on a silent
    sample, and nothing is plotted when fewer than two samples are [> 0]. *)
Theorem plot_joins_neighbours (velocity_final : list num) (note_history_smoothed : list Z)
    (note_colors : gmap Z color) (s : segment) :
  s ∈ plot_segments velocity_final note_history_smoothed note_colors <->
  exists a b,
    neighbours velocity_final a b /\
    (0 <= item_note note_history_smoothed a)%Z /\
    s = {| x_vals := (a, b);
           y_vals := (item velocity_final a, item velocity_final b);
           normalized_color :=
             normalize (color_of note_colors (item_note note_history_smoothed a)) |}.
Proof. apply plot_segments_spec. Qed.

End Plot.

(** ** Choosing the MIDI device *)

Lemma input_device_ids_elem (devices : list device_info) (i x : nat) :
  x ∈ input_device_ids i devices <->
  exists d, (i <= x)%nat /\ devices !! (x - i)%nat = Some d /\ is_input d <> 0%Z.
Proof.
  revert i. induction devices as [|d devices IH]; intros i; cbn [input_device_ids].
  - rewrite elem_of_nil. split; [tauto|]. intros (d & _ & Hd & _). discriminate.
  - assert (Hshift : forall y, (S i <= y)%nat ->
                       (d :: devices) !! (y - i)%nat = devices !! (y - S i)%nat).
    { intros y Hy. replace (y - i)%nat with (S (y - S i)) by lia. reflexivity. }
    destruct (Z.eqb_spec (is_input d) 0) as [Hz|Hnz].
    + rewrite IH. split.
      * intros (d' & Hle & Hd' & Hin). exists d'. rewrite Hshift by lia. split; [lia | auto].
      * intros (d' & Hle & Hd' & Hin). destruct (decide (x = i)) as [->|Hne].
        -- rewrite Nat.sub_diag in Hd'. injection Hd' as <-. contradiction.
        -- exists d'. rewrite <- Hshift by lia. split; [lia | auto].
    + rewrite elem_of_cons, IH. split.
      * intros [->|(d' & Hle & Hd' & Hin)].
        -- exists d. rewrite Nat.sub_diag. auto.
        -- exists d'. rewrite Hshift by lia. split; [lia | auto].
      * intros (d' & Hle & Hd' & Hin). destruct (decide (x = i)) as [->|Hne]; [now left|].
        right. exists d'. rewrite <- Hshift by lia. split; [lia | auto].
Qed.

Lemma input_device_ids_sorted (devices : list device_info) (i : nat) :
  StronglySorted lt (input_device_ids i devices) /\
  Forall (fun x => (i <= x)%nat) (input_device_ids i devices).
Proof.
  revert i. induction devices as [|d devices IH]; intros i; cbn [input_device_ids].
  - split; constructor.
  - destruct (IH (S i)) as [Hs Hge].
    assert (Hge' : Forall (fun x => (i < x)%nat) (input_device_ids (S i) devices))
      by (eapply Forall_impl; [exact Hge | intros x Hx; cbn in Hx; lia]).
    destruct (_ =? _)%Z.
    + split; [assumption|]. eapply Forall_impl; [exact Hge' | intros x Hx; cbn in Hx; lia].
    + split; [now constructor|]. constructor; [lia|].
      eapply Forall_impl; [exact Hge' | intros x Hx; cbn in Hx; lia].
Qed.

(** X15: [setup_midi] opens the first input device: the device with the least
    index whose input flag is set.  It leaves through [sys.exit()] exactly
    when no device is an input device, in particular when there is no device
    at all. *)
Theorem setup_midi_opens_first_input (devices : list device_info) :
  (forall i, setup_midi devices = Some i <->
     exists d, devices !! i = Some d /\ is_input d <> 0%Z /\
               forall j d', (j < i)%nat -> devices !! j = Some d' -> is_input d' = 0%Z) /\
  (setup_midi devices = None <-> Forall (fun d => is_input d = 0%Z) devices).
Proof.
  unfold setup_midi.
  pose proof (input_device_ids_elem devices 0) as Helem.
  destruct (input_device_ids_sorted devices 0) as [Hsorted _].
  assert (Hempty : length devices = 0%nat -> input_device_ids 0 devices = [])
    by (destruct devices; [reflexivity | discriminate]).
  assert (Hids : forall x, x ∈ input_device_ids 0 devices <->
                   exists d, devices !! x = Some d /\ is_input d <> 0%Z).
  { intros x. rewrite Helem, Nat.sub_0_r. split; intros (d & H); exists d; [tauto|].
    split; [lia | tauto]. }
  clear Helem.
  assert (Hcases : (if (length devices =? 0)%nat then None
                    else match input_device_ids 0 devices with
                         | [] => None
                         | first :: _ => Some first
                         end) = head (input_device_ids 0 devices)).
  { destruct (Nat.eqb_spec (length devices) 0) as [H0|_]; [now rewrite Hempty|].
    now destruct (input_device_ids 0 devices). }
  rewrite Hcases. clear Hcases Hempty.
  destruct (input_device_ids 0 devices) as [|first rest] eqn:Hl; cbn [head].
  - split.
    + intros i. split; [discriminate|]. intros (d & Hd & Hin & _).
      exfalso. eapply elem_of_nil, Hids. eauto.
    + split; [|reflexivity]. intros _. apply Forall_lookup. intros j d Hd.
      destruct (Z.eq_dec (is_input d) 0%Z) as [Hz|Hnz]; [assumption|].
      exfalso. eapply elem_of_nil, Hids. eauto.
  - assert (Hfirst : first ∈ first :: rest) by left.
    apply Hids in Hfirst as (d & Hd & Hin).
    assert (Hleast : forall j d', (j < first)%nat -> devices !! j = Some d' ->
                       is_input d' = 0%Z).
    { intros j d' Hj Hd'. destruct (Z.eq_dec (is_input d') 0%Z) as [Hz|Hnz]; [assumption|].
      exfalso. assert (Hjin : j ∈ first :: rest) by (apply Hids; eauto).
      apply elem_of_cons in Hjin as [->|Hjin]; [lia|].
      apply StronglySorted_inv in Hsorted as [_ Hlt].
      pose proof (proj1 (Forall_forall _ _) Hlt j Hjin). lia. }
    split.
    + intros i. split.
      * intros [= <-]. eauto.
      * intros (d' & Hd' & Hin' & Hleast'). f_equal.
        destruct (Nat.lt_trichotomy first i) as [Hlt|[Heq|Hgt]]; [|assumption|].
        -- exfalso. apply Hin. eapply Hleast'; eassumption.
        -- exfalso. apply Hin'. eapply Hleast; eassumption.
    + split; [discriminate|]. intros Hall. exfalso. apply Hin.
      exact (proj1 (Forall_lookup _ _) Hall first d Hd).
Qed.

(** ** The notes legend *)

Lemma legend_loop_closed (note_colors : gmap Z color) (unique_notes : list Z) (i : nat) :
  legend_loop note_colors i (WINDOW_WIDTH - 200 + 80 * Z.of_nat (i / 8))
              (80 + 18 * Z.of_nat (i mod 8)) unique_notes
  = imap (fun k => legend_entry_at note_colors (i + k)) unique_notes.
Proof.
  revert i. induction unique_notes as [|note rest IH]; intros i; [reflexivity|].
  cbn [legend_loop imap].
  pose proof (Nat.mod_upper_bound i 8 ltac:(discriminate)) as Hm.
  pose proof (Nat.div_mod_eq i 8) as Hdm.
  pose proof (Nat.mod_upper_bound (S i) 8 ltac:(discriminate)) as Hm'.
  pose proof (Nat.div_mod_eq (S i) 8) as Hdm'.
  destruct (Z.ltb_spec (WINDOW_HEIGHT - 30) (80 + 18 * Z.of_nat (i mod 8))) as [Hover|_];
    [unfold WINDOW_HEIGHT in Hover; lia|].
  f_equal; [unfold legend_entry_at; now rewrite Nat.add_0_r|].
  rewrite (imap_ext _ (fun k => legend_entry_at note_colors (S i + k)))
    by (intros k x _; cbn; f_equal; lia).
  rewrite <- IH.
  destruct (Nat.eqb_spec (i mod 8) 7) as [H7|H7].
  - replace (WINDOW_WIDTH - 200 + 80 * Z.of_nat (S i / 8))%Z
      with (WINDOW_WIDTH - 200 + 80 * Z.of_nat (i / 8) + 80)%Z by lia.
    replace (80 + 18 * Z.of_nat (S i mod 8))%Z with 80%Z by lia. reflexivity.
  - replace (WINDOW_WIDTH - 200 + 80 * Z.of_nat (S i / 8))%Z
      with (WINDOW_WIDTH - 200 + 80 * Z.of_nat (i / 8))%Z by lia.
    replace (80 + 18 * Z.of_nat (S i mod 8))%Z
      with (80 + 18 * Z.of_nat (i mod 8) + 18)%Z by lia. reflexivity.
Qed.

Lemma legend_notes_spec {num : Type} {SN : Scalar num} (st : State (num := num)) :
  NoDup (legend_notes st) /\ Sorted Z.le (legend_notes st) /\
  forall n, n ∈ legend_notes st <-> n ∈ note_history st /\ (0 <= n)%Z.
Proof.
  unfold legend_notes, np_unique. split; [|split].
  - rewrite merge_sort_Permutation. apply NoDup_remove_dups.
  - apply Sorted_merge_sort. intros x y. lia.
  - intros n. rewrite merge_sort_Permutation, elem_of_remove_dups.
    rewrite !list_elem_of_In, filter_In. now rewrite Z.leb_le.
Qed.

(** X16: The legend shows every note of the history exactly once, in ascending
    order, the [k]-th entry in column [k / 8] and row [k mod 8]: at
    [x = 1000 + 80 (k / 8)], [y = 80 + 18 (k mod 8)], in the colour of the
    note.  All entries are drawn (the overflow test of the loop never fires)
    and no two at the same place; the coloured square of entry [k] lies
    within the window's width exactly when [k < 24]. *)
Theorem legend_layout {num : Type} {SN : Scalar num} (st : State (num := num)) :
  render_notes_legend st = imap (legend_entry_at (note_colors st)) (legend_notes st) /\
  (NoDup (legend_notes st) /\ Sorted Z.le (legend_notes st) /\
   forall n, n ∈ legend_notes st <-> n ∈ note_history st /\ (0 <= n)%Z) /\
  (forall (nc : gmap Z color) (j k : nat) (n m : Z),
     legend_x (legend_entry_at nc j n) = legend_x (legend_entry_at nc k m) ->
     legend_y (legend_entry_at nc j n) = legend_y (legend_entry_at nc k m) -> j = k) /\
  (forall (nc : gmap Z color) (k : nat) (n : Z),
     (legend_x (legend_entry_at nc k n) + 14 <= WINDOW_WIDTH)%Z <-> (k < 24)%nat).
Proof.
  split; [|split; [|split]].
  - unfold render_notes_legend. exact (legend_loop_closed (note_colors st) (legend_notes st) 0).
  - apply legend_notes_spec.
  - intros nc j k n m. unfold legend_entry_at. cbn [legend_x legend_y]. intros Hx Hy.
    pose proof (Nat.div_mod_eq j 8). pose proof (Nat.div_mod_eq k 8).
    pose proof (Nat.mod_upper_bound j 8 ltac:(discriminate)).
    pose proof (Nat.mod_upper_bound k 8 ltac:(discriminate)). lia.
  - intros nc k n. unfold legend_entry_at, WINDOW_WIDTH. cbn [legend_x].
    pose proof (Nat.div_mod_eq k 8).
    pose proof (Nat.mod_upper_bound k 8 ltac:(discriminate)). lia.
Qed.

(** ** The debug panel *)

Lemma lines_that_fit_step (limit y step : Z) :
  (0 < step)%Z -> (y <= limit)%Z ->
  lines_that_fit limit y step = S (lines_that_fit limit (y + step) step).
Proof.
  intros Hs Hy. unfold lines_that_fit.
  destruct (Z.ltb_spec limit y) as [?|_]; [lia|].
  pose proof (Z.div_mod (limit - y) step ltac:(lia)) as Hdm.
  pose proof (Z.mod_pos_bound (limit - y) step Hs) as Hm.
  destruct (Z.ltb_spec limit (y + step)) as [Hover|Hfit].
  - assert ((limit - y) / step = 0)%Z as -> by nia. reflexivity.
  - pose proof (Z.div_mod (limit - (y + step)) step ltac:(lia)) as Hdm'.
    pose proof (Z.mod_pos_bound (limit - (y + step)) step Hs) as Hm'.
    assert (0 <= (limit - (y + step)) / step)%Z by (apply Z.div_pos; lia).
    assert ((limit - y) / step = (limit - (y + step)) / step + 1)%Z as -> by nia.
    lia.
Qed.

Lemma cc_lines_closed (cc_values : gmap Z Z) (selected_cc : Z) (cc_nums : list Z) (y : Z) :
  let n := (length cc_nums `min` lines_that_fit (WINDOW_HEIGHT - 200) y 20)%nat in
  cc_lines cc_values selected_cc y cc_nums
  = (imap (cc_line cc_values selected_cc y) (take n cc_nums), (y + 20 * Z.of_nat n)%Z).
Proof.
  revert y. induction cc_nums as [|c rest IH]; intros y n.
  - cbn. f_equal. lia.
  - cbn [cc_lines]. destruct (Z.ltb_spec (WINDOW_HEIGHT - 200) y) as [Hover|Hfit].
    + assert (n = 0%nat) as ->.
      { unfold n, lines_that_fit. destruct (Z.ltb_spec (WINDOW_HEIGHT - 200) y); lia. }
      cbn. f_equal. lia.
    + rewrite IH. cbv zeta. cbn [fst snd].
      assert (Hn : n = S (length rest `min` lines_that_fit (WINDOW_HEIGHT - 200) (y + 20) 20))
        by (unfold n; rewrite (lines_that_fit_step _ y 20) by lia; cbn [length]; lia).
      rewrite Hn. cbn [take imap]. f_equal.
      * f_equal.
        -- unfold cc_line. f_equal. lia.
        -- apply imap_ext. intros k x _. unfold cc_line. cbn. f_equal. lia.
      * lia.
Qed.

Lemma message_lines_closed (messages : list string) (y : Z) :
  message_lines y messages
  = imap (message_line y)
         (take (lines_that_fit (WINDOW_HEIGHT - 30) y 18) messages).
Proof.
  revert y. induction messages as [|m rest IH]; intros y.
  - now rewrite take_nil.
  - cbn [message_lines]. destruct (Z.ltb_spec (WINDOW_HEIGHT - 30) y) as [Hover|Hfit].
    + unfold lines_that_fit. destruct (Z.ltb_spec (WINDOW_HEIGHT - 30) y); [reflexivity | lia].
    + rewrite (lines_that_fit_step _ y 18) by lia. cbn [take imap]. rewrite IH. f_equal.
      * unfold message_line. f_equal. lia.
      * apply imap_ext. intros k x _. unfold message_line. cbn. f_equal. lia.
Qed.

Lemma sorted_keys_spec (cc_values : gmap Z Z) :
  NoDup (sorted_keys cc_values) /\ Sorted Z.le (sorted_keys cc_values) /\
  length (sorted_keys cc_values) = size cc_values /\
  forall cc_num, cc_num ∈ sorted_keys cc_values <-> is_Some (cc_values !! cc_num).
Proof.
  unfold sorted_keys. split; [|split; [|split]].
  - rewrite merge_sort_Permutation. apply NoDup_elements.
  - apply Sorted_merge_sort. intros x y. lia.
  - rewrite merge_sort_Permutation. now rewrite <- size_dom.
  - intros cc_num. now rewrite merge_sort_Permutation, elem_of_elements, elem_of_dom.
Qed.

(** X17: The debug panel.  The controllers are listed in ascending order, one
    line each from [y = 145] in steps of 20, the selected one highlighted;
    at most 18 lines fit, so with more controllers the highest-numbered are
    left out.  Below them come the last ten messages of the log, oldest
    first, in steps of 18, as many as fit above [y = 670]: all ten while at
    most 15 controllers are listed, but only seven when 18 are listed, and it
    is the newest messages that are cut off. *)
Theorem debug_panel_layout {num : Type} {SN : Scalar num} (v : Visualizer (num := num)) :
  let keys := sorted_keys (cc_values (core v)) in
  let listed := (length keys `min` 18)%nat in
  let recent := last_ten (debug_messages (display v)) in
  let y := (190 + 20 * Z.of_nat listed)%Z in
  render_debug_panel v
    = (imap (cc_line (cc_values (core v)) (selected_cc (core v)) 145) (take listed keys),
       imap (message_line y) (take (lines_that_fit 670 y 18) recent)) /\
  (NoDup keys /\ Sorted Z.le keys /\ length keys = size (cc_values (core v)) /\
   forall cc_num, cc_num ∈ keys <-> is_Some (cc_values (core v) !! cc_num)) /\
  (length recent <= 10)%nat /\
  ((listed <= 15)%nat -> take (lines_that_fit 670 y 18) recent = recent) /\
  ((18 <= length keys)%nat -> take (lines_that_fit 670 y 18) recent = take 7 recent).
Proof.
  intros keys listed recent y.
  assert (Hfit : lines_that_fit (WINDOW_HEIGHT - 200) (50 + 70 + 25) 20 = 18%nat) by reflexivity.
  assert (Hrecent : (length recent <= 10)%nat).
  { unfold recent, last_ten. rewrite length_drop. lia. }
  split; [|split; [|split; [|split]]].
  - unfold render_debug_panel. cbv zeta. rewrite cc_lines_closed. cbv zeta. cbn [fst snd].
    fold keys. rewrite Hfit. fold listed. rewrite message_lines_closed.
    fold recent. replace (50 + 70 + 25 + 20 * Z.of_nat listed + 20 + 25)%Z with y by (unfold y; lia).
    reflexivity.
  - apply sorted_keys_spec.
  - exact Hrecent.
  - intros Hl. apply take_ge. unfold lines_that_fit.
    destruct (Z.ltb_spec 670 y) as [Hover|_]; [unfold y in Hover; lia|].
    assert (10 <= (670 - y) / 18)%Z by (apply Z.div_le_lower_bound; unfold y; lia).
    lia.
  - intros Hl. f_equal. unfold lines_that_fit, y.
    replace listed with 18%nat by (unfold listed; lia). reflexivity.
Qed.

(** ** The moving average keeps the plotted points *)

(** *** Magnitudes of binary64 results, from the specification *)

Section Binary64Magnitude.

Local Open Scope Z_scope.

Lemma SFlarge_pos (L : Z) (x : spec_float) : SFlarge L x = true -> SFpos x = true.
Proof. destruct x as [s|[]| |[] m e]; simpl; try discriminate; reflexivity. Qed.

Lemma SFlarge_weaken (L L' : Z) (x : spec_float) :
  L' <= L -> SFlarge L x = true -> SFlarge L' x = true.
Proof.
  intros HL. destruct x as [s|[]| |[] m e]; simpl; try discriminate; try reflexivity.
  intros He. apply Z.leb_le in He. apply Z.leb_le. lia.
Qed.

(** Rounding never lowers the exponent it is given. *)
Lemma shr_fexp_exponent (m e : Z) (l : location) : e <= snd (shr_fexp prec emax m e l).
Proof.
  unfold shr_fexp, shr.
  destruct (fexp prec emax (Zdigits2 m + e) - e) as [|p|p] eqn:Hn; cbn [snd]; lia.
Qed.

Lemma binary_round_aux_large (L m e : Z) (l : location) :
  0 < m -> emin64 <= e -> L <= e ->
  SFlarge L (binary_round_aux prec emax false m e l) = true.
Proof.
  intros Hm He HL. unfold binary_round_aux.
  destruct (shr_fexp_pos m e l Hm He) as [Hm1 He1].
  pose proof (shr_fexp_exponent m e l) as Hx1.
  destruct (shr_fexp prec emax m e l) as [mrs1 e1]. cbn [fst snd] in Hm1, He1, Hx1.
  pose proof (round_nearest_even_pos (shr_m mrs1) (loc_of_shr_record mrs1) Hm1) as Hm2.
  destruct (shr_fexp_pos _ e1 loc_Exact Hm2 He1) as [Hm3 _].
  pose proof (shr_fexp_exponent (round_nearest_even (shr_m mrs1) (loc_of_shr_record mrs1))
                e1 loc_Exact) as Hx2.
  destruct (shr_fexp prec emax _ e1 loc_Exact) as [mrs2 e2]. cbn [fst snd] in Hm3, Hx2.
  destruct (shr_m mrs2); try lia.
  destruct (Z.leb e2 (emax - prec)); [|reflexivity].
  cbn [SFlarge]. apply Z.leb_le. lia.
Qed.

Lemma binary_round_large (L : Z) (m : positive) (e : Z) :
  emin64 <= e -> L + 52 <= e -> emin64 <= L ->
  SFlarge L (binary_round prec emax false m e) = true.
Proof.
  intros He HL HLmin. unfold binary_round, shl_align.
  pose proof (fexp_ge_emin (Zpos (digits2_pos m) + e)) as Hf.
  assert (Hd : e - 52 <= fexp prec emax (Zpos (digits2_pos m) + e)).
  { unfold fexp. unfold prec. pose proof (Pos2Z.is_pos (digits2_pos m)). lia. }
  destruct (fexp prec emax (Zpos (digits2_pos m) + e) - e) eqn:Hn;
    apply binary_round_aux_large; lia.
Qed.

(** The sum of a large value and a value that is large or zero is large. *)
Lemma SFadd_large (L : Z) (x y : spec_float) :
  valid_binary x = true -> valid_binary y = true -> emin64 <= L - 52 ->
  SFlarge L x = true -> (SFlarge L y = true \/ y = S754_zero false) ->
  SFlarge (L - 52) (SFadd prec emax x y) = true /\
  SFlarge (L - 52) (SFadd prec emax y x) = true.
Proof.
  intros Hvx Hvy HL Hx Hy.
  destruct x as [sx|[]| |[] mx ex]; try discriminate Hx.
  - (* x = +inf *)
    destruct Hy as [Hy| ->]; [|split; reflexivity].
    destruct y as [sy|[]| |[] my ey]; try discriminate Hy; split; reflexivity.
  - (* x finite *)
    cbn [SFlarge] in Hx. apply Z.leb_le in Hx.
    destruct Hy as [Hy| ->].
    + destruct y as [sy|[]| |[] my ey]; try discriminate Hy; [split; reflexivity|].
      cbn [SFlarge] in Hy. apply Z.leb_le in Hy.
      cbn [valid_binary] in Hvx, Hvy.
      destruct (bounded_ranges mx ex Hvx) as (Hex & _ & _).
      destruct (bounded_ranges my ey Hvy) as (Hey & _ & _).
      cbn [SFadd cond_Zopp].
      split.
      * change (Zpos (fst (shl_align mx ex (Z.min ex ey)))
                + Zpos (fst (shl_align my ey (Z.min ex ey))))
          with (Zpos (fst (shl_align mx ex (Z.min ex ey))
                      + fst (shl_align my ey (Z.min ex ey)))).
        cbn [binary_normalize]. apply binary_round_large; lia.
      * change (Zpos (fst (shl_align my ey (Z.min ey ex)))
                + Zpos (fst (shl_align mx ex (Z.min ey ex))))
          with (Zpos (fst (shl_align my ey (Z.min ey ex))
                      + fst (shl_align mx ex (Z.min ey ex)))).
        cbn [binary_normalize]. apply binary_round_large; lia.
    + split; cbn [SFadd SFlarge]; apply Z.leb_le; lia.
Qed.

Lemma digits2_large (m : positive) : 2 ^ 52 <= Zpos m < 2 ^ 53 -> Zpos (digits2_pos m) = 53.
Proof.
  intros [Hlo Hhi]. pose proof (digits2_pos_bounds m) as [Hdlo Hdhi].
  pose proof (Pos2Z.is_pos (digits2_pos m)) as Hd.
  destruct (Z.lt_trichotomy (Zpos (digits2_pos m)) 53) as [Hlt|[Heq|Hgt]]; [|exact Heq|].
  - exfalso. assert (2 ^ Zpos (digits2_pos m) <= 2 ^ 52) by (apply Z.pow_le_mono_r; lia). lia.
  - exfalso. assert (2 ^ 53 <= 2 ^ (Zpos (digits2_pos m) - 1)) by (apply Z.pow_le_mono_r; lia).
    lia.
Qed.

(** A third of a large value is still above zero. *)
Lemma SFdiv_3_pos (x : spec_float) :
  valid_binary x = true -> SFlarge (-1000) x = true ->
  SFpos (SFdiv prec emax x SF3) = true.
Proof.
  intros Hv Hx. destruct x as [sx|[]| |[] mx ex]; try discriminate Hx; [reflexivity|].
  cbn [SFlarge] in Hx. apply Z.leb_le in Hx. cbn [valid_binary] in Hv.
  destruct (bounded_ranges mx ex Hv) as (Hex & Hhi & Hlo).
  assert (Hmin : emin64 = -1074) by reflexivity.
  specialize (Hlo ltac:(lia)).
  pose proof (digits2_large mx (conj Hlo Hhi)) as Hd.
  unfold SF3, SFdiv, SFdiv_core_binary. cbn [xorb Zdigits2].
  rewrite Hd. change (Zpos (digits2_pos 6755399441055744)) with 53.
  assert (Hfexp : fexp prec emax (53 + ex - (53 + -51)) = ex - 2).
  { unfold fexp, SpecFloat.emin, prec, emax. lia. }
  rewrite Hfexp.
  replace (Z.min (ex - 2) (ex - -51)) with (ex - 2) by lia.
  replace (ex - -51 - (ex - 2)) with 53 by lia.
  cbv iota.
  rewrite Z.shiftl_mul_pow2 by lia.
  pose proof (Z_div_mod (Zpos mx * 2 ^ 53) 6755399441055744 eq_refl) as Hdm.
  destruct (Z.div_eucl (Zpos mx * 2 ^ 53) 6755399441055744) as [q r].
  apply binary_round_aux_pos; [|lia].
  assert (H52 : 2 ^ 52 = 4503599627370496) by reflexivity.
  assert (H53 : 2 ^ 53 = 9007199254740992) by reflexivity.
  rewrite H52 in Hlo. rewrite H53 in Hdm. clear H52 H53 Hhi Hd Hfexp.
  destruct Hdm as [Heq Hr]. nia.
Qed.

End Binary64Magnitude.

(** *** Where a zero sample lies *)

Section Position.

Context {num : Type} {SN : Scalar num} {B : ByteOrder num}.

Lemma sample_zero_dec (v : num) : sample v -> {v = zero} + {v <> zero}.
Proof.
  intros Hs. destruct (gt0 v) eqn:Hg.
  - right. now apply sample_gt0_iff.
  - left. now apply sample_not_gt0.
Qed.

(** The nearest non-zero sample before index [k], if any. *)
Lemma nearest_before (vh : list num) (k : nat) :
  Forall sample vh -> (k <= length vh)%nat ->
  (forall i, (i < k)%nat -> vh !! i = Some zero) \/
  exists a x, (a < k)%nat /\ vh !! a = Some x /\ x <> zero /\
              forall i, (a < i < k)%nat -> vh !! i = Some zero.
Proof.
  intros Hs. induction k as [|k IH]; intros Hk; [left; lia|].
  destruct (lookup_lt_is_Some_2 vh k) as [v Hv]; [lia|].
  destruct (sample_zero_dec v (proj1 (Forall_lookup _ _) Hs k v Hv)) as [->|Hnz].
  - destruct IH as [Hall|(a & x & Ha & Hx & Hxnz & Hgap)]; [lia| |].
    + left. intros i Hi. destruct (decide (i = k)) as [->|Hne]; [assumption | apply Hall; lia].
    + right. exists a, x. split; [lia|]. split; [assumption|]. split; [assumption|].
      intros i Hi. destruct (decide (i = k)) as [->|Hne]; [assumption | apply Hgap; lia].
  - right. exists k, v. split; [lia|]. split; [assumption|]. split; [assumption|].
    intros i Hi. lia.
Qed.

(** The nearest non-zero sample from index [k] on, if any. *)
Lemma nearest_after (vh : list num) (n k : nat) :
  Forall sample vh -> (k + n = length vh)%nat ->
  (forall i, (k <= i < length vh)%nat -> vh !! i = Some zero) \/
  exists b y, (k <= b)%nat /\ vh !! b = Some y /\ y <> zero /\
              forall i, (k <= i < b)%nat -> vh !! i = Some zero.
Proof.
  intros Hs. revert k. induction n as [|n IH]; intros k Hk; [left; lia|].
  destruct (lookup_lt_is_Some_2 vh k) as [v Hv]; [lia|].
  destruct (sample_zero_dec v (proj1 (Forall_lookup _ _) Hs k v Hv)) as [->|Hnz].
  - destruct (IH (S k)) as [Hall|(b & y & Hb & Hy & Hynz & Hgap)]; [lia| |].
    + left. intros i Hi. destruct (decide (i = k)) as [->|Hne]; [assumption | apply Hall; lia].
    + right. exists b, y. split; [lia|]. split; [assumption|]. split; [assumption|].
      intros i Hi. destruct (decide (i = k)) as [->|Hne]; [assumption | apply Hgap; lia].
  - right. exists k, v. split; [lia|]. split; [assumption|]. split; [assumption|].
    intros i Hi. lia.
Qed.

(** A zero sample has only zeros before it, or only zeros after it, or lies
    in the gap between two consecutive anchors. *)
Lemma zero_sample_position (vh : list num) (k : nat) :
  Forall sample vh -> vh !! k = Some zero ->
  (forall i, (i <= k)%nat -> vh !! i = Some zero) \/
  (forall i, (k <= i < length vh)%nat -> vh !! i = Some zero) \/
  exists a b x y, consecutive_anchors vh a b x y /\ (a < k < b)%nat.
Proof.
  intros Hs Hk. pose proof (lookup_lt_Some _ _ _ Hk) as Hlt.
  destruct (nearest_before vh k Hs) as [Hpre|(a & x & Ha & Hx & Hxnz & Hgapa)]; [lia| |].
  { left. intros i Hi. destruct (decide (i = k)) as [->|Hne]; [assumption | apply Hpre; lia]. }
  destruct (nearest_after vh (length vh - S k) (S k) Hs)
    as [Hpost|(b & y & Hb & Hy & Hynz & Hgapb)]; [lia| |].
  { right; left. intros i Hi.
    destruct (decide (i = k)) as [->|Hne]; [assumption | apply Hpost; lia]. }
  right; right. exists a, b, x, y. split; [|lia].
  split; [lia|]. split; [assumption|]. split; [assumption|]. split; [assumption|].
  split; [assumption|]. intros i Hi.
  destruct (Nat.lt_trichotomy i k) as [Hik|[->|Hik]];
    [apply Hgapa; lia | assumption | apply Hgapb; lia].
Qed.

Lemma item_lookup (l : list num) (i : nat) (x : num) : l !! i = Some x -> item l i = x.
Proof. intros Hl. unfold item. now rewrite Hl. Qed.

Lemma np_where_pos_ext (l1 l2 : list num) (k : nat) :
  length l1 = length l2 -> (forall i, gt0 (item l1 i) = gt0 (item l2 i)) ->
  np_where_pos k l1 = np_where_pos k l2.
Proof.
  revert l2 k. induction l1 as [|x l1 IH]; intros [|y l2] k Hlen Hext; try discriminate;
    [reflexivity|].
  cbn [np_where_pos]. pose proof (Hext 0%nat) as H0. unfold item in H0. cbn in H0.
  rewrite H0, (IH l2 (S k)); [reflexivity | now injection Hlen |].
  intros i. exact (Hext (S i)).
Qed.

End Position.

(** *** Bridged values in binary64 are zero or large *)

Lemma Prim2SF_zero : Prim2SF (zero (num := float)) = S754_zero false.
Proof. vm_compute. reflexivity. Qed.

Lemma Prim2SF_3 : Prim2SF (of_Z (num := float) 3) = SF3.
Proof. vm_compute. reflexivity. Qed.

Lemma gt0_SFpos (x : float) : gt0 x = SFpos (Prim2SF x).
Proof. unfold gt0, SFpos. cbn [ltb binary64]. now rewrite ltb_spec, Prim2SF_zero. Qed.

Lemma large_gt0 (x : float) : large x = true -> gt0 x = true.
Proof. intros Hx. rewrite gt0_SFpos. exact (SFlarge_pos _ _ Hx). Qed.

Lemma midi_velocities_large :
  forallb (fun v => large v && large (mul v seven_tenths)) midi_velocities = true.
Proof. vm_compute. reflexivity. Qed.

Lemma byte_large (s : Z) :
  (1 <= s <= 127)%Z ->
  large (of_Z s) = true /\ large (mul (of_Z (num := float) s) seven_tenths) = true.
Proof.
  intros Hs.
  pose proof (proj1 (forallb_forall _ _) midi_velocities_large (of_Z s)
                (midi_velocity_listed s Hs)) as Hl.
  now apply andb_true_iff in Hl.
Qed.

(** A value [> 0] that is not below a large value is large. *)
Lemma not_below_large (x f : float) :
  gt0 x = true -> ltb x f = false -> large f = true -> large x = true.
Proof.
  rewrite gt0_SFpos. unfold large. cbn [ltb binary64]. rewrite ltb_spec.
  destruct (Prim2SF x) as [sx|[]| |[] mx ex]; cbn [SFpos SFltb SFcompare SFlarge];
    try discriminate; try reflexivity.
  destruct (Prim2SF f) as [sf|[]| |[] mf ef]; cbn [SFlarge]; try discriminate.
  intros _ Hlt Hf. apply Z.leb_le in Hf. apply Z.leb_le.
  change (SFltb (S754_finite false mx ex) (S754_finite false mf ef) = false) in Hlt.
  rewrite SFltb_pos_finite in Hlt.
  destruct (Z.compare_spec ex ef) as [Heq|Hl|Hg]; [lia | discriminate | lia].
Qed.

Lemma bridged_value_large (s e : Z) (G j : nat) :
  (1 <= s <= 127)%Z -> (1 <= e <= 127)%Z ->
  (1 <= j <= G)%nat -> (G <= gap_threshold)%nat ->
  large (interp_vel (num := float) (of_Z s) (of_Z e) G j) = true.
Proof.
  intros Hs He Hj HG.
  destruct (floor_below_interpolation_b64 s e G j Hs He Hj HG) as [Hfloor Hpos].
  apply (not_below_large _ _ Hpos Hfloor).
  unfold min_transition_velocity, py_min.
  destruct (ltb (of_Z e) (of_Z s)); [apply (byte_large e He) | apply (byte_large s Hs)].
Qed.

Lemma bridged_zero_or_large (vh : list float) (nh : list Z) (k : nat) :
  Forall sample vh -> length nh = length vh ->
  item (bridge_gaps vh nh).1 k = zero \/ large (item (bridge_gaps vh nh).1 k) = true.
Proof.
  intros Hs Hnh. unfold item.
  destruct (vh !! k) as [v|] eqn:Hv.
  - pose proof (proj1 (Forall_lookup _ _) Hs k v Hv) as Hsv.
    destruct (sample_zero_dec v Hsv) as [->|Hnz].
    + destruct (zero_sample_position vh k Hs Hv)
        as [Hpre|[Hpost|(a & b & x & y & Hca & Hk)]].
      * destruct (bridge_gaps_border vh nh k) as [-> _]; [eapply lookup_lt_Some; eauto | auto |].
        now left.
      * destruct (bridge_gaps_border vh nh k) as [-> _]; [eapply lookup_lt_Some; eauto | auto |].
        now left.
      * destruct (le_lt_dec (b - a - 1) gap_threshold) as [Hshort|Hlong].
        -- destruct (bridged_gap_b64 vh nh a b x y (k - a) Hs Hnh Hca) as [Hb _];
             [lia | lia |].
           replace (a + (k - a))%nat with k in Hb by lia. rewrite Hb. cbn [default]. right.
           destruct Hca as (_ & Ha & Hb' & Hx & Hy & _).
           destruct (byte_of_nonzero_sample x (proj1 (Forall_lookup _ _) Hs a x Ha) Hx)
             as (s & Hs' & ->).
           destruct (byte_of_nonzero_sample y (proj1 (Forall_lookup _ _) Hs b y Hb') Hy)
             as (e & He' & ->).
           apply bridged_value_large; lia.
        -- pose proof (bridge_gaps_between vh nh a b x y (k - a) Hs Hnh Hca) as Hb.
           rewrite (bridgeable_long a b Hlong) in Hb.
           replace (a + (k - a))%nat with k in Hb by lia.
           destruct Hb as [-> _]; [lia|]. now left.
    + destruct (bridge_gaps_nonzero vh nh k v Hs Hv Hnz) as [-> _]. cbn [default]. right.
      destruct (byte_of_nonzero_sample v Hsv Hnz) as (s & Hs' & ->).
      apply (byte_large s Hs').
  - left. destruct (bridge_gaps_length vh nh) as [Hlen _].
    rewrite lookup_ge_None_2; [reflexivity|].
    rewrite Hlen. now apply lookup_ge_None_1.
Qed.

(** The mean of a large value and two neighbours that are large or zero is
    [> 0]. *)
Lemma mean3_pos_b64 (a b c : float) :
  (a = zero \/ large a = true) -> large b = true -> (c = zero \/ large c = true) ->
  gt0 (div (add (add a b) c) (of_Z 3)) = true.
Proof.
  intros Ha Hb Hc. rewrite gt0_SFpos. cbn [div add binary64].
  rewrite div_spec, !add_spec, Prim2SF_3.
  assert (Hmin : (emin64 = -1074)%Z) by reflexivity.
  assert (Hab : SFlarge (-105) (SFadd prec emax (Prim2SF a) (Prim2SF b)) = true).
  { refine (proj2 (SFadd_large (-53) (Prim2SF b) (Prim2SF a) (Prim2SF_valid b)
                     (Prim2SF_valid a) ltac:(lia) Hb _)).
    destruct Ha as [->|Ha]; [right; exact Prim2SF_zero | now left]. }
  assert (Habc : SFlarge (-157)
                   (SFadd prec emax (SFadd prec emax (Prim2SF a) (Prim2SF b)) (Prim2SF c))
                 = true).
  { rewrite <- add_spec in *.
    refine (proj1 (SFadd_large (-105) (Prim2SF (a + b)) (Prim2SF c) (Prim2SF_valid _)
                     (Prim2SF_valid c) ltac:(lia) Hab _)).
    destruct Hc as [->|Hc]; [right; exact Prim2SF_zero|].
    left. exact (SFlarge_weaken (-53) (-105) _ ltac:(lia) Hc). }
  rewrite <- !add_spec in *.
  apply SFdiv_3_pos; [apply Prim2SF_valid|].
  exact (SFlarge_weaken (-157) (-1000) _ ltac:(lia) Habc).
Qed.

(** In binary64 a sample of [velocity_final] is [> 0] exactly when the
    bridged sample is. *)
Lemma moving_average_gt0_b64 (vh : list float) (nh : list Z) (i : nat) :
  Forall sample vh -> length nh = length vh ->
  gt0 (item (smoothed_series vh nh).1 i) = gt0 (item (bridge_gaps vh nh).1 i).
Proof.
  intros Hs Hnh. set (bridged := (bridge_gaps vh nh).1).
  unfold smoothed_series. cbn [fst]. fold bridged.
  destruct (gt0 (item bridged i)) eqn:Hg.
  - destruct (decide (0 < i /\ i + 1 < length bridged)%nat) as [Hin|Hend].
    + unfold item at 1. rewrite moving_average_interior_pos by (assumption || lia).
      cbn [default]. unfold mean3.
      apply mean3_pos_b64; try apply (bridged_zero_or_large vh nh); try assumption.
      destruct (bridged_zero_or_large vh nh i Hs Hnh) as [Hz|Hl]; [|exact Hl].
      fold bridged in Hz. rewrite Hz in Hg. now rewrite gt0_zero in Hg.
    + unfold item at 1. rewrite moving_average_ends by lia. exact Hg.
  - unfold item at 1. rewrite moving_average_not_pos by assumption. exact Hg.
Qed.

(** X18: The moving average keeps the plotted points (binary64): a sample of
    [velocity_final] is [> 0] exactly when the bridged sample is.  Averaging
    with zero neighbours lowers a value but never to zero, and a zero sample
    is never raised; so the points the
    plot joins are the non-zero samples of the history and the samples of
    the bridged gaps, and no others. *)
Theorem moving_average_keeps_points (vh : list float) (nh : list Z) :
  Forall sample vh -> length nh = length vh ->
  let bridged := (bridge_gaps vh nh).1 in
  let final := (smoothed_series vh nh).1 in
  (forall i, gt0 (item final i) = gt0 (item bridged i)) /\
  np_where_pos 0 final = np_where_pos 0 bridged /\
  (forall i x, vh !! i = Some x -> (gt0 (item final i) = true <->
     x <> zero \/
     exists a b sv ev, consecutive_anchors vh a b sv ev /\ (a < i < b)%nat /\
                       (b - a - 1 <= gap_threshold)%nat)).
Proof.
  intros Hs Hnh bridged final.
  destruct (bridge_gaps_length vh nh) as [Hlen _]. fold bridged in Hlen.
  assert (Hpoint : forall i, gt0 (item final i) = gt0 (item bridged i))
    by (intros i; now apply moving_average_gt0_b64).
  split; [exact Hpoint|]. split.
  - apply np_where_pos_ext; [|exact Hpoint].
    unfold final, smoothed_series. cbn [fst]. apply moving_average_length.
  - intros i x Hx. rewrite Hpoint.
    pose proof (proj1 (Forall_lookup _ _) Hs i x Hx) as Hsx.
    destruct (sample_zero_dec x Hsx) as [->|Hnz].
    + split.
      * intros Hg. right.
        destruct (zero_sample_position vh i Hs Hx)
          as [Hpre|[Hpost|(a & b & sv & ev & Hca & Hi)]].
        -- destruct (bridge_gaps_border vh nh i) as [Hb _];
             [eapply lookup_lt_Some; eauto | auto |].
           unfold bridged in Hg. rewrite (item_lookup _ _ _ Hb) in Hg.
           now rewrite (gt0_zero (num := float)) in Hg.
        -- destruct (bridge_gaps_border vh nh i) as [Hb _];
             [eapply lookup_lt_Some; eauto | auto |].
           unfold bridged in Hg. rewrite (item_lookup _ _ _ Hb) in Hg.
           now rewrite (gt0_zero (num := float)) in Hg.
        -- exists a, b, sv, ev. split; [assumption|]. split; [assumption|].
           destruct (le_lt_dec (b - a - 1) gap_threshold) as [Hshort|Hlong]; [assumption|].
           pose proof (bridge_gaps_between vh nh a b sv ev (i - a) Hs Hnh Hca) as Hb.
           rewrite (bridgeable_long a b Hlong) in Hb.
           replace (a + (i - a))%nat with i in Hb by lia.
           destruct Hb as [Hb _]; [lia|].
           unfold bridged in Hg. rewrite (item_lookup _ _ _ Hb) in Hg.
           now rewrite (gt0_zero (num := float)) in Hg.
      * intros [Hnz|(a & b & sv & ev & Hca & Hi & Hshort)]; [congruence|].
        destruct (bridged_gap_b64 vh nh a b sv ev (i - a) Hs Hnh Hca) as [_ Hg];
          [lia | lia |].
        now replace (a + (i - a))%nat with i in Hg by lia.
    + split; [now left | intros _].
      now destruct (bridge_gaps_nonzero vh nh i x Hs Hx Hnz) as [_ Hg].
Qed.

Lemma moving_average_keeps_points_witness :
  np_where_pos 0 (final_of gap_of_five) = np_where_pos 0 (bridged_of gap_of_five).
Proof.
  refine (proj1 (proj2 (moving_average_keeps_points (velocity_history gap_of_five)
                          (note_history gap_of_five) _ _))).
  - apply gap_of_five_wf.
  - rewrite (wf_vlen _ gap_of_five_wf), (wf_nlen _ gap_of_five_wf). reflexivity.
Defined.

(** ** Sums of samples in binary64 *)

Lemma of_Z_uint63 (z : Z) :
  (0 <= z)%Z -> of_Z (num := float) z = PrimFloat.of_uint63 (Uint63.of_Z z).
Proof.
  intros Hz. cbn [of_Z binary64]. unfold Binary64.of_Z.
  destruct (Z.ltb_spec z 0); [lia | reflexivity].
Qed.

Lemma uint63_of_Z_add (a b : Z) :
  Uint63.of_Z (a + b) = Uint63.add (Uint63.of_Z a) (Uint63.of_Z b).
Proof.
  apply Uint63.to_Z_inj. rewrite Uint63.add_spec, !Uint63.of_Z_spec.
  now rewrite Zplus_mod.
Qed.

Lemma uint63_succ_of_Z (z : Z) : Uint63.succ (Uint63.of_Z z) = Uint63.of_Z (z + 1).
Proof.
  apply Uint63.to_Z_inj. rewrite Uint63.succ_spec, !Uint63.of_Z_spec.
  now rewrite Zplus_mod_idemp_l.
Qed.

Lemma ints_from_elem (n : nat) (z0 : Z) (k : nat) :
  (k < n)%nat -> In (Uint63.of_Z (z0 + Z.of_nat k)) (ints_from (Uint63.of_Z z0) n).
Proof.
  revert z0 k. induction n as [|n IH]; intros z0 k Hk; [lia|].
  cbn [ints_from]. destruct k as [|k].
  - left. f_equal. lia.
  - right. rewrite uint63_succ_of_Z.
    replace (z0 + Z.of_nat (S k))%Z with (z0 + 1 + Z.of_nat k)%Z by lia.
    apply IH. lia.
Qed.

Lemma ints_from_zero_elem (n : nat) (a : Z) :
  (0 <= a < Z.of_nat n)%Z -> In (Uint63.of_Z a) (ints_from (Uint63.of_Z 0) n).
Proof.
  intros Ha. pose proof (ints_from_elem n 0 (Z.to_nat a) ltac:(lia)) as Hin.
  rewrite Z.add_0_l, Z2Nat.id in Hin by lia. exact Hin.
Qed.

Lemma max_sum_value : max_sum = 38100%Z.
Proof. reflexivity. Qed.

(** All [(max_sum + 1) * 128] sums of a partial sum and a byte, evaluated in
    binary64. *)
Lemma sums_exact_everywhere :
  forallb (fun a =>
    forallb (fun b =>
      PrimFloat.Leibniz.eqb
        (PrimFloat.add (PrimFloat.of_uint63 a) (PrimFloat.of_uint63 b))
        (PrimFloat.of_uint63 (Uint63.add a b)))
      (ints_from (Uint63.of_Z 0) 128))
    (ints_from (Uint63.of_Z 0) (Z.to_nat (max_sum + 1))) = true.
Proof. vm_compute. reflexivity. Qed.

Lemma b64_add_exact (a b : Z) :
  (0 <= a <= max_sum)%Z -> (0 <= b <= 127)%Z ->
  add (of_Z (num := float) a) (of_Z b) = of_Z (a + b).
Proof.
  intros Ha Hb. rewrite !of_Z_uint63 by lia. rewrite uint63_of_Z_add.
  cbn [add binary64]. apply FloatAxioms.Leibniz.eqb_spec.
  assert (Hina : In (Uint63.of_Z a) (ints_from (Uint63.of_Z 0) (Z.to_nat (max_sum + 1))))
    by (apply ints_from_zero_elem; lia).
  assert (Hinb : In (Uint63.of_Z b) (ints_from (Uint63.of_Z 0) 128))
    by (apply ints_from_zero_elem; lia).
  exact (proj1 (forallb_forall _ _)
           (proj1 (forallb_forall _ _) sums_exact_everywhere _ Hina) _ Hinb).
Qed.

Lemma sum_Z_bounds (bs : list Z) :
  Forall midi_data bs -> (0 <= sum_Z bs <= 127 * Z.of_nat (length bs))%Z.
Proof.
  induction 1 as [|b bs Hb _ IH]; cbn [sum_Z fold_right length]; [lia|].
  unfold midi_data in Hb. fold (sum_Z bs). lia.
Qed.

Lemma sum_Z_permutation (l l' : list Z) : Permutation l l' -> sum_Z l = sum_Z l'.
Proof.
  unfold sum_Z.
  induction 1 as [|x l l' _ IH|x y l|l l' l'' _ IH1 _ IH2]; cbn [fold_right] in *; lia.
Qed.

Lemma foldl_add_exact_b64 (bs : list Z) (acc : Z) :
  Forall midi_data bs -> (0 <= acc)%Z ->
  (acc + 127 * Z.of_nat (length bs) <= max_sum)%Z ->
  foldl add (of_Z (num := float) acc) (map of_Z bs) = of_Z (acc + sum_Z bs).
Proof.
  intros Hbs. revert acc. induction Hbs as [|b bs Hb Hbs IH]; intros acc Hacc Hmax.
  - cbn. f_equal. lia.
  - cbn [map foldl sum_Z fold_right length] in *. fold (sum_Z bs).
    unfold midi_data in Hb. rewrite b64_add_exact by lia.
    rewrite IH by lia. f_equal. lia.
Qed.

(** X19: Sums of history samples are exact in binary64.  A selection of at most
    [HISTORY_LENGTH] samples holds integers 0..127, every partial sum is an
    integer below 2^53, so adding the terms one after the other returns the
    integer sum, in whatever order the terms come, and [np.mean] is that
    integer divided by the count, rounded once. *)
Theorem sum_of_samples_is_exact (bs : list Z) :
  Forall midi_data bs -> (length bs <= HISTORY_LENGTH)%nat ->
  np_sum (map (of_Z (num := float)) bs) = of_Z (sum_Z bs) /\
  np_mean (map (of_Z (num := float)) bs)
    = div (of_Z (sum_Z bs)) (of_Z (Z.of_nat (length bs))) /\
  forall bs', Permutation bs bs' ->
    np_sum (map (of_Z (num := float)) bs') = np_sum (map (of_Z (num := float)) bs).
Proof.
  intros Hbs Hlen.
  assert (Hsum : forall l, Forall midi_data l -> (length l <= HISTORY_LENGTH)%nat ->
            np_sum (map (of_Z (num := float)) l) = of_Z (sum_Z l)).
  { intros l Hl Hn. unfold np_sum, zero.
    rewrite (foldl_add_exact_b64 l 0 Hl); [reflexivity | lia |].
    rewrite max_sum_value. unfold HISTORY_LENGTH in Hn. lia. }
  split; [now apply Hsum|]. split.
  - unfold np_mean, of_nat. now rewrite Hsum, length_map.
  - intros bs' Hperm. rewrite !Hsum; try assumption.
    + f_equal. symmetry. now apply sum_Z_permutation.
    + now rewrite <- Hperm.
    + now rewrite <- Hperm.
Qed.

Lemma sum_of_samples_is_exact_witness :
  np_sum (map (of_Z (num := float)) [60; 70; 80]%Z) = of_Z (sum_Z [60; 70; 80]%Z).
Proof.
  refine (proj1 (sum_of_samples_is_exact [60; 70; 80]%Z _ _)).
  - repeat constructor; unfold midi_data; lia.
  - unfold HISTORY_LENGTH. simpl. lia.
Defined.

(** ** Inside a note *)

Lemma thirds_exact :
  forallb (fun c => PrimFloat.Leibniz.eqb (div (of_Z (c + c + c)) (of_Z 3)) (of_Z c))
          (bytes_upto 127) = true.
Proof. vm_compute. reflexivity. Qed.

Lemma byte_nonzero (s : Z) : (1 <= s <= 127)%Z -> of_Z (num := float) s <> zero.
Proof.
  intros Hs. apply sample_gt0_iff.
  - exists s. split; [unfold midi_data; lia | reflexivity].
  - rewrite gt0_byte by (unfold midi_data; lia). apply Z.ltb_lt. lia.
Qed.

(** X20: Inside a note the display shows the mean of three data bytes, rounded
    once (binary64): where a sample and both its neighbours are non-zero,
    the output is the integer sum of the three bytes, which is exact,
    divided by 3.  A steady tone is therefore displayed unchanged. *)
Theorem inside_note_average (vh : list float) (nh : list Z) (i : nat) (p c n : Z) :
  Forall sample vh -> length nh = length vh -> (0 < i)%nat ->
  vh !! (i - 1)%nat = Some (of_Z p) -> vh !! i = Some (of_Z c) ->
  vh !! (i + 1)%nat = Some (of_Z n) ->
  (1 <= p <= 127)%Z -> (1 <= c <= 127)%Z -> (1 <= n <= 127)%Z ->
  (smoothed_series vh nh).1 !! i = Some (div (of_Z (p + c + n)) (of_Z 3)) /\
  (p = c -> n = c -> (smoothed_series vh nh).1 !! i = Some (of_Z c)).
Proof.
  intros Hs Hnh Hi Hvp Hvc Hvn Hp Hc Hn.
  destruct (bridge_gaps_nonzero vh nh _ _ Hs Hvp (byte_nonzero p Hp)) as [Hbp _].
  destruct (bridge_gaps_nonzero vh nh _ _ Hs Hvc (byte_nonzero c Hc)) as [Hbc Hgc].
  destruct (bridge_gaps_nonzero vh nh _ _ Hs Hvn (byte_nonzero n Hn)) as [Hbn _].
  destruct (bridge_gaps_length vh nh) as [Hlen _].
  pose proof (lookup_lt_Some _ _ _ Hvn) as Hlt.
  assert (Hmean : (smoothed_series vh nh).1 !! i = Some (div (of_Z (p + c + n)) (of_Z 3))).
  { unfold smoothed_series. cbn [fst].
    rewrite moving_average_interior_pos by (assumption || lia).
    unfold mean3. rewrite (item_lookup _ _ _ Hbp), (item_lookup _ _ _ Hbc),
      (item_lookup _ _ _ Hbn).
    rewrite max_sum_value || idtac.
    rewrite !b64_add_exact by (rewrite ?max_sum_value; lia). reflexivity. }
  split; [exact Hmean|]. intros -> ->. rewrite Hmean. f_equal.
  apply FloatAxioms.Leibniz.eqb_spec.
  refine (proj1 (forallb_forall _ _) thirds_exact c _).
  apply bytes_upto_complete. lia.
Qed.

Lemma inside_note_average_witness :
  (smoothed_series (velocity_history three_samples) (note_history three_samples)).1 !! 298%nat
  = Some (div (of_Z (60 + 70 + 80)) (of_Z 3)).
Proof.
  refine (proj1 (inside_note_average (velocity_history three_samples)
                   (note_history three_samples) 298 60 70 80 _ _ _ _ _ _ _ _ _)).
  - apply three_samples_wf.
  - rewrite (wf_vlen _ three_samples_wf), (wf_nlen _ three_samples_wf). reflexivity.
  - lia.
  - vm_compute. reflexivity.
  - vm_compute. reflexivity.
  - vm_compute. reflexivity.
  - lia.
  - lia.
  - lia.
Defined.

(** ** Gaps, as plotted *)

Section GapNotes.

Context {num : Type} {SN : Scalar num} {B : ByteOrder num}.

(** A non-zero sample keeps its note through the bridging pass. *)
Lemma bridge_gaps_nonzero_note (vh : list num) (nh : list Z) (i : nat) (x : num) :
  Forall sample vh -> vh !! i = Some x -> x <> zero ->
  (bridge_gaps vh nh).2 !! i = nh !! i.
Proof.
  intros Hs Hi Hx.
  assert (Hgx : gt0 x = true).
  { apply sample_gt0_iff; [|assumption].
    exact (proj1 (Forall_lookup _ _) Hs i x Hi). }
  pose proof (lookup_lt_Some _ _ _ Hi) as Hlt.
  pose proof (take_drop_middle vh i x Hi) as Hsplit.
  destruct (bridge_gaps_anchor (take i vh) (drop (S i) vh) x nh Hgx) as [_ Hn].
  rewrite Hsplit, length_take in Hn. now replace (i `min` length vh)%nat with i in Hn by lia.
Qed.

(** The notes of the smoother's output, in a state whose slots are
    sentinels or pushed samples. *)
Lemma smoothed_notes (vh : list num) (nh : list Z) :
  Forall sample vh -> Forall2 slot vh nh ->
  (forall a b x y j,
     consecutive_anchors vh a b x y ->
     (0 < b - a - 1 <= gap_threshold)%nat -> (1 <= j <= b - a - 1)%nat ->
     exists n, nh !! b = Some n /\ midi_data n /\
               (smoothed_series vh nh).2 !! (a + j)%nat = Some n) /\
  (forall k,
     (forall a b x y, consecutive_anchors vh a b x y -> (a < k < b)%nat ->
                      (gap_threshold < b - a - 1)%nat) ->
     (smoothed_series vh nh).2 !! k = nh !! k) /\
  (forall i x, vh !! i = Some x -> x <> zero ->
     exists n, nh !! i = Some n /\ midi_data n /\ (smoothed_series vh nh).2 !! i = Some n).
Proof.
  intros Hs Hslots. pose proof (Forall2_length _ _ _ Hslots) as Hlen.
  assert (Hanchor : forall i x, vh !! i = Some x -> x <> zero ->
            exists n, nh !! i = Some n /\ midi_data n /\
                      (smoothed_series vh nh).2 !! i = Some n).
  { intros i x Hi Hx.
    destruct (lookup_lt_is_Some_2 nh i) as [n Hn];
      [rewrite <- Hlen; eapply lookup_lt_Some; eauto|].
    exists n. split; [assumption|]. split.
    - destruct (Forall2_lookup_lr _ _ _ _ _ _ Hslots Hi Hn) as [[Hz _]|Hm];
        [contradiction | assumption].
    - unfold smoothed_series. cbn [snd]. now rewrite (bridge_gaps_nonzero_note vh nh i x). }
  split; [|split; [|exact Hanchor]].
  - intros a b x y j Hca HG Hj.
    pose proof (bridge_gaps_between vh nh a b x y j Hs (eq_sym Hlen) Hca Hj) as Hb.
    rewrite (bridgeable_short a b HG) in Hb. destruct Hb as [_ Hb].
    destruct Hca as (_ & _ & Hy & _ & Hynz & _).
    destruct (Hanchor b y Hy Hynz) as (n & Hn & Hm & _).
    exists n. split; [assumption|]. split; [assumption|].
    assert (Hib : item_note nh b = n) by (unfold item_note; now rewrite Hn).
    unfold smoothed_series. cbn [snd]. rewrite Hb, Hib. unfold bridged_note.
    unfold midi_data in Hm. destruct (Z.leb_spec 0 n); [reflexivity | lia].
  - intros k Hk. unfold smoothed_series. cbn [snd].
    destruct (vh !! k) as [v|] eqn:Hv.
    + pose proof (proj1 (Forall_lookup _ _) Hs k v Hv) as Hsv.
      destruct (sample_zero_dec v Hsv) as [->|Hnz];
        [|now apply (bridge_gaps_nonzero_note vh nh k v)].
      destruct (zero_sample_position vh k Hs Hv)
        as [Hpre|[Hpost|(a & b & x & y & Hca & Hab)]].
      * apply bridge_gaps_border; [eapply lookup_lt_Some; eauto | auto].
      * apply bridge_gaps_border; [eapply lookup_lt_Some; eauto | auto].
      * pose proof (bridge_gaps_between vh nh a b x y (k - a) Hs (eq_sym Hlen) Hca) as Hb.
        rewrite (bridgeable_long a b (Hk a b x y Hca Hab)) in Hb.
        replace (a + (k - a))%nat with k in Hb by lia.
        apply Hb. lia.
    + destruct (bridge_gaps_length vh nh) as [_ Hl2].
      apply lookup_ge_None_1 in Hv.
      rewrite !lookup_ge_None_2; [reflexivity | lia | lia].
Qed.

(** X21: Bridged samples take the note of the anchor after the gap.  In every
    state the event loop reaches, each sample of a bridged gap gets the note
    id of the right-hand anchor, which is a MIDI note 0..127 (the fallback to
    the left-hand anchor is never needed); every sample outside the bridged
    gaps keeps its note id. *)
Theorem bridged_samples_take_next_note (frames : list Frame) (l : Loop (num := num)) :
  Forall valid_frame frames -> run init_loop frames = Some l ->
  let st := core (visualizer l) in
  let notes := (update_graph st).2 in
  (forall a b x y j,
     consecutive_anchors (velocity_history st) a b x y ->
     (0 < b - a - 1 <= gap_threshold)%nat -> (1 <= j <= b - a - 1)%nat ->
     exists n, note_history st !! b = Some n /\ midi_data n /\
               notes !! (a + j)%nat = Some n) /\
  (forall k,
     (forall a b x y, consecutive_anchors (velocity_history st) a b x y ->
                      (a < k < b)%nat -> (gap_threshold < b - a - 1)%nat) ->
     notes !! k = note_history st !! k).
Proof.
  intros Hf Hrun st notes.
  destruct (run_consistent frames init_loop Hf init_consistent) as (l' & Hrun' & Hl).
  assert (l' = l) as -> by congruence.
  destruct (smoothed_notes (velocity_history st) (note_history st)
              (wf_samples _ (consistent_wf _ Hl)) (consistent_slots _ Hl))
    as (Hgap & Hother & _).
  split; [exact Hgap | exact Hother].
Qed.

End GapNotes.

Lemma legato_runs : run init_loop legato = Some after_legato.
Proof. vm_compute. reflexivity. Qed.

Lemma legato_valid : Forall valid_frame legato.
Proof.
  unfold legato, valid_frame. cbn.
  repeat first [ constructor | unfold midi_data; simpl; lia ].
Qed.

Lemma legato_anchors :
  consecutive_anchors (velocity_history (core (visualizer after_legato))) 293 299
                      80%float 100%float.
Proof.
  split; [lia|]. split; [vm_compute; reflexivity|]. split; [vm_compute; reflexivity|].
  split; [apply float_distinct; vm_compute; reflexivity|].
  split; [apply float_distinct; vm_compute; reflexivity|].
  intros k Hk.
  assert (Hcases : (k = 294 \/ k = 295 \/ k = 296 \/ k = 297 \/ k = 298)%nat) by lia.
  repeat destruct Hcases as [->|Hcases]; try subst k; vm_compute; reflexivity.
Qed.

Lemma long_pause_runs : run init_loop long_pause = Some after_long_pause.
Proof. vm_compute. reflexivity. Qed.

Lemma long_pause_valid : Forall valid_frame long_pause.
Proof.
  unfold long_pause, valid_frame. cbn.
  repeat first [ constructor | unfold midi_data; simpl; lia ].
Qed.

Lemma long_pause_anchors :
  consecutive_anchors (velocity_history (core (visualizer after_long_pause))) 273 299
                      80%float 100%float.
Proof.
  split; [lia|]. split; [vm_compute; reflexivity|]. split; [vm_compute; reflexivity|].
  split; [apply float_distinct; vm_compute; reflexivity|].
  split; [apply float_distinct; vm_compute; reflexivity|].
  intros k Hk.
  assert (Hseg : take 25 (drop 274 (velocity_history (core (visualizer after_long_pause))))
                 = replicate 25 zero)
    by (vm_compute; reflexivity).
  replace k with (274 + (k - 274))%nat by lia.
  rewrite <- lookup_drop, <- (lookup_take_lt _ 25) by lia.
  rewrite Hseg. apply lookup_replicate_2. lia.
Qed.

Lemma bridged_samples_take_next_note_witness :
  exists n, note_history (core (visualizer after_legato)) !! 299%nat = Some n /\
            midi_data n /\
            (update_graph (core (visualizer after_legato))).2 !! (293 + 1)%nat = Some n.
Proof.
  apply (proj1 (bridged_samples_take_next_note legato after_legato legato_valid legato_runs)
           293%nat 299%nat 80%float 100%float 1%nat).
  - exact legato_anchors.
  - unfold gap_threshold. lia.
  - lia.
Defined.

(** The neighbouring points of the final series at a gap (binary64). *)
Lemma gap_neighbours (vh : list float) (nh : list Z) (a b : nat) (x y : float) :
  Forall sample vh -> length nh = length vh ->
  consecutive_anchors vh a b x y ->
  let final := (smoothed_series vh nh).1 in
  ((gap_threshold < b - a - 1)%nat -> neighbours final a b) /\
  ((b - a - 1 <= gap_threshold)%nat ->
     forall j, (j < b - a)%nat -> neighbours final (a + j) (a + j + 1)).
Proof.
  intros Hs Hnh Hca final. pose proof Hca as (Hab & Ha & Hb & Hx & Hy & Hgap).
  pose proof (lookup_lt_Some _ _ _ Hb) as Hlb.
  assert (Hlen : length final = length vh).
  { unfold final, smoothed_series. cbn [fst]. rewrite moving_average_length.
    apply bridge_gaps_length. }
  assert (Hga : gt0 (item final a) = true).
  { unfold final. rewrite moving_average_gt0_b64 by assumption.
    now destruct (bridge_gaps_nonzero vh nh a x Hs Ha Hx). }
  assert (Hgb : gt0 (item final b) = true).
  { unfold final. rewrite moving_average_gt0_b64 by assumption.
    now destruct (bridge_gaps_nonzero vh nh b y Hs Hb Hy). }
  split.
  - intros Hlong. split; [lia|]. split; [assumption|]. split; [assumption|].
    intros k Hk. unfold final. rewrite moving_average_gt0_b64 by assumption.
    pose proof (bridge_gaps_between vh nh a b x y (k - a) Hs Hnh Hca) as Hbr.
    rewrite (bridgeable_long a b Hlong) in Hbr.
    replace (a + (k - a))%nat with k in Hbr by lia.
    destruct Hbr as [Hbr _]; [lia|].
    rewrite (item_lookup _ _ _ Hbr). apply gt0_zero.
  - intros Hshort j Hj.
    assert (Hpoint : forall i, (i <= b - a)%nat -> gt0 (item final (a + i)) = true).
    { intros i Hi. destruct (decide (i = 0%nat)) as [->|Hi0];
        [now rewrite Nat.add_0_r|].
      destruct (decide (i = (b - a)%nat)) as [->|Hib];
        [now replace (a + (b - a))%nat with b by lia|].
      unfold final. rewrite moving_average_gt0_b64 by assumption.
      now destruct (bridged_gap_b64 vh nh a b x y i Hs Hnh Hca); [lia | lia |]. }
    split; [lia|]. split; [apply Hpoint; lia|].
    split; [replace (a + j + 1)%nat with (a + (j + 1))%nat by lia; apply Hpoint; lia|].
    intros k Hk. lia.
Qed.

(** X22: How a gap is drawn (binary64), in every state the event loop reaches.
    A gap longer than the threshold is drawn as one straight segment from
    the anchor before it to the anchor after it, in the colour of the note
    before the gap: the zero samples in between are not plotted, so the line
    does not go down to zero.  A gap within the threshold, and two adjacent
    anchors, are drawn sample by sample: the first segment in the colour of
    the note at the left anchor, the others in the colour of the note at the
    right anchor. *)
Theorem gaps_as_plotted (frames : list Frame) (l : Loop (num := float))
    (a b : nat) (x y : float) :
  Forall valid_frame frames -> run init_loop frames = Some l ->
  let st := core (visualizer l) in
  let final := (update_graph st).1 in
  consecutive_anchors (velocity_history st) a b x y ->
  exists na nb,
    note_history st !! a = Some na /\ note_history st !! b = Some nb /\
    ((gap_threshold < b - a - 1)%nat ->
       {| x_vals := (a, b);
          y_vals := (item final a, item final b);
          normalized_color := normalize (color_of (note_colors st) na) |} ∈ plotted st) /\
    ((b - a - 1 <= gap_threshold)%nat -> forall j, (j < b - a)%nat ->
       {| x_vals := (a + j, a + j + 1)%nat;
          y_vals := (item final (a + j), item final (a + j + 1));
          normalized_color :=
            normalize (color_of (note_colors st) (if (j =? 0)%nat then na else nb)) |}
       ∈ plotted st).
Proof.
  intros Hf Hrun st final Hca.
  destruct (run_consistent (num := float) frames init_loop Hf init_consistent)
    as (l' & Hrun' & Hl).
  assert (l' = l) as -> by congruence.
  pose proof (wf_samples _ (consistent_wf _ Hl)) as Hs. fold st in Hs.
  pose proof (consistent_slots _ Hl) as Hslots. fold st in Hslots.
  pose proof (Forall2_length _ _ _ Hslots) as Hlen.
  destruct (smoothed_notes _ _ Hs Hslots) as (Hgapn & _ & Hanchor).
  destruct (gap_neighbours _ (note_history st) a b x y Hs (eq_sym Hlen) Hca)
    as [Hlong Hshort].
  pose proof Hca as (Hab & Ha & Hb & Hx & Hy & _).
  destruct (Hanchor a x Ha Hx) as (na & Hna & Hma & Hsa).
  destruct (Hanchor b y Hb Hy) as (nb & Hnb & Hmb & Hsb).
  exists na, nb. split; [assumption|]. split; [assumption|].
  assert (Hia : item_note (update_graph st).2 a = na)
    by (unfold item_note, update_graph; now rewrite Hsa).
  unfold midi_data in Hma, Hmb. split.
  - intros HG. apply plot_segments_spec. exists a, b.
    split; [now apply Hlong|]. rewrite Hia. split; [lia | reflexivity].
  - intros HG j Hj. apply plot_segments_spec. exists (a + j)%nat, (a + j + 1)%nat.
    split; [now apply Hshort|].
    destruct (Nat.eqb_spec j 0) as [->|Hj0].
    + rewrite Nat.add_0_r, Hia. split; [lia | reflexivity].
    + destruct (Hgapn a b x y j Hca) as (n & Hn & _ & Hsj); [lia | lia |].
      assert (n = nb) as -> by congruence.
      assert (Hij : item_note (update_graph st).2 (a + j) = nb)
        by (unfold item_note, update_graph; now rewrite Hsj).
      rewrite Hij. split; [lia | reflexivity].
Qed.

Lemma gaps_as_plotted_witness :
  let st := core (visualizer after_long_pause) in
  let final := (update_graph st).1 in
  exists na nb,
    note_history st !! 273%nat = Some na /\ note_history st !! 299%nat = Some nb /\
    ((gap_threshold < 299 - 273 - 1)%nat ->
       {| x_vals := (273, 299)%nat;
          y_vals := (item final 273, item final 299);
          normalized_color := normalize (color_of (note_colors st) na) |} ∈ plotted st) /\
    ((299 - 273 - 1 <= gap_threshold)%nat -> forall j, (j < 299 - 273)%nat ->
       {| x_vals := (273 + j, 273 + j + 1)%nat;
          y_vals := (item final (273 + j), item final (273 + j + 1));
          normalized_color :=
            normalize (color_of (note_colors st) (if (j =? 0)%nat then na else nb)) |}
       ∈ plotted st).
Proof.
  exact (gaps_as_plotted long_pause after_long_pause 273 299 80%float 100%float
           long_pause_valid long_pause_runs long_pause_anchors).
Defined.

(** ** The event loop and the sampling tick *)

Section LoopAndTick.

Context {num : Type} {SN : Scalar num}.

Lemma core_dispatch (v : Visualizer (num := num)) (timed : string * midi_event) :
  core (dispatch v timed) = process_event (core v) timed.2.
Proof.
  unfold dispatch, process_event.
  destruct (_ && _); [reflexivity|]. destruct (_ || _); [reflexivity|].
  destruct (_ =? _)%Z; reflexivity.
Qed.

Lemma core_dispatch_all (events : list (string * midi_event)) (v : Visualizer (num := num)) :
  core (foldl dispatch v events) = foldl process_event (core v) (map snd events).
Proof.
  revert v. induction events as [|e events IH]; intros v; cbn [foldl map]; [reflexivity|].
  now rewrite IH, core_dispatch.
Qed.

(** [process_midi] on the visualizer is [process_midi] on its core. *)
Lemma core_process_midi_logged (v : Visualizer (num := num))
    (events : list (string * midi_event)) :
  option_map core (process_midi_logged v events) = process_midi (core v) (map snd events).
Proof.
  unfold process_midi_logged, process_midi. rewrite <- core_dispatch_all.
  now destruct (update_history (core (foldl dispatch v events))).
Qed.

(** X23: With frames more than [MIDI_POLL_RATE] = 10 ms apart (the frame rate is
    capped at 30 per second) and no key or mouse events, every pass of the
    loop is one sampling tick: the core after [run] is the core after
    [process_midi] was called once per frame, in order, and [run] raises
    exactly when one of these calls does. *)
Theorem spaced_frames_tick_each_pass (frames : list Frame) (l : Loop (num := num)) :
  running l = true ->
  Forall (fun f => pygame_events f = []) frames ->
  well_spaced (last_midi_check l) (map current_time frames) ->
  option_map (fun l' => core (visualizer l')) (run l frames)
  = run_ticks (core (visualizer l)) (ticks_of frames).
Proof.
  revert l. induction frames as [|f frames IH]; intros l Hr Hq Hsp; [reflexivity|].
  inversion Hq as [|? ? Hq1 Hq2]; subst. destruct Hsp as [Ht Hsp].
  cbn [run ticks_of map run_ticks]. rewrite Hr. unfold frame_step, polls.
  rewrite Hq1. cbn [foldl fst snd].
  destruct (Z.ltb_spec MIDI_POLL_RATE (current_time f - last_midi_check l)) as [_|?]; [|lia].
  rewrite <- core_process_midi_logged.
  destruct (process_midi_logged (visualizer l) (midi_events f)) as [v|]; [|reflexivity].
  cbn [option_map]. now rewrite IH.
Qed.

End LoopAndTick.

Lemma spaced_frames_tick_each_pass_witness :
  option_map (fun l' => core (visualizer l')) (run (init_loop (num := float)) legato)
  = run_ticks init (ticks_of legato).
Proof.
  apply (spaced_frames_tick_each_pass legato init_loop).
  - reflexivity.
  - unfold legato. cbn. repeat constructor.
  - unfold legato, MIDI_POLL_RATE. cbn. repeat split; lia.
Defined.

(** ** The colour table *)

Section Colours.

Context {num : Type} {SN : Scalar num}.

Lemma note_on_colour_complete (st : State (num := num)) (note velocity : Z) :
  colour_complete st -> colour_complete (note_on st note velocity).
Proof.
  intros [Hc Hh]. split; cbn [note_on current_note note_colors note_history].
  - intros n [= <-]. destruct (note_colors st !! note) eqn:E.
    + rewrite E. eauto.
    + rewrite lookup_insert_eq. eauto.
  - destruct (note_colors st !! note) eqn:E; [assumption|].
    eapply Forall_impl; [exact Hh|]. intros n [->|Hn]; [now left|right].
    destruct (decide (note = n)) as [->|Hne].
    + rewrite lookup_insert_eq. eauto.
    + now rewrite lookup_insert_ne.
Qed.

Lemma dispatch_colour_complete (v : Visualizer (num := num)) (timed : string * midi_event) :
  colour_complete (core v) -> colour_complete (core (dispatch v timed)).
Proof.
  intros Hv. rewrite core_dispatch. unfold process_event.
  destruct (_ && _); [now apply note_on_colour_complete|].
  destruct (_ || _); [exact Hv|].
  destruct (_ =? _)%Z; exact Hv.
Qed.

Lemma dispatch_all_colour_complete (events : list (string * midi_event))
    (v : Visualizer (num := num)) :
  colour_complete (core v) -> colour_complete (core (foldl dispatch v events)).
Proof.
  revert v. induction events as [|e events IH]; intros v Hv; cbn [foldl]; [assumption|].
  now apply IH, dispatch_colour_complete.
Qed.

Lemma push_sample_colour_complete (st : State (num := num)) (note : Z) :
  current_note st = Some note -> colour_complete st -> colour_complete (push_sample st note).
Proof.
  intros Hnote [Hc Hh]. split; cbn [push_sample current_note note_colors note_history].
  - exact Hc.
  - unfold set_last. apply Forall_insert; [|right; now apply Hc].
    unfold np_roll_left. destruct (note_history st) as [|x t]; [constructor|].
    inversion Hh; subst. apply Forall_app. split; [assumption|]. now constructor.
Qed.

Lemma process_midi_logged_colour_complete (v v' : Visualizer (num := num))
    (events : list (string * midi_event)) :
  process_midi_logged v events = Some v' -> colour_complete (core v) -> colour_complete (core v').
Proof.
  unfold process_midi_logged, update_history. intros Hrun Hv.
  pose proof (dispatch_all_colour_complete events v Hv) as Hmid.
  destruct (is_note_active _).
  - destruct (current_note _) as [note|] eqn:Hnote; [|discriminate].
    injection Hrun as <-. cbn [core]. now apply push_sample_colour_complete.
  - injection Hrun as <-. exact Hmid.
Qed.

Lemma left_click_colour_complete (v : Visualizer (num := num)) (timestamp : string)
    (mouse_pos : Z * Z) :
  colour_complete (core v) -> colour_complete (core (left_click v timestamp mouse_pos)).
Proof.
  intros Hv. unfold left_click. destruct (collidepoint _ _); [exact Hv|].
  destruct (cc_dropdown_open _); [|exact Hv].
  destruct (clicked_option _ _ _); exact Hv.
Qed.

Lemma key_down_colour_complete (s : Visualizer (num := num) * bool) (timestamp : string) (key : Z) :
  key <> K_c -> colour_complete (core s.1) -> colour_complete (core (key_down s timestamp key).1).
Proof.
  intros Hk Hv. unfold key_down.
  destruct (_ =? _)%Z; [exact Hv|].
  destruct (_ =? _)%Z; [exact Hv|].
  destruct (Z.eqb_spec key K_c); [contradiction|].
  destruct (_ && _); exact Hv.
Qed.

Lemma handle_events_colour_complete (events : list (string * pygame_event))
    (s : Visualizer (num := num) * bool) :
  Forall (fun timed : string * pygame_event => timed.2 <> KEYDOWN K_c) events ->
  colour_complete (core s.1) -> colour_complete (core (foldl handle_event s events).1).
Proof.
  revert s. induction events as [|e events IH]; intros s He Hv; cbn [foldl]; [assumption|].
  inversion He as [|? ? He1 He2]; subst. apply IH; [assumption|].
  unfold handle_event. destruct e.2 as [|key|button mouse_pos|] eqn:E.
  - exact Hv.
  - apply key_down_colour_complete; [|exact Hv]. intros ->. now apply He1.
  - destruct (_ =? _)%Z; [|exact Hv]. now apply left_click_colour_complete.
  - exact Hv.
Qed.

Lemma run_colour_complete (frames : list Frame) (l l' : Loop (num := num)) :
  never_cleared frames -> run l frames = Some l' ->
  colour_complete (core (visualizer l)) -> colour_complete (core (visualizer l')).
Proof.
  revert l. induction frames as [|f frames IH]; intros l Hf Hrun Hv; cbn [run] in Hrun.
  - now injection Hrun as <-.
  - inversion Hf as [|? ? Hf1 Hf2]; subst.
    destruct (running l); [|now injection Hrun as <-].
    destruct (frame_step l f) as [l1|] eqn:Hstep; [|discriminate].
    apply (IH l1 Hf2 Hrun). unfold frame_step in Hstep.
    pose proof (handle_events_colour_complete (pygame_events f) (visualizer l, running l) Hf1 Hv)
      as Hs.
    destruct (polls l f).
    + destruct (process_midi_logged _ _) as [v|] eqn:Hp; [|discriminate].
      injection Hstep as <-. cbn [visualizer].
      exact (process_midi_logged_colour_complete _ _ _ Hp Hs).
    + now injection Hstep as <-.
Qed.

Lemma init_colour_complete : colour_complete (init (num := num)).
Proof.
  split; [discriminate|]. cbn [init note_history].
  apply Forall_replicate. now left.
Qed.

Lemma bridge_pair_notes (P : Z -> Prop) (vh : list num) (nh : list Z)
    (sm : list num * list Z) (p : nat * nat) :
  (forall i, P (item_note nh i)) -> Forall P sm.2 -> Forall P (bridge_pair vh nh sm p).2.
Proof.
  intros Hitem Hsm. unfold bridge_pair. destruct (_ && _); [|assumption].
  generalize (seq 1 (p.2 - p.1 - 1)). intros js. revert sm Hsm.
  induction js as [|j js IHj]; intros sm Hsm; cbn [foldl]; [assumption|].
  apply IHj. unfold bridge_step, bridged_note. cbn [snd].
  destruct (_ <=? _)%Z; [now apply Forall_insert|].
  destruct (_ <=? _)%Z; [now apply Forall_insert|assumption].
Qed.

(** The notes of the smoother's output are notes of the history. *)
Lemma bridge_gaps_notes (P : Z -> Prop) (vh : list num) (nh : list Z) :
  P (-1)%Z -> Forall P nh -> Forall P (bridge_gaps vh nh).2.
Proof.
  intros Hd Hnh. unfold bridge_gaps.
  assert (Hitem : forall i, P (item_note nh i)).
  { intros i. unfold item_note. destruct (nh !! i) as [n|] eqn:E; [|exact Hd].
    exact (proj1 (Forall_lookup _ _) Hnh i n E). }
  destruct (_ <? _)%nat; [|exact Hnh].
  assert (Hall : forall pairs sm, Forall P sm.2 ->
                   Forall P (foldl (bridge_pair vh nh) sm pairs).2).
  { induction pairs as [|p pairs IH]; intros sm Hsm; cbn [foldl]; [assumption|].
    now apply IH, bridge_pair_notes. }
  now apply Hall.
Qed.

(** X24: Until the history is cleared with the key C, every note the display can
    show has its own entry in [note_colors]: the notes of the legend, the
    notes of the series [update_graph] plots, and the current note.  The
    fallback colour of [note_colors.get(note, NOTE_COLORS[0])] is then never
    used. *)
Theorem colours_assigned_until_cleared (frames : list Frame) (l : Loop (num := num)) :
  never_cleared frames -> run init_loop frames = Some l ->
  let st := core (visualizer l) in
  (forall n, n ∈ legend_notes st -> is_Some (note_colors st !! n)) /\
  (forall n, n ∈ (update_graph st).2 -> (0 <= n)%Z -> is_Some (note_colors st !! n)) /\
  (forall n, current_note st = Some n -> is_Some (note_colors st !! n)).
Proof.
  intros Hf Hrun st.
  destruct (run_colour_complete frames init_loop l Hf Hrun init_colour_complete) as [Hc Hh].
  fold st in Hc, Hh. split; [|split].
  - intros n Hn. apply legend_notes_spec in Hn as [Hn H0].
    destruct (proj1 (Forall_forall _ _) Hh n Hn) as [->|Hs]; [lia | exact Hs].
  - intros n Hn H0. unfold update_graph, smoothed_series in Hn. cbn [snd] in Hn.
    pose proof (bridge_gaps_notes
      (fun n => n = (-1)%Z \/ is_Some (note_colors st !! n))
      (velocity_history st) (note_history st) (or_introl eq_refl) Hh) as Hb.
    destruct (proj1 (Forall_forall _ _) Hb n Hn) as [->|Hs]; [lia | exact Hs].
  - exact Hc.
Qed.

(** X25: Clearing the history while a note is held empties the colour table but
    not the current note: the next tick pushes the held note into the
    history, where it has no entry in [note_colors] and is drawn in the
    fallback colour [NOTE_COLORS[0]].  The next new note is given
    [NOTE_COLORS[0]] as its own colour, so both are drawn alike. *)
Theorem clear_forgets_colour_of_held_note (v : Visualizer (num := num))
    (timestamp : string) (n : Z) :
  is_note_active (core v) = true -> current_note (core v) = Some n ->
  exists v',
    process_midi_logged (key_down (v, true) timestamp K_c).1 [] = Some v' /\
    last (note_history (core v')) = Some n /\
    note_colors (core v') !! n = None /\
    color_of (note_colors (core v')) n = palette 0 /\
    forall m velocity, m <> n ->
      let st := note_on (core v') m velocity in
      note_colors st !! n = None /\
      color_of (note_colors st) m = palette 0 /\
      color_of (note_colors st) n = palette 0.
Proof.
  intros Ha Hn. unfold process_midi_logged, key_down, update_history.
  cbn [fst snd foldl core display Z.eqb K_c K_ESCAPE K_d Pos.eqb clear is_note_active
       current_note].
  rewrite Ha, Hn. eexists. split; [reflexivity|].
  cbn [core push_sample note_history note_colors clear color_index].
  split; [reflexivity|]. split; [apply lookup_empty|]. split; [reflexivity|].
  intros m velocity Hm. cbn [note_on note_colors push_sample clear color_index].
  rewrite lookup_empty. unfold color_of. split; [|split].
  - now rewrite lookup_insert_ne.
  - now rewrite lookup_insert_eq.
  - now rewrite lookup_insert_ne.
Qed.

End Colours.

Lemma colours_assigned_until_cleared_witness :
  never_cleared legato /\
  let st := core (visualizer after_legato) in
  (forall n, n ∈ legend_notes st -> is_Some (note_colors st !! n)) /\
  (forall n, n ∈ (update_graph st).2 -> (0 <= n)%Z -> is_Some (note_colors st !! n)) /\
  (forall n, current_note st = Some n -> is_Some (note_colors st !! n)).
Proof.
  assert (Hq : never_cleared legato).
  { unfold never_cleared, legato. cbn. repeat constructor. }
  split; [exact Hq|].
  exact (colours_assigned_until_cleared legato after_legato Hq legato_runs).
Defined.

Lemma clear_forgets_colour_of_held_note_witness :
  exists v',
    process_midi_logged (key_down (visualizer after_legato, true) "12:00:00" K_c).1 []
    = Some v' /\
    last (note_history (core v')) = Some 62%Z /\
    note_colors (core v') !! 62%Z = None /\
    color_of (note_colors (core v')) 62 = palette 0 /\
    forall m velocity, m <> 62%Z ->
      let st := note_on (core v') m velocity in
      note_colors st !! 62%Z = None /\
      color_of (note_colors st) m = palette 0 /\
      color_of (note_colors st) 62 = palette 0.
Proof.
  apply (clear_forgets_colour_of_held_note (visualizer after_legato) "12:00:00" 62).
  - vm_compute. reflexivity.
  - vm_compute. reflexivity.
Defined.

(** ** The statistics on display *)

(** The order of binary64 on the data bytes is the order of the integers. *)
Lemma bytes_compare_everywhere :
  forallb (fun a =>
    forallb (fun b =>
      Bool.eqb (PrimFloat.ltb (of_Z a) (of_Z b)) (a <? b)%Z
      && Bool.eqb (PrimFloat.leb (of_Z a) (of_Z b)) (a <=? b)%Z)
      (bytes_upto 127))
    (bytes_upto 127) = true.
Proof. vm_compute. reflexivity. Qed.

Lemma b64_compare_bytes (a b : Z) :
  midi_data a -> midi_data b ->
  ltb (of_Z (num := float) a) (of_Z b) = (a <? b)%Z /\
  PrimFloat.leb (of_Z a) (of_Z b) = (a <=? b)%Z.
Proof.
  intros Ha Hb. unfold midi_data in *.
  pose proof (proj1 (forallb_forall _ _)
                (proj1 (forallb_forall _ _) bytes_compare_everywhere a
                   (bytes_upto_complete 127 a ltac:(lia)))
                b (bytes_upto_complete 127 b ltac:(lia))) as Hc.
  cbv beta in Hc. apply andb_true_iff in Hc as [H1 H2].
  apply eqb_prop in H1, H2. split; assumption.
Qed.

(** [np.min] and [np.max] of data bytes: the least and the greatest byte. *)
Lemma np_min_bytes (b : Z) (bs : list Z) :
  midi_data b -> Forall midi_data bs ->
  exists lo, In lo (b :: bs) /\ Forall (Z.le lo) (b :: bs) /\
             np_min (map (of_Z (num := float)) (b :: bs)) = of_Z lo.
Proof.
  intros Hb Hbs. cbn [np_min map].
  assert (Hgen : forall acc, midi_data acc ->
            exists lo, (lo = acc \/ In lo bs) /\ (lo <= acc)%Z /\ Forall (Z.le lo) bs /\
              foldl (fun a b : float => if ltb b a then b else a) (of_Z acc) (map of_Z bs)
              = of_Z lo).
  { induction Hbs as [|x bs Hx Hbs IH]; intros acc Hacc.
    - exists acc. cbn. repeat split; auto; lia.
    - cbn [map foldl]. rewrite (proj1 (b64_compare_bytes x acc Hx Hacc)).
      destruct (Z.ltb_spec x acc) as [Hlt|Hge].
      + destruct (IH x Hx) as (lo & Hin & Hle & Hall & Heq).
        exists lo. split; [right; destruct Hin as [->|Hin]; [now left | now right]|].
        split; [lia|]. split; [constructor; [lia | assumption] | exact Heq].
      + destruct (IH acc Hacc) as (lo & Hin & Hle & Hall & Heq).
        exists lo. split; [destruct Hin as [->|Hin]; [now left | right; now right]|].
        split; [lia|]. split; [constructor; [lia | assumption] | exact Heq]. }
  destruct (Hgen b Hb) as (lo & Hin & Hle & Hall & Heq).
  exists lo. split; [destruct Hin as [->|Hin]; [now left | now right]|].
  split; [constructor; assumption | exact Heq].
Qed.

Lemma np_max_bytes (b : Z) (bs : list Z) :
  midi_data b -> Forall midi_data bs ->
  exists hi, In hi (b :: bs) /\ Forall (fun x => (x <= hi)%Z) (b :: bs) /\
             np_max (map (of_Z (num := float)) (b :: bs)) = of_Z hi.
Proof.
  intros Hb Hbs. cbn [np_max map].
  assert (Hgen : forall acc, midi_data acc ->
            exists hi, (hi = acc \/ In hi bs) /\ (acc <= hi)%Z /\
              Forall (fun x => (x <= hi)%Z) bs /\
              foldl (fun a b : float => if ltb a b then b else a) (of_Z acc) (map of_Z bs)
              = of_Z hi).
  { induction Hbs as [|x bs Hx Hbs IH]; intros acc Hacc.
    - exists acc. cbn. repeat split; auto; lia.
    - cbn [map foldl]. rewrite (proj1 (b64_compare_bytes acc x Hacc Hx)).
      destruct (Z.ltb_spec acc x) as [Hlt|Hge].
      + destruct (IH x Hx) as (hi & Hin & Hle & Hall & Heq).
        exists hi. split; [right; destruct Hin as [->|Hin]; [now left | now right]|].
        split; [lia|]. split; [constructor; [lia | assumption] | exact Heq].
      + destruct (IH acc Hacc) as (hi & Hin & Hle & Hall & Heq).
        exists hi. split; [destruct Hin as [->|Hin]; [now left | right; now right]|].
        split; [lia|]. split; [constructor; [lia | assumption] | exact Heq]. }
  destruct (Hgen b Hb) as (hi & Hin & Hle & Hall & Heq).
  exists hi. split; [destruct Hin as [->|Hin]; [now left | now right]|].
  split; [constructor; assumption | exact Heq].
Qed.

Lemma sum_Z_between (lo hi : Z) (bs : list Z) :
  Forall (Z.le lo) bs -> Forall (fun x => (x <= hi)%Z) bs ->
  (lo * Z.of_nat (length bs) <= sum_Z bs <= hi * Z.of_nat (length bs))%Z.
Proof.
  intros Hlo. induction Hlo as [|b bs Hb _ IH]; intros Hhi;
    cbn [sum_Z fold_right length]; [lia|].
  inversion Hhi; subst. fold (sum_Z bs). specialize (IH ltac:(assumption)). nia.
Qed.

(** All quotients of a sum of up to [HISTORY_LENGTH] data bytes by their
    count, evaluated in binary64: the rounded quotient lies between the
    integers below and above the exact one. *)
Lemma means_bracketed :
  forallb (fun n =>
    forallb (fun s =>
      let f := PrimFloat.div (PrimFloat.of_uint63 s) (PrimFloat.of_uint63 n) in
      PrimFloat.leb (PrimFloat.of_uint63 (Uint63.div s n)) f
      && PrimFloat.leb f (PrimFloat.of_uint63 (Uint63.div (Uint63.add s (Uint63.pred n)) n)))
      (ints_from (Uint63.of_Z 0) (Z.to_nat (127 * Uint63.to_Z n + 1))))
    (ints_from (Uint63.of_Z 1) HISTORY_LENGTH) = true.
Proof. vm_compute. reflexivity. Qed.

Lemma uint63_to_Z_of_Z (z : Z) :
  (0 <= z < 1048576)%Z -> Uint63.to_Z (Uint63.of_Z z) = z.
Proof.
  intros Hz. rewrite Uint63.of_Z_spec. apply Z.mod_small.
  assert (Hw : (1048576 < Uint63.wB)%Z) by reflexivity.
  split; [lia|]. eapply Z.lt_trans; [|exact Hw]. lia.
Qed.

Lemma b64_mean_bracket (s n : Z) :
  (1 <= n <= Z.of_nat HISTORY_LENGTH)%Z -> (0 <= s <= 127 * n)%Z ->
  PrimFloat.leb (of_Z (s / n)) (div (of_Z (num := float) s) (of_Z n)) = true /\
  PrimFloat.leb (div (of_Z (num := float) s) (of_Z n)) (of_Z ((s + (n - 1)) / n)) = true.
Proof.
  intros Hn Hs. unfold HISTORY_LENGTH in Hn.
  assert (Hq : (0 <= s / n <= s)%Z).
  { split; [apply Z.div_pos; lia|]. apply Z.div_le_upper_bound; nia. }
  assert (Hq' : (0 <= (s + (n - 1)) / n <= s + (n - 1))%Z).
  { split; [apply Z.div_pos; lia|]. apply Z.div_le_upper_bound; nia. }
  assert (Hdiv : Uint63.of_Z (s / n) = Uint63.div (Uint63.of_Z s) (Uint63.of_Z n)).
  { apply Uint63.to_Z_inj. rewrite Uint63.div_spec, !uint63_to_Z_of_Z by lia. reflexivity. }
  assert (Hdiv' : Uint63.of_Z ((s + (n - 1)) / n)
                  = Uint63.div (Uint63.add (Uint63.of_Z s) (Uint63.pred (Uint63.of_Z n)))
                               (Uint63.of_Z n)).
  { apply Uint63.to_Z_inj.
    rewrite Uint63.div_spec, Uint63.add_spec, Uint63.pred_spec, !uint63_to_Z_of_Z by lia.
    assert (Hw : (1048576 < Uint63.wB)%Z) by reflexivity.
    rewrite (Z.mod_small (n - 1)) by (split; [lia|]; eapply Z.lt_trans; [|exact Hw]; lia).
    rewrite (Z.mod_small (s + (n - 1)))
      by (split; [lia|]; eapply Z.lt_trans; [|exact Hw]; lia).
    reflexivity. }
  rewrite !of_Z_uint63 by lia. rewrite Hdiv, Hdiv'. cbn [div binary64].
  assert (Hinn : In (Uint63.of_Z n) (ints_from (Uint63.of_Z 1) HISTORY_LENGTH)).
  { pose proof (ints_from_elem HISTORY_LENGTH 1 (Z.to_nat (n - 1))
                  ltac:(unfold HISTORY_LENGTH; lia)) as Hin.
    replace (1 + Z.of_nat (Z.to_nat (n - 1)))%Z with n in Hin by lia. exact Hin. }
  pose proof (proj1 (forallb_forall _ _) means_bracketed _ Hinn) as Hrow.
  cbv beta in Hrow. rewrite uint63_to_Z_of_Z in Hrow by lia.
  assert (Hins : In (Uint63.of_Z s) (ints_from (Uint63.of_Z 0) (Z.to_nat (127 * n + 1))))
    by (apply ints_from_zero_elem; lia).
  pose proof (proj1 (forallb_forall _ _) Hrow _ Hins) as Hc.
  cbv beta zeta in Hc. now apply andb_true_iff in Hc.
Qed.

(** The order of binary64 is transitive from a positive finite value on. *)
Lemma SFleb_large (L : Z) (a b : spec_float) :
  SFlarge L a = true -> SFleb a b = true -> SFlarge L b = true.
Proof.
  destruct a as [sa|[]| |[] ma ea]; cbn [SFlarge]; try discriminate;
    destruct b as [sb|[]| |[] mb eb]; cbn [SFlarge SFleb SFcompare];
    try discriminate; try reflexivity.
  intros He. apply Z.leb_le in He.
  destruct (Z.compare_spec ea eb) as [Heq|Hl|Hg]; try discriminate; intros _;
    apply Z.leb_le; lia.
Qed.

Lemma SFleb_trans (L : Z) (a b c : spec_float) :
  SFlarge L a = true -> SFleb a b = true -> SFleb b c = true -> SFleb a c = true.
Proof.
  destruct a as [sa|[]| |[] ma ea]; cbn [SFlarge]; try discriminate;
    destruct b as [sb|[]| |[] mb eb]; cbn [SFleb SFcompare];
    try discriminate;
    destruct c as [sc|[]| |[] mc ec]; cbn [SFleb SFcompare];
    try discriminate; try reflexivity.
  intros _.
  change (PosDef.Pos.compare_cont Eq ma mb) with (ma ?= mb)%positive.
  change (PosDef.Pos.compare_cont Eq mb mc) with (mb ?= mc)%positive.
  change (PosDef.Pos.compare_cont Eq ma mc) with (ma ?= mc)%positive.
  destruct (Z.compare_spec ea eb) as [Heq|Hl|Hg];
    destruct (Z.compare_spec eb ec) as [Heq'|Hl'|Hg'];
    destruct (Z.compare_spec ea ec) as [Heq''|Hl''|Hg'']; try discriminate;
    try reflexivity; try lia.
  destruct (Pos.compare_spec ma mb); try discriminate;
    destruct (Pos.compare_spec mb mc); try discriminate;
    destruct (Pos.compare_spec ma mc); try reflexivity; lia.
Qed.

Lemma b64_leb_trans (a b c : float) :
  large a = true -> PrimFloat.leb a b = true -> PrimFloat.leb b c = true ->
  PrimFloat.leb a c = true /\ large b = true.
Proof.
  unfold large. rewrite !leb_spec. intros Ha Hab Hbc. split.
  - exact (SFleb_trans _ _ _ _ Ha Hab Hbc).
  - exact (SFleb_large _ _ _ Ha Hab).
Qed.

(** The mean of a selection of non-zero data bytes lies between its minimum
    and its maximum. *)
Lemma stats_of_bytes (old : Stats) (bs : list Z) :
  bs <> [] -> Forall (fun b => (1 <= b <= 127)%Z) bs ->
  (length bs <= HISTORY_LENGTH)%nat ->
  ordered_stats (compute_stats old (map of_Z bs)).
Proof.
  intros Hne Hbs Hlen.
  assert (Hdata : Forall midi_data bs).
  { eapply Forall_impl; [exact Hbs|]. intros b Hb. cbv beta in Hb. unfold midi_data. lia. }
  rewrite compute_stats_nonempty by (destruct bs; [congruence | discriminate]).
  destruct bs as [|b bs]; [congruence|].
  inversion Hdata as [|? ? Hb Hrest]; subst.
  destruct (np_min_bytes b bs Hb Hrest) as (lo & Hlo_in & Hlo & Hmin).
  destruct (np_max_bytes b bs Hb Hrest) as (hi & Hhi_in & Hhi & Hmax).
  pose proof (proj1 (Forall_forall _ _) Hbs lo (proj2 (list_elem_of_In _ _) Hlo_in)) as Hlo_b.
  pose proof (proj1 (Forall_forall _ _) Hbs hi (proj2 (list_elem_of_In _ _) Hhi_in)) as Hhi_b.
  pose proof (proj1 (Forall_forall _ _) Hlo hi (proj2 (list_elem_of_In _ _) Hhi_in)) as Hlohi.
  cbv beta in Hlo_b, Hhi_b, Hlohi.
  pose proof (sum_Z_between lo hi (b :: bs) Hlo Hhi) as Hsum.
  set (sel := b :: bs) in *. set (n := Z.of_nat (length sel)) in *.
  assert (Hn : (1 <= n <= Z.of_nat HISTORY_LENGTH)%Z) by (subst n sel; cbn [length] in *; lia).
  assert (Hmean : np_mean (map (of_Z (num := float)) sel) = div (of_Z (sum_Z sel)) (of_Z n)).
  { unfold np_mean, np_sum, zero, of_nat. rewrite length_map.
    rewrite (foldl_add_exact_b64 sel 0 Hdata ltac:(lia)); [reflexivity|].
    rewrite max_sum_value. subst n. unfold HISTORY_LENGTH in Hn. lia. }
  assert (Hs : (0 <= sum_Z sel <= 127 * n)%Z) by nia.
  destruct (b64_mean_bracket (sum_Z sel) n Hn Hs) as [Hfloor Hceil].
  assert (Hq : (lo <= sum_Z sel / n)%Z) by (apply Z.div_le_lower_bound; lia).
  assert (Hq' : ((sum_Z sel + (n - 1)) / n <= hi)%Z).
  { apply Z.lt_succ_r. apply Z.div_lt_upper_bound; [lia|]. nia. }
  assert (Hq0 : (sum_Z sel / n <= (sum_Z sel + (n - 1)) / n)%Z)
    by (apply Z.div_le_mono; lia).
  exists lo, hi. cbn [mean stats_min stats_max]. rewrite Hmean.
  split; [lia|]. split; [lia|]. split; [exact Hmin|]. split; [exact Hmax|].
  assert (Hlarge : forall z, (1 <= z <= 127)%Z -> large (of_Z z) = true)
    by (intros z Hz; exact (proj1 (byte_large z Hz))).
  assert (Hle : forall x y, (1 <= x <= y)%Z -> (y <= 127)%Z ->
                            PrimFloat.leb (of_Z x) (of_Z y) = true).
  { intros x y Hx Hy. rewrite (proj2 (b64_compare_bytes x y ltac:(unfold midi_data; lia)
                                        ltac:(unfold midi_data; lia))).
    apply Z.leb_le. lia. }
  destruct (b64_leb_trans (of_Z lo) (of_Z (sum_Z sel / n)%Z) _
              (Hlarge lo ltac:(lia)) (Hle lo (sum_Z sel / n)%Z ltac:(lia) ltac:(lia)) Hfloor)
    as [H1 Hlq].
  split; [exact H1|].
  destruct (b64_leb_trans (of_Z (sum_Z sel / n)%Z) _ _ Hlq Hfloor Hceil) as [_ Hlf].
  exact (proj1 (b64_leb_trans _ _ (of_Z hi) Hlf Hceil
                  (Hle ((sum_Z sel + (n - 1)) / n)%Z hi ltac:(lia) ltac:(lia)))).
Qed.

(** The selection of [process_midi] is a list of non-zero data bytes. *)
Lemma current_note_velocities_bytes (vh : list float) (nh : list Z) (note : Z) :
  Forall sample vh ->
  exists bs, current_note_velocities vh nh note = map of_Z bs /\
             Forall (fun b => (1 <= b <= 127)%Z) bs /\ (length bs <= length vh)%nat.
Proof.
  intros Hs. revert nh. induction Hs as [|v vh Hv _ IH]; intros nh.
  - exists []. unfold current_note_velocities. destruct nh; cbn; auto.
  - destruct nh as [|n nh].
    + exists []. cbn. split; [reflexivity|]. split; [constructor | lia].
    + destruct (IH nh) as (bs & Heq & Hbs & Hlen).
      unfold current_note_velocities in *. cbn [map mask_select].
      destruct (n =? note)%Z; cbn [List.filter].
      * destruct (gt0 v) eqn:Hg.
        -- destruct (byte_of_nonzero_sample v Hv) as (b & Hb & ->).
           { now apply sample_gt0_iff. }
           exists (b :: bs). cbn [map length]. rewrite Heq.
           split; [reflexivity|]. split; [now constructor | lia].
        -- exists bs. cbn [length]. split; [exact Heq|]. split; [assumption | lia].
      * exists bs. cbn [length]. split; [exact Heq|]. split; [assumption | lia].
Qed.

Lemma compute_stats_ordered (old : Stats) (vh : list float) (nh : list Z) (note : Z) :
  Forall sample vh -> length vh = HISTORY_LENGTH ->
  unset_or_ordered old ->
  unset_or_ordered (compute_stats old (current_note_velocities vh nh note)).
Proof.
  intros Hs Hlen Hold.
  destruct (current_note_velocities_bytes vh nh note Hs) as (bs & -> & Hbs & Hl).
  destruct bs as [|b bs]; [exact Hold|].
  right. apply stats_of_bytes; [discriminate | assumption | lia].
Qed.

Lemma handle_events_stats (events : list (string * pygame_event))
    (s : Visualizer (num := float) * bool) :
  stats (core (foldl handle_event s events).1) = stats (core s.1).
Proof.
  revert s. induction events as [|e events IH]; intros s; cbn [foldl]; [reflexivity|].
  rewrite IH. unfold handle_event. destruct e.2 as [|key|button mouse_pos|]; try reflexivity.
  - unfold key_down. repeat (destruct (_ =? _)%Z; [reflexivity|]).
    destruct (_ && _); reflexivity.
  - destruct (_ =? _)%Z; [|reflexivity]. unfold left_click. cbn [fst].
    destruct (collidepoint _ _); [reflexivity|].
    destruct (cc_dropdown_open _); [|reflexivity].
    destruct (clicked_option _ _ _); reflexivity.
Qed.

Lemma frame_step_statistics (l l' : Loop (num := float)) (f : Frame) :
  consistent (visualizer l') ->
  unset_or_ordered (stats (core (visualizer l))) ->
  frame_step l f = Some l' ->
  unset_or_ordered (stats (core (visualizer l'))).
Proof.
  intros Hv' Hold. unfold frame_step.
  pose proof (handle_events_stats (pygame_events f) (visualizer l, running l)) as Hs.
  cbn [fst] in Hs. destruct (polls l f).
  - destruct (process_midi_logged _ _) as [v|] eqn:Hp; [|discriminate].
    intros [= <-]. cbn [visualizer] in *.
    pose proof (core_process_midi_logged
                  (foldl handle_event (visualizer l, running l) (pygame_events f)).1
                  (midi_events f)) as Hcore.
    rewrite Hp in Hcore. cbn [option_map] in Hcore. symmetry in Hcore.
    unfold process_midi, update_history in Hcore.
    destruct (process_events_histories (map snd (midi_events f))
                (core (foldl handle_event (visualizer l, running l) (pygame_events f)).1))
      as (_ & _ & Hst).
    destruct (is_note_active _).
    + destruct (current_note _) as [note|]; [|discriminate].
      injection Hcore as Hcore.
      pose proof (wf_samples _ (consistent_wf _ Hv')) as Hsam.
      pose proof (wf_vlen _ (consistent_wf _ Hv')) as Hlen.
      rewrite <- Hcore in *.
      change (stats (push_sample ?st note))
        with (compute_stats (stats st)
                (current_note_velocities (velocity_history (push_sample st note))
                                         (note_history (push_sample st note)) note)).
      apply compute_stats_ordered.
      * exact Hsam.
      * exact Hlen.
      * rewrite Hst, Hs. exact Hold.
    + injection Hcore as Hcore. rewrite <- Hcore, Hst, Hs. exact Hold.
  - intros [= <-]. cbn [visualizer]. rewrite Hs. exact Hold.
Qed.

Lemma run_statistics (frames : list Frame) (l l' : Loop (num := float)) :
  Forall valid_frame frames -> consistent (visualizer l) ->
  unset_or_ordered (stats (core (visualizer l))) ->
  run l frames = Some l' ->
  unset_or_ordered (stats (core (visualizer l'))).
Proof.
  revert l. induction frames as [|f frames IH]; intros l Hf Hv Hold; cbn [run].
  - now intros [= <-].
  - inversion Hf; subst. destruct (running l); [|now intros [= <-]].
    destruct (frame_step_consistent l f) as (l1 & Hstep & Hv1); [assumption..|].
    rewrite Hstep. apply IH; [assumption..|].
    exact (frame_step_statistics l l1 f Hv1 Hold Hstep).
Qed.

(** X26: The statistics are ordered (binary64).  In every state the event loop
    reaches, the statistics are either still the zeros of [__init__] or the
    minimum and the maximum are data bytes with [1 <= min <= max <= 127] and
    the mean, although rounded, lies between them.  The dashed mean line,
    when it is drawn, is therefore at a height between 1 and 127, inside
    the range 0..130 of the graph. *)
Theorem statistics_are_ordered (frames : list Frame) (l : Loop (num := float)) :
  Forall valid_frame frames -> run init_loop frames = Some l ->
  let st := core (visualizer l) in
  (stats st = stats init \/
   exists lo hi : Z,
     (1 <= lo <= hi)%Z /\ (hi <= 127)%Z /\
     stats_min (stats st) = of_Z lo /\ stats_max (stats st) = of_Z hi /\
     PrimFloat.leb (of_Z lo) (mean (stats st)) = true /\
     PrimFloat.leb (mean (stats st)) (of_Z hi) = true) /\
  (forall y, mean_line st = Some y ->
     PrimFloat.leb (of_Z 1) y = true /\ PrimFloat.leb y (of_Z 127) = true).
Proof.
  intros Hf Hrun st.
  pose proof (run_statistics frames init_loop l Hf init_consistent (or_introl eq_refl) Hrun)
    as Hstats.
  fold st in Hstats. split; [exact Hstats|].
  intros y. unfold mean_line. destruct (is_note_active st); cbn [andb]; [|discriminate].
  destruct (gt0 (mean (stats st))) eqn:Hg; [|discriminate]. intros [= <-].
  destruct Hstats as [Hinit|(lo & hi & Hlh & Hhi & _ & _ & Hlo_m & Hm_hi)].
  - rewrite Hinit in Hg. cbn [init stats mean] in Hg. now rewrite gt0_zero in Hg.
  - assert (Hle : forall x y, (1 <= x <= y)%Z -> (y <= 127)%Z ->
                              PrimFloat.leb (of_Z x) (of_Z y) = true).
    { intros x z Hx Hz. rewrite (proj2 (b64_compare_bytes x z ltac:(unfold midi_data; lia)
                                          ltac:(unfold midi_data; lia))).
      apply Z.leb_le. lia. }
    destruct (b64_leb_trans (of_Z 1) (of_Z lo) _ (proj1 (byte_large 1 ltac:(lia)))
                (Hle 1%Z lo ltac:(lia) ltac:(lia)) Hlo_m) as [H1 Hl].
    split; [exact H1|].
    destruct (b64_leb_trans (of_Z lo) _ _ Hl Hlo_m Hm_hi) as [_ Hlm].
    exact (proj1 (b64_leb_trans _ _ (of_Z 127) Hlm Hm_hi
                    (Hle hi 127%Z ltac:(lia) ltac:(lia)))).
Qed.

Lemma statistics_are_ordered_witness :
  let st := core (visualizer after_legato) in
  (stats st = stats init \/
   exists lo hi : Z,
     (1 <= lo <= hi)%Z /\ (hi <= 127)%Z /\
     stats_min (stats st) = of_Z lo /\ stats_max (stats st) = of_Z hi /\
     PrimFloat.leb (of_Z lo) (mean (stats st)) = true /\
     PrimFloat.leb (mean (stats st)) (of_Z hi) = true) /\
  (forall y, mean_line st = Some y ->
     PrimFloat.leb (of_Z 1) y = true /\ PrimFloat.leb y (of_Z 127) = true).
Proof. exact (statistics_are_ordered legato after_legato legato_valid legato_runs). Defined.
